(** * Array hash table of hat-trie ([src/ahtable.c])

    A shallow embedding of the array hash table: every bucket ("slot") is one
    heap buffer of packed records [length prefix | key bytes | value],
    closed by a zero byte.  The embedding keeps the byte level of the C
    code: buffers are lists of bytes, a pointer into a buffer is an offset,
    and every read or write outside a buffer is a fault.

    Target assumptions, fixed once: [size_t] is 64 bits wide, multi-byte
    stores use little-endian byte order (the order the specification
    names), and unaligned accesses are allowed.  [malloc_or_die] and
    [realloc_or_die] always return memory (they abort otherwise), with
    arbitrary contents.  Offsets and buffer sizes are natural numbers: they
    measure objects that are in memory.  The counters [n], [m] and [max_m]
    of the table are integers with the wrap-around of [size_t] written out.

    In this first part a table owns its buffers.  [ahtable_dup] shares
    the buffers between two tables and [ahtable_free] releases them, so
    these two are embedded over a heap of blocks, in the part "The heap".
    Iterators are values: [ahtable_iter_free], which only releases the
    record of an iterator, has no counterpart. *)

From Stdlib Require Import ZArith List Lia Bool Permutation.
From Stdlib Require Import Strings.Byte.
From coqutil Require Import Byte Word.LittleEndianList.
Import ListNotations.
Local Open Scope Z_scope.

(** ** Faults and the error monad *)

Inductive fault : Set :=
| OutOfBounds       (* access outside a buffer or an array *)
| NullPointer       (* dereference of NULL *)
| DivisionByZero    (* [x % 0] *)
| AssertionFailed   (* [assert] aborted the process *)
| OutOfFuel.        (* a loop of the model used up its iteration bound *)

Inductive res (A : Type) : Type :=
| Ok (a : A)
| Err (f : fault).
Arguments Ok {A} a.
Arguments Err {A} f.

Definition bind {A B : Type} (r : res A) (k : A -> res B) : res B :=
  match r with
  | Ok a => k a
  | Err f => Err f
  end.

Notation "x <- e ;; k" := (bind e (fun x => k))
  (at level 61, e at next level, right associativity).
Notation "' p <- e ;; k" := (bind e (fun x => match x with p => k end))
  (at level 61, p pattern, e at next level, right associativity).

Definition of_option {A : Type} (f : fault) (o : option A) : res A :=
  match o with
  | Some a => Ok a
  | None => Err f
  end.

(** ** Constants *)

Definition ahtable_max_load_factor : Z := 5.
Definition ahtable_initial_size : Z := 8.
Definition LONG_KEYLEN_MASK : Z := 0x7fff.

(** Modelled from the spec: [value_t] is declared in a header that is not
    part of the sources at hand; the specification describes it as a
    fixed-width unsigned integer, typically of 64 bits. *)
Definition sizeof_value : nat := 8.

Definition wrap_size (z : Z) : Z := z mod 2 ^ 64.
Definition wrap_u32 (z : Z) : Z := z mod 2 ^ 32.
Definition wrap_u16 (z : Z) : Z := z mod 2 ^ 16.

(** [(size_t) (ahtable_max_load_factor * (double) n)].  Both the conversion
    and the product are exact in IEEE double precision as long as
    [5 * n < 2 ^ 53]; the model covers that range. *)
Definition max_load (n : Z) : Z := ahtable_max_load_factor * n.

(** ** Buffers *)

(** [slot_t] is [unsigned char*]: NULL or a heap buffer. *)
Definition slot_t : Type := option (list byte).

(** A pointer into the buffer of slot [blk], [off] bytes after its start. *)
Record ptr : Set := mkptr { blk : nat; off : nat }.

Definition load (buf : list byte) (s : nat) : res byte :=
  of_option OutOfBounds (nth_error buf s).

Definition load_bytes (buf : list byte) (s len : nat) : res (list byte) :=
  if (s + len <=? length buf)%nat
  then Ok (firstn len (skipn s buf))
  else Err OutOfBounds.

Definition store_bytes (buf : list byte) (s : nat) (bs : list byte)
  : res (list byte) :=
  if (s + length bs <=? length buf)%nat
  then Ok (firstn s buf ++ bs ++ skipn (s + length bs) buf)
  else Err OutOfBounds.

(** A [uint16_t] read and write through a cast pointer. *)
Definition load_u16 (buf : list byte) (s : nat) : res Z :=
  w <- load_bytes buf s 2 ;; Ok (le_combine w).

Definition store_u16 (buf : list byte) (s : nat) (x : Z) : res (list byte) :=
  store_bytes buf s (le_split 2 x).

Definition memcmp_eq (a b : list byte) : bool :=
  if list_eq_dec Byte.byte_eq_dec a b then true else false.

Fixpoint upd {A : Type} (l : list A) (i : nat) (x : A) : list A :=
  match l, i with
  | [], _ => []
  | _ :: t, O => x :: t
  | h :: t, S j => h :: upd t j x
  end.

Definition slot_at (ss : list slot_t) (i : Z) : res slot_t :=
  of_option OutOfBounds (nth_error ss (Z.to_nat i)).

Definition deref (ss : list slot_t) (p : ptr) : res (list byte) :=
  sl <- of_option OutOfBounds (nth_error ss (blk p)) ;;
  of_option NullPointer sl.

(** ** Slot codec *)

(** The length decoder that [get_key], [ahtable_iter_next],
    [ahtable_iter_key] and [ahtable_iter_val] all repeat: returns the key
    length and the cursor behind the prefix. *)
Definition read_keylen (buf : list byte) (s : nat) : res (nat * nat) :=
  b <- load buf s ;;
  if negb (Z.land 0x80 (byte.unsigned b) =? 0)
  then w <- load_u16 buf s ;;
       Ok (Z.to_nat (Z.land LONG_KEYLEN_MASK w), (s + 2)%nat)
  else Ok (Z.to_nat (byte.unsigned b), (s + 1)%nat).

(** [ins_key(s, key, len, &val)]: the buffer after the writes, the offset
    stored in [val], and the returned cursor. *)
Definition ins_key (buf : list byte) (s : nat) (key : list byte)
  : res (list byte * nat * nat) :=
  let len := length key in
  '(buf, s) <-
     (if (len <? 128)%nat
      then buf <- store_bytes buf s [byte.of_Z (Z.of_nat len)] ;;
           Ok (buf, (s + 1)%nat)
      else buf <- store_u16 buf s (Z.lor (wrap_u16 (Z.of_nat len)) 0x8000) ;;
           Ok (buf, (s + 2)%nat)) ;;
  buf <- store_bytes buf s key ;;
  let s := (s + len)%nat in
  let val := s in
  buf <- store_bytes buf val (le_split sizeof_value 0) ;;
  Ok (buf, val, (s + sizeof_value)%nat).

(** ** The table *)

Record ahtable_t : Type := mk_ahtable {
  flag : byte;
  c0 : byte;
  c1 : byte;
  n : Z;
  m : Z;
  max_m : Z;
  slots : list slot_t
}.

(** The slot array is allocated with [n * sizeof(slot_t)] bytes, a product
    of two [size_t]: it holds [n] pointers only as long as the product does
    not wrap, that is for [n < 2 ^ 61]. *)
Definition ahtable_create_n (n0 : Z) : ahtable_t :=
  {| flag := x00; c0 := x00; c1 := x00;
     n := n0; m := 0; max_m := max_load n0;
     slots := repeat None (Z.to_nat (wrap_size (n0 * 8) / 8)) |}.

Definition ahtable_create : ahtable_t := ahtable_create_n ahtable_initial_size.

Definition ahtable_size (T : ahtable_t) : Z := m T.

Definition ahtable_clear (T : ahtable_t) : ahtable_t :=
  {| flag := flag T; c0 := c0 T; c1 := c1 T;
     n := ahtable_initial_size; m := m T; max_m := max_m T;
     slots := repeat None (Z.to_nat ahtable_initial_size) |}.

(** Values are read and written through the handles that lookup returns. *)
Definition read_value (T : ahtable_t) (p : ptr) : res Z :=
  buf <- deref (slots T) p ;;
  w <- load_bytes buf (off p) sizeof_value ;;
  Ok (le_combine w).

Definition write_value (T : ahtable_t) (p : ptr) (v : Z) : res ahtable_t :=
  buf <- deref (slots T) p ;;
  buf <- store_bytes buf (off p) (le_split sizeof_value v) ;;
  Ok {| flag := flag T; c0 := c0 T; c1 := c1 T;
        n := n T; m := m T; max_m := max_m T;
        slots := upd (slots T) (blk p) (Some buf) |}.

(** ** Iterator *)

Record ahtable_iter_t : Type := mk_iter {
  it_i : Z;            (* slot index *)
  it_s : option ptr    (* slot position, None is NULL *)
}.

Definition slot_start (i : Z) (sl : slot_t) : option ptr :=
  match sl with
  | Some _ => Some (mkptr (Z.to_nat i) 0)
  | None => None
  end.

(** The [for] loop of [ahtable_iter_begin] with [k] indices left: the loop
    variable is [n T - k]. *)
Fixpoint iter_begin_loop (T : ahtable_t) (k : nat) (s : option ptr)
  : res ahtable_iter_t :=
  match k with
  | O => Ok {| it_i := n T; it_s := s |}
  | S k' =>
    let i := n T - Z.of_nat k in
    sl <- slot_at (slots T) i ;;
    match sl with
    | None => iter_begin_loop T k' None
    | Some buf =>
      b <- load buf 0 ;;
      if byte.unsigned b =? 0
      then iter_begin_loop T k' (slot_start i sl)
      else Ok {| it_i := i; it_s := slot_start i sl |}
    end
  end.

Definition ahtable_iter_begin (T : ahtable_t) : res ahtable_iter_t :=
  iter_begin_loop T (Z.to_nat (n T)) None.

Definition ahtable_iter_finished (T : ahtable_t) (i : ahtable_iter_t) : bool :=
  n T <=? it_i i.

(** The [do ... while] loop of [ahtable_iter_next], entered after the
    increment, with [k] indices left: the index tested is [n T - k]. *)
Fixpoint iter_skip (T : ahtable_t) (k : nat) : res Z :=
  match k with
  | O => Ok (n T)
  | S k' =>
    let i := n T - Z.of_nat k in
    sl <- slot_at (slots T) i ;;
    match sl with
    | None => iter_skip T k'
    | Some buf =>
      b <- load buf 0 ;;
      if byte.unsigned b =? 0 then iter_skip T k' else Ok i
    end
  end.

Definition ahtable_iter_next (T : ahtable_t) (i : ahtable_iter_t)
  : res ahtable_iter_t :=
  if ahtable_iter_finished T i then Ok i else
  p <- of_option NullPointer (it_s i) ;;
  buf <- deref (slots T) p ;;
  '(k, s) <- read_keylen buf (off p) ;;
  let s := (s + (k + sizeof_value))%nat in
  b <- load buf s ;;
  if byte.unsigned b =? 0
  then
    j <- iter_skip T (Z.to_nat (n T - (it_i i + 1))) ;;
    if j <? n T
    then sl <- slot_at (slots T) j ;; Ok {| it_i := j; it_s := slot_start j sl |}
    else Ok {| it_i := j; it_s := Some (mkptr (blk p) s) |}
  else Ok {| it_i := it_i i; it_s := Some (mkptr (blk p) s) |}.

(** [ahtable_iter_key]: NULL when finished, else the key pointer and the
    length written to [*len]. *)
Definition ahtable_iter_key (T : ahtable_t) (i : ahtable_iter_t)
  : res (option (ptr * nat)) :=
  if ahtable_iter_finished T i then Ok None else
  p <- of_option NullPointer (it_s i) ;;
  buf <- deref (slots T) p ;;
  '(k, s) <- read_keylen buf (off p) ;;
  Ok (Some (mkptr (blk p) s, k)).

Definition ahtable_iter_val (T : ahtable_t) (i : ahtable_iter_t)
  : res (option ptr) :=
  if ahtable_iter_finished T i then Ok None else
  p <- of_option NullPointer (it_s i) ;;
  buf <- deref (slots T) p ;;
  '(k, s) <- read_keylen buf (off p) ;;
  Ok (Some (mkptr (blk p) (s + k))).

(** Reading the key an iterator points at. *)
Definition load_key (T : ahtable_t) (kp : ptr) (len : nat) : res (list byte) :=
  buf <- deref (slots T) kp ;;
  load_bytes buf (off kp) len.

Definition slot_len (sl : slot_t) : nat :=
  match sl with
  | Some buf => length buf
  | None => O
  end.

(** Every step of an iterator passes at least one byte, so a traversal
    takes at most as many steps as the buffers have bytes. *)
Definition iter_fuel (T : ahtable_t) : nat :=
  S (list_sum (map slot_len (slots T))).

(** [while (!ahtable_iter_finished(i)) { body; ahtable_iter_next(i); }] *)
Fixpoint iter_while {A : Type} (fuel : nat) (T : ahtable_t)
  (body : ahtable_iter_t -> A -> res A) (i : ahtable_iter_t) (acc : A)
  : res A :=
  match fuel with
  | O => Err OutOfFuel
  | S fuel' =>
    if ahtable_iter_finished T i then Ok acc else
    acc <- body i acc ;;
    i <- ahtable_iter_next T i ;;
    iter_while fuel' T body i acc
  end.

(** A full traversal as a client writes it, collecting keys and values. *)
Definition visit (T : ahtable_t) (i : ahtable_iter_t) (acc : list (list byte * Z))
  : res (list (list byte * Z)) :=
  kl <- ahtable_iter_key T i ;;
  '(kp, len) <- of_option NullPointer kl ;;
  key <- load_key T kp len ;;
  vp <- ahtable_iter_val T i ;;
  vp <- of_option NullPointer vp ;;
  v <- read_value T vp ;;
  Ok (acc ++ [(key, v)]).

Definition traverse (T : ahtable_t) : res (list (list byte * Z)) :=
  i <- ahtable_iter_begin T ;;
  iter_while (iter_fuel T) T (visit T) i [].

(** ** Expansion and lookup *)

Section Table.

(** [hash] is declared in a header of its own and is not part of the
    sources at hand: a parameter.  It returns a [uint32_t]. *)
Variable hash : list byte -> Z.

(** The contents of the memory that [malloc_or_die] and [realloc_or_die]
    hand out are not initialised: [junk k] is the byte found [k] bytes
    after the start of a new block. *)
Variable junk : nat -> byte.

Definition malloc (size : nat) : list byte := map junk (seq 0 size).

Definition realloc (buf : list byte) (size : nat) : list byte :=
  firstn size buf ++ map junk (seq (length buf) (size - length buf)).

(** [hash(key, len) % n] *)
Definition hash_mod (key : list byte) (n0 : Z) : res Z :=
  if n0 =? 0 then Err DivisionByZero else Ok (wrap_u32 (hash key) mod n0).

(** Bytes a record takes: [len + sizeof(value_t) + (len >= 128 ? 2 : 1)]. *)
Definition record_size (len : nat) : nat :=
  (len + sizeof_value + (if 128 <=? len then 2 else 1))%nat.

(** Body of the first loop of [ahtable_expand]. *)
Definition add_size (T : ahtable_t) (new_n : Z) (i : ahtable_iter_t)
  (slot_sizes : list nat) : res (list nat) :=
  kl <- ahtable_iter_key T i ;;
  '(kp, len) <- of_option NullPointer kl ;;
  key <- load_key T kp len ;;
  h <- hash_mod key new_n ;;
  sz <- of_option OutOfBounds (nth_error slot_sizes (Z.to_nat h)) ;;
  Ok (upd slot_sizes (Z.to_nat h) (sz + record_size len)%nat).

Definition alloc_slot (size : nat) : slot_t :=
  if (0 <? size)%nat
  then Some (upd (malloc (size + 1)) size x00)
  else None.

Definition slot_cursor (sl : slot_t) : option nat :=
  match sl with
  | Some _ => Some O
  | None => None
  end.

(** Body of the second loop of [ahtable_expand]; the state is the new slot
    array, the write cursor of every new slot, and the counter [m]. *)
Definition place (T : ahtable_t) (new_n : Z) (i : ahtable_iter_t)
  (st : list slot_t * list (option nat) * Z)
  : res (list slot_t * list (option nat) * Z) :=
  let '(new_slots, slots_next, cnt) := st in
  kl <- ahtable_iter_key T i ;;
  '(kp, len) <- of_option NullPointer kl ;;
  key <- load_key T kp len ;;
  h <- hash_mod key new_n ;;
  cur <- of_option OutOfBounds (nth_error slots_next (Z.to_nat h)) ;;
  s <- of_option NullPointer cur ;;
  buf <- deref new_slots (mkptr (Z.to_nat h) s) ;;
  '(buf, u, s) <- ins_key buf s key ;;
  vp <- ahtable_iter_val T i ;;
  vp <- of_option NullPointer vp ;;
  old <- deref (slots T) vp ;;
  v <- load_bytes old (off vp) sizeof_value ;;
  buf <- store_bytes buf u v ;;
  Ok (upd new_slots (Z.to_nat h) (Some buf),
      upd slots_next (Z.to_nat h) (Some s),
      wrap_size (cnt + 1)).

Definition ahtable_expand (T : ahtable_t) : res ahtable_t :=
  let new_n := wrap_size (2 * n T) in
  let slot_sizes := repeat O (Z.to_nat new_n) in
  i <- ahtable_iter_begin T ;;
  slot_sizes <- iter_while (iter_fuel T) T (add_size T new_n) i slot_sizes ;;
  let new_slots := map alloc_slot slot_sizes in
  let slots_next := map slot_cursor new_slots in
  i <- ahtable_iter_begin T ;;
  '(new_slots, _, cnt) <-
     iter_while (iter_fuel T) T (place T new_n) i (new_slots, slots_next, 0) ;;
  if negb (cnt =? m T) then Err AssertionFailed else
  Ok {| flag := flag T; c0 := c0 T; c1 := c1 T;
        n := new_n; m := m T; max_m := max_load new_n;
        slots := new_slots |}.

Inductive scan_result : Set :=
| Hit (val : nat)    (* the key was found: offset of its value *)
| Miss (s : nat).    (* the loop ended at the zero byte at offset [s] *)

(** The search loop of [get_key] over the buffer of one slot. *)
Fixpoint scan (fuel : nat) (buf : list byte) (s : nat) (key : list byte)
  : res scan_result :=
  match fuel with
  | O => Err OutOfFuel
  | S fuel' =>
    b <- load buf s ;;
    if byte.unsigned b =? 0 then Ok (Miss s) else
    '(k, s) <- read_keylen buf s ;;
    if negb (k =? length key)%nat
    then scan fuel' buf (s + (k + sizeof_value))%nat key
    else
      cand <- load_bytes buf s (length key) ;;
      if memcmp_eq cand key
      then Ok (Hit (s + length key)%nat)
      else scan fuel' buf (s + (k + sizeof_value))%nat key
  end.

Definition set_slot (T : ahtable_t) (i : Z) (buf : list byte) (new_m : Z)
  : ahtable_t :=
  {| flag := flag T; c0 := c0 T; c1 := c1 T;
     n := n T; m := new_m; max_m := max_m T;
     slots := upd (slots T) (Z.to_nat i) (Some buf) |}.

(** [get_key] from the point where the slot index [i] is known. *)
Definition get_key_slot (T : ahtable_t) (i : Z) (key : list byte)
  (insert_missing : bool) : res (ahtable_t * option ptr) :=
  let len := length key in
  sl <- slot_at (slots T) i ;;
  match sl with
  | None =>
    if insert_missing then
      let slot_size :=
        (1 + (if 128 <=? len then 1 else 0) + len + sizeof_value + 1)%nat in
      let buf := malloc slot_size in
      '(buf, val, s) <- ins_key buf 0 key ;;
      buf <- store_bytes buf s [x00] ;;
      Ok (set_slot T i buf (wrap_size (m T + 1)),
          Some (mkptr (Z.to_nat i) val))
    else Ok (T, None)
  | Some buf =>
    r <- scan (S (length buf)) buf 0 key ;;
    match r with
    | Hit val => Ok (T, Some (mkptr (Z.to_nat i) val))
    | Miss s =>
      if insert_missing then
        let old_size := (s + 1)%nat in
        let new_size :=
          (old_size + (1 + (if 128 <=? len then 1 else 0)) + len
           + sizeof_value)%nat in
        let buf := realloc buf new_size in
        buf <- store_bytes buf (new_size - 1) [x00] ;;
        '(buf, val, _) <- ins_key buf (old_size - 1) key ;;
        Ok (set_slot T i buf (wrap_size (m T + 1)),
            Some (mkptr (Z.to_nat i) val))
      else Ok (T, None)
    end
  end.

Definition get_key (T : ahtable_t) (key : list byte) (insert_missing : bool)
  : res (ahtable_t * option ptr) :=
  T <- (if insert_missing && (max_m T <=? m T)
        then ahtable_expand T else Ok T) ;;
  i <- hash_mod key (n T) ;;
  get_key_slot T (wrap_u32 i) key insert_missing.

Definition ahtable_get (T : ahtable_t) (key : list byte)
  : res (ahtable_t * option ptr) :=
  get_key T key true.

Definition ahtable_tryget (T : ahtable_t) (key : list byte)
  : res (ahtable_t * option ptr) :=
  get_key T key false.

(** The client idiom of the specification's scenarios: insert [key] with
    [ahtable_get] and write [v] through the handle. *)
Definition put (T : ahtable_t) (kv : list byte * Z) : res ahtable_t :=
  '(T, h) <- ahtable_get T (fst kv) ;;
  p <- of_option NullPointer h ;;
  write_value T p (snd kv).

Fixpoint put_all (T : ahtable_t) (kvs : list (list byte * Z)) : res ahtable_t :=
  match kvs with
  | [] => Ok T
  | kv :: rest => T <- put T kv ;; put_all T rest
  end.

(** Lookup of the value stored for a key. *)
Definition lookup (T : ahtable_t) (key : list byte) : res (option Z) :=
  '(T, h) <- ahtable_tryget T key ;;
  match h with
  | Some p => v <- read_value T p ;; Ok (Some v)
  | None => Ok None
  end.

End Table.

(** ** Sample instances

    Concrete runs need a hash function and memory contents.  The traces
    below do not depend on the choice: wherever it is feasible the
    statements quantify over every [hash] and every [junk]. *)

Definition hash0 (key : list byte) : Z :=
  fold_left (fun acc b => (acc * 31 + byte.unsigned b) mod 2 ^ 32) key 7.

Definition junk0 (k : nat) : byte := xaa.

(** ["x" * 256], a key whose length needs the two-byte prefix. *)
Definition key256 : list byte := repeat x78 256.

(** The keys ["k00"], ["k01"], ... of the specification's scenario S2. *)
Definition keyk (i : nat) : list byte :=
  [x6b; byte.of_Z (Z.of_nat (48 + i / 10)); byte.of_Z (Z.of_nat (48 + i mod 10))].

Definition kvs (k : nat) : list (list byte * Z) :=
  map (fun i => (keyk i, Z.of_nat i)) (seq 0 k).

(** ** Layout of a slot, as the writer produces it *)

(** The bytes [ins_key] writes in front of a key of [len] bytes. *)
Definition prefix_bytes (len : nat) : list byte :=
  if (len <? 128)%nat
  then [byte.of_Z (Z.of_nat len)]
  else le_split 2 (Z.lor (wrap_u16 (Z.of_nat len)) 0x8000).

Definition prefix_size (len : nat) : nat :=
  if (len <? 128)%nat then 1%nat else 2%nat.

(** A record as [ins_key] followed by a store of the value lays it out. *)
Definition enc_rec (r : list byte * Z) : list byte :=
  prefix_bytes (length (fst r)) ++ fst r ++ le_split sizeof_value (snd r).

Definition enc_recs (rs : list (list byte * Z)) : list byte :=
  flat_map enc_rec rs.

(** Key lengths whose prefix the decoder reads back: the one-byte form, and
    the two-byte form when bit 7 of the low byte of the length is set.  The
    decoder tests [0x80] on the first byte in memory, which under
    little-endian order is the low byte of the [uint16_t] the encoder
    stored. *)
Definition decodable (len : nat) : Prop :=
  (1 <= len < 128)%nat \/
  ((128 <= len)%nat /\ Z.of_nat len <= 32767 /\ (128 <= len mod 256)%nat).

(** The value of [i] in [get_key]: [hash(key, len) % T->n], stored in a
    [uint32_t]. *)
Definition slot_index (hash : list byte -> Z) (n0 : Z) (key : list byte) : Z :=
  wrap_u32 (wrap_u32 (hash key) mod n0).

(** The table that [ahtable_create] followed by one insertion of [key256]
    yields, with [v] written through the handle; [i] is the slot the key
    hashes to. *)
Definition table256 (v i : Z) : ahtable_t :=
  {| flag := x00; c0 := x00; c1 := x00;
     n := 8; m := 1; max_m := 40;
     slots := upd (repeat None 8) (Z.to_nat i)
                  (Some (enc_rec (key256, v) ++ [x00])) |}.

(** ** Well-formed tables

    The abstract content of a table is one list of records per slot, in
    the order of insertion. *)

Definition good_rec (r : list byte * Z) : Prop :=
  decodable (length (fst r)) /\ 0 <= snd r < 2 ^ 64.

(** A slot holds the records [rs]: NULL when there are none, or a buffer
    with their encodings and the terminator. *)
Definition slot_repr (sl : slot_t) (rs : list (list byte * Z)) : Prop :=
  (sl = None /\ rs = []) \/ sl = Some (enc_recs rs ++ [x00]).

Record wf_table (hash : list byte -> Z) (T : ahtable_t)
  (bs : list (list (list byte * Z))) : Prop := mk_wf {
  wf_n : n T = Z.of_nat (length bs);
  wf_pos : 0 < n T;
  wf_slots : Forall2 slot_repr (slots T) bs;
  wf_good : Forall (Forall good_rec) bs;
  wf_home : forall j rs r, nth_error bs j = Some rs -> In r rs ->
            slot_index hash (n T) (fst r) = Z.of_nat j;
  wf_nodup : Forall (fun rs => NoDup (map fst rs)) bs;
  wf_m : m T = Z.of_nat (length (concat bs))
}.

(** Offset of the value of the record for [key] that follows the records
    [r1] in a slot. *)
Definition value_off (r1 : list (list byte * Z)) (key : list byte) : nat :=
  (length (enc_recs r1) + prefix_size (length key) + length key)%nat.

(** A sample table: the content of every slot after the twelve keys
    ["k00"] to ["k11"] were inserted into a new table under [hash0]. *)
Definition sample_content : list (list (list byte * Z)) :=
  [ [(keyk 4, 4)];
    [(keyk 5, 5)];
    [(keyk 6, 6)];
    [(keyk 7, 7); (keyk 10, 10)];
    [(keyk 0, 0); (keyk 8, 8); (keyk 11, 11)];
    [(keyk 1, 1); (keyk 9, 9)];
    [(keyk 2, 2)];
    [(keyk 3, 3)] ].

Definition sample_table : ahtable_t :=
  {| flag := x00; c0 := x00; c1 := x00;
     n := 8; m := 12; max_m := 40;
     slots := map (fun rs => Some (enc_recs rs ++ [x00])) sample_content |}.

(** The iterator [i] of a table with content [bs] has the records [rem]
    still to visit. *)
Inductive at_pos (T : ahtable_t) (bs : list (list (list byte * Z)))
  : ahtable_iter_t -> list (list byte * Z) -> Prop :=
| at_end (i : ahtable_iter_t) :
    n T <= it_i i -> at_pos T bs i []
| at_rec (j : nat) (r1 r2 : list (list byte * Z)) (r : list byte * Z) :
    nth_error bs j = Some (r1 ++ r :: r2) ->
    at_pos T bs
      {| it_i := Z.of_nat j; it_s := Some (mkptr j (length (enc_recs r1))) |}
      (r :: r2 ++ concat (skipn (S j) bs)).

(** A loop over the records of a table, in the error monad. *)
Fixpoint fold_res {A B : Type} (g : B -> A -> res A) (l : list B) (acc : A)
  : res A :=
  match l with
  | [] => Ok acc
  | x :: l' => acc <- g x acc ;; fold_res g l' acc
  end.

(** ** Abstract view of expansion *)

(** The list [f 0; ...; f (N - 1)]. *)
Definition tab {A : Type} (N : nat) (f : nat -> A) : list A :=
  map f (seq 0 N).

(** The records of [recs] that belong in slot [j] of a table of [n0]
    slots, in their order in [recs]. *)
Definition bucket_of (hash : list byte -> Z) (n0 : Z)
  (recs : list (list byte * Z)) (j : nat) : list (list byte * Z) :=
  filter (fun r => slot_index hash n0 (fst r) =? Z.of_nat j) recs.

(** The content of a table of [n0] slots that holds the records [recs]. *)
Definition rehash (hash : list byte -> Z) (n0 : Z)
  (recs : list (list byte * Z)) : list (list (list byte * Z)) :=
  tab (Z.to_nat n0) (bucket_of hash n0 recs).

(** What the body of the first loop of [ahtable_expand] does with the
    record [r]. *)
Definition size_step (hash : list byte -> Z) (new_n : Z)
  (r : list byte * Z) (slot_sizes : list nat) : res (list nat) :=
  h <- hash_mod hash (fst r) new_n ;;
  sz <- of_option OutOfBounds (nth_error slot_sizes (Z.to_nat h)) ;;
  Ok (upd slot_sizes (Z.to_nat h) (sz + record_size (length (fst r)))%nat).

(** What the body of the second loop does with the record [r]. *)
Definition place_step (hash : list byte -> Z) (new_n : Z)
  (r : list byte * Z) (st : list slot_t * list (option nat) * Z)
  : res (list slot_t * list (option nat) * Z) :=
  let '(new_slots, slots_next, cnt) := st in
  h <- hash_mod hash (fst r) new_n ;;
  cur <- of_option OutOfBounds (nth_error slots_next (Z.to_nat h)) ;;
  s <- of_option NullPointer cur ;;
  buf <- deref new_slots (mkptr (Z.to_nat h) s) ;;
  '(buf, u, s) <- ins_key buf s (fst r) ;;
  buf <- store_bytes buf u (le_split sizeof_value (snd r)) ;;
  Ok (upd new_slots (Z.to_nat h) (Some buf),
      upd slots_next (Z.to_nat h) (Some s),
      wrap_size (cnt + 1)).

(** State of one new slot during the second loop: [D] are the records
    placed so far and [R] those still to come; the bytes between the
    write cursor and the terminator are not yet written. *)
Definition slot_state (sl : slot_t) (c : option nat)
  (D R : list (list byte * Z)) : Prop :=
  (D ++ R = [] /\ sl = None /\ c = None) \/
  (D ++ R <> [] /\
   exists fill,
     sl = Some (enc_recs D ++ fill ++ [x00]) /\
     length fill = length (enc_recs R) /\
     c = Some (length (enc_recs D))).

(** The invariant of the tables that creation and insertion produce. *)
Definition table_ok (hash : list byte -> Z) (T : ahtable_t)
  (bs : list (list (list byte * Z))) : Prop :=
  wf_table hash T bs /\ max_m T = 5 * n T.

Definition good_key (key : list byte) : Prop := decodable (length key).

Definition good_value (v : Z) : Prop := 0 <= v < 2 ^ 64.

(** A check that the keys of a list are pairwise different. *)
Fixpoint distinct (l : list (list byte)) : bool :=
  match l with
  | [] => true
  | x :: t => negb (existsb (memcmp_eq x) t) && distinct t
  end.

(** ** The table as a finite map *)

(** The value that a sequence of insertions leaves for the key [k]: the
    one written last. *)
Fixpoint last_put (kvs : list (list byte * Z)) (k : list byte) : option Z :=
  match kvs with
  | [] => None
  | kv :: rest =>
    match last_put rest k with
    | Some v => Some v
    | None => if memcmp_eq (fst kv) k then Some (snd kv) else None
    end
  end.

(** The different keys of a list, each once. *)
Definition keys_of (kvs : list (list byte * Z)) : list (list byte) :=
  nodup (list_eq_dec Byte.byte_eq_dec) (map fst kvs).

(** The state of a table that started with [n0] slots and was filled by
    insertions: [max_m] is five times the number of slots, the size does
    not exceed it, the number of slots is [n0] doubled some times, and once
    it was doubled the table holds at least two and a half pairs per
    slot. *)
Definition steady (hash : list byte -> Z) (n0 : Z) (T : ahtable_t)
  (bs : list (list (list byte * Z))) : Prop :=
  table_ok hash T bs /\ m T <= max_m T /\
  (exists j, n T = n0 * 2 ^ Z.of_nat j) /\
  (n T = n0 \/ 5 * n T <= 2 * m T).

(** ** The heap: [ahtable_free] and [ahtable_dup]

    The functions above own the buffers of a table, so they do not see
    that two tables can share them.  [ahtable_dup] and [ahtable_free] work
    on addresses: here the heap is a list of blocks, an address is the
    index of a block, [malloc] appends a block and [free] marks one as
    freed.  A block is the record of a table, an array of slot pointers, or
    the buffer of a slot. *)

Inductive hfault : Set :=
| DoubleFree        (* [free] of a block that was freed before *)
| UseAfterFree      (* access to a freed block *)
| WildPointer       (* not the address of a block of the expected kind *)
| Fault (f : fault) (* a fault of the code that runs on the table *).

Inductive hres (A : Type) : Type :=
| HOk (a : A)
| HErr (e : hfault).
Arguments HOk {A} a.
Arguments HErr {A} e.

Definition hbind {A B : Type} (r : hres A) (k : A -> hres B) : hres B :=
  match r with
  | HOk a => k a
  | HErr e => HErr e
  end.

Notation "x <-- e ;; k" := (hbind e (fun x => k))
  (at level 61, e at next level, right associativity).

Definition lift {A : Type} (r : res A) : hres A :=
  match r with
  | Ok a => HOk a
  | Err f => HErr (Fault f)
  end.

(** [ahtable_t] in memory: [r_slots] is the address of the slot array. *)
Record table_rec : Type := mk_rec {
  r_flag : byte;
  r_c0 : byte;
  r_c1 : byte;
  r_n : Z;
  r_m : Z;
  r_max_m : Z;
  r_slots : nat
}.

Inductive block : Type :=
| Bucket (buf : list byte)             (* the buffer of a slot *)
| SlotArray (ps : list (option nat))   (* [slot_t] array: NULL or addresses *)
| TableRec (hd : table_rec)            (* an [ahtable_t] *)
| Freed.

Definition heap : Type := list block.

Definition hload (H : heap) (a : nat) : hres block :=
  match nth_error H a with
  | None => HErr WildPointer
  | Some Freed => HErr UseAfterFree
  | Some b => HOk b
  end.

Definition load_table (H : heap) (t : nat) : hres table_rec :=
  b <-- hload H t ;;
  match b with
  | TableRec hd => HOk hd
  | _ => HErr WildPointer
  end.

Definition load_slots (H : heap) (a : nat) : hres (list (option nat)) :=
  b <-- hload H a ;;
  match b with
  | SlotArray ps => HOk ps
  | _ => HErr WildPointer
  end.

Definition load_bucket (H : heap) (a : nat) : hres (list byte) :=
  b <-- hload H a ;;
  match b with
  | Bucket buf => HOk buf
  | _ => HErr WildPointer
  end.

(** [free(p)]: nothing for NULL; a block is released once. *)
Definition free (H : heap) (p : option nat) : hres heap :=
  match p with
  | None => HOk H
  | Some a =>
    match nth_error H a with
    | None => HErr WildPointer
    | Some Freed => HErr DoubleFree
    | Some _ => HOk (upd H a Freed)
    end
  end.

(** [ahtable_create_n] with its two allocations: the record of the table
    first, then the slot array, which [memset] fills with NULL. *)
Definition heap_create_n (H : heap) (n0 : Z) : heap * nat :=
  let T := ahtable_create_n n0 in
  let t := length H in
  let a := S (length H) in
  (H ++ [TableRec {| r_flag := flag T; r_c0 := c0 T; r_c1 := c1 T;
                     r_n := n T; r_m := m T; r_max_m := max_m T;
                     r_slots := a |};
         SlotArray (map (fun _ => None) (slots T))],
   t).

(** [ahtable_dup]: a new table of [T->n] slots; [memcpy] copies the slot
    pointers of [T], not the buffers; [flag], [c0], [c1] and [m] are copied
    from [T], [n] and [max_m] are those that [ahtable_create_n] set. *)
Definition ahtable_dup (H : heap) (t : nat) : hres (heap * nat) :=
  hdT <-- load_table H t ;;
  let '(H, s) := heap_create_n H (r_n hdT) in
  hdS <-- load_table H s ;;
  hdT <-- load_table H t ;;
  dst <-- load_slots H (r_slots hdS) ;;
  src <-- load_slots H (r_slots hdT) ;;
  let k := Z.to_nat (wrap_size (r_n hdT * 8) / 8) in
  if ((k <=? length src) && (k <=? length dst))%nat
  then
    let H := upd H (r_slots hdS) (SlotArray (firstn k src ++ skipn k dst)) in
    hdS <-- load_table H s ;;
    hdT <-- load_table H t ;;
    HOk (upd H s (TableRec {| r_flag := r_flag hdT; r_c0 := r_c0 hdT;
                              r_c1 := r_c1 hdT;
                              r_n := r_n hdS; r_m := r_m hdT;
                              r_max_m := r_max_m hdS;
                              r_slots := r_slots hdS |}),
         s)
  else HErr (Fault OutOfBounds).

(** The loop of [ahtable_free] from index [i] on; [fuel] bounds the number
    of iterations. *)
Fixpoint free_loop (fuel : nat) (H : heap) (t : nat) (i : Z) : hres heap :=
  hd <-- load_table H t ;;
  if i <? r_n hd
  then
    match fuel with
    | O => HErr (Fault OutOfFuel)
    | S fuel' =>
      ps <-- load_slots H (r_slots hd) ;;
      p <-- lift (of_option OutOfBounds (nth_error ps (Z.to_nat i))) ;;
      H <-- free H p ;;
      free_loop fuel' H t (wrap_size (i + 1))
    end
  else HOk H.

Definition ahtable_free (H : heap) (t : nat) : hres heap :=
  hd <-- load_table H t ;;
  H <-- free_loop (Z.to_nat (r_n hd)) H t 0 ;;
  hd <-- load_table H t ;;
  H <-- free H (Some (r_slots hd)) ;;
  free H (Some t).

(** *** Reading a table out of the heap *)

Definition load_slot (H : heap) (p : option nat) : hres slot_t :=
  match p with
  | None => HOk None
  | Some a => buf <-- load_bucket H a ;; HOk (Some buf)
  end.

Fixpoint load_buckets (H : heap) (ps : list (option nat))
  : hres (list slot_t) :=
  match ps with
  | [] => HOk []
  | p :: ps' =>
    sl <-- load_slot H p ;;
    ss <-- load_buckets H ps' ;;
    HOk (sl :: ss)
  end.

(** The slot pointers of the table at address [t]. *)
Definition slot_ptrs (H : heap) (t : nat) : hres (list (option nat)) :=
  hd <-- load_table H t ;;
  load_slots H (r_slots hd).

(** The table at address [t], with the buffers its slots point to. *)
Definition table_at (H : heap) (t : nat) : hres ahtable_t :=
  hd <-- load_table H t ;;
  ps <-- load_slots H (r_slots hd) ;;
  ss <-- load_buckets H ps ;;
  HOk {| flag := r_flag hd; c0 := r_c0 hd; c1 := r_c1 hd;
         n := r_n hd; m := r_m hd; max_m := r_max_m hd;
         slots := ss |}.

(** The addresses of the buffers in a slot array. *)
Definition bucket_addrs (ps : list (option nat)) : list nat :=
  flat_map (fun p => match p with Some a => [a] | None => [] end) ps.

(** The blocks that make up the table at [t]: its record, its slot array
    and its buffers. *)
Definition owned (H : heap) (t : nat) : hres (list nat) :=
  hd <-- load_table H t ;;
  ps <-- load_slots H (r_slots hd) ;;
  HOk (t :: r_slots hd :: bucket_addrs ps).

(** *** Handles in the heap

    A value handle is a pointer into the buffer of a slot: the address of
    the buffer and an offset. *)

Definition heap_tryget (hash : list byte -> Z) (junk : nat -> byte)
  (H : heap) (t : nat) (key : list byte) : hres (option (nat * nat)) :=
  T <-- table_at H t ;;
  r <-- lift (ahtable_tryget hash junk T key) ;;
  match snd r with
  | None => HOk None
  | Some p =>
    ps <-- slot_ptrs H t ;;
    a <-- lift (of_option OutOfBounds (nth_error ps (blk p))) ;;
    a <-- lift (of_option NullPointer a) ;;
    HOk (Some (a, off p))
  end.

Definition heap_read_value (H : heap) (p : nat * nat) : hres Z :=
  buf <-- load_bucket H (fst p) ;;
  w <-- lift (load_bytes buf (snd p) sizeof_value) ;;
  HOk (le_combine w).

Definition heap_write_value (H : heap) (p : nat * nat) (v : Z) : hres heap :=
  buf <-- load_bucket H (fst p) ;;
  buf <-- lift (store_bytes buf (snd p) (le_split sizeof_value v)) ;;
  HOk (upd H (fst p) (Bucket buf)).

(** *** A table laid out in a heap *)

Fixpoint store_buckets (H : heap) (ss : list slot_t)
  : heap * list (option nat) :=
  match ss with
  | [] => (H, [])
  | None :: ss' =>
    let '(H', ps) := store_buckets H ss' in (H', None :: ps)
  | Some buf :: ss' =>
    let '(H', ps) := store_buckets (H ++ [Bucket buf]) ss' in
    (H', Some (length H) :: ps)
  end.

(** The table [T] written to new blocks of [H]: its buffers, then its slot
    array, then its record, whose address is returned. *)
Definition store_table (H : heap) (T : ahtable_t) : heap * nat :=
  let '(H1, ps) := store_buckets H (slots T) in
  (H1 ++ [SlotArray ps;
          TableRec {| r_flag := flag T; r_c0 := c0 T; r_c1 := c1 T;
                      r_n := n T; r_m := m T; r_max_m := max_m T;
                      r_slots := length H1 |}],
   S (length H1)).

(** The sample table in an empty heap, and its address. *)
Definition sample_heap : heap := fst (store_table [] sample_table).
Definition sample_addr : nat := snd (store_table [] sample_table).

(** What [ahtable_dup] makes of the table [T]: every field of [T], with
    [max_m] computed anew from the number of slots. *)
Definition dup_of (T : ahtable_t) : ahtable_t :=
  {| flag := flag T; c0 := c0 T; c1 := c1 T;
     n := n T; m := m T; max_m := max_load (n T);
     slots := slots T |}.

(** The heap after the blocks at the addresses [l] were released. *)
Definition free_list (H : heap) (l : list nat) : heap :=
  fold_left (fun H a => upd H a Freed) l H.

(** * Properties *)

(** ** Buffers *)

Lemma load_at (pre post : list byte) (b : byte) (s : nat) :
  s = length pre -> load (pre ++ b :: post) s = Ok b.
Proof.
  intros ->. unfold load.
  rewrite nth_error_app2 by lia.
  rewrite Nat.sub_diag. reflexivity.
Qed.

Lemma load_bytes_at (pre bs post : list byte) (s len : nat) :
  s = length pre -> len = length bs ->
  load_bytes (pre ++ bs ++ post) s len = Ok bs.
Proof.
  intros -> ->. unfold load_bytes.
  rewrite !length_app.
  destruct (Nat.leb_spec (length pre + length bs)
                         (length pre + (length bs + length post))) as [_ | H];
    [ | lia ].
  rewrite skipn_app, Nat.sub_diag, skipn_all. simpl.
  rewrite firstn_app, Nat.sub_diag, firstn_all. simpl.
  rewrite app_nil_r. reflexivity.
Qed.

Lemma store_bytes_at (pre old bs post : list byte) (s : nat) :
  s = length pre -> length old = length bs ->
  store_bytes (pre ++ old ++ post) s bs = Ok (pre ++ bs ++ post).
Proof.
  intros -> Hlen. unfold store_bytes.
  rewrite !length_app.
  destruct (Nat.leb_spec (length pre + length bs)
                         (length pre + (length old + length post))) as [_ | H];
    [ | lia ].
  rewrite firstn_app, Nat.sub_diag, firstn_all. simpl. rewrite app_nil_r.
  rewrite skipn_app, skipn_all2 by lia. simpl.
  replace (length pre + length bs - length pre)%nat with (length old) by lia.
  rewrite skipn_app, Nat.sub_diag, skipn_all. reflexivity.
Qed.

Lemma memcmp_eq_true (a b : list byte) : memcmp_eq a b = true <-> a = b.
Proof.
  unfold memcmp_eq. destruct (list_eq_dec byte_eq_dec a b); split;
    congruence.
Qed.

Lemma length_upd {A : Type} (l : list A) (i : nat) (x : A) :
  length (upd l i x) = length l.
Proof.
  revert i. induction l as [ | h t IH]; intros [ | j]; simpl; auto.
Qed.

Lemma nth_error_upd_eq {A : Type} (l : list A) (i : nat) (x : A) :
  (i < length l)%nat -> nth_error (upd l i x) i = Some x.
Proof.
  revert i. induction l as [ | h t IH]; intros [ | j] H; simpl in *;
    try lia; auto.
  apply IH. lia.
Qed.

Lemma nth_error_upd_ne {A : Type} (l : list A) (i j : nat) (x : A) :
  i <> j -> nth_error (upd l i x) j = nth_error l j.
Proof.
  revert i j. induction l as [ | h t IH]; intros [ | i] [ | j] H; simpl;
    try congruence; auto.
Qed.

Lemma Forall2_nth {A B : Type} (R : A -> B -> Prop) (l1 : list A)
  (l2 : list B) (i : nat) (a : A) (b : B) :
  Forall2 R l1 l2 -> nth_error l1 i = Some a -> nth_error l2 i = Some b ->
  R a b.
Proof.
  intros H. revert i. induction H as [ | x y l1 l2 Hxy H IH]; intros [ | i];
    simpl; intros H1 H2; try discriminate.
  - inversion H1; inversion H2; subst. exact Hxy.
  - eapply IH; eauto.
Qed.

Lemma Forall2_upd {A B : Type} (R : A -> B -> Prop) (l1 : list A)
  (l2 : list B) (i : nat) (a : A) (b : B) :
  Forall2 R l1 l2 -> R a b -> Forall2 R (upd l1 i a) (upd l2 i b).
Proof.
  intros H Hab. revert i. induction H as [ | x y l1 l2 Hxy H IH]; intros [ | i];
    simpl; constructor; auto.
Qed.

Lemma Forall_upd {A : Type} (P : A -> Prop) (l : list A) (i : nat) (x : A) :
  Forall P l -> P x -> Forall P (upd l i x).
Proof.
  intros H Hx. revert i. induction H as [ | y l Hy H IH]; intros [ | i];
    simpl; constructor; auto.
Qed.

(** A list and its update at [i], cut at [i]. *)
Lemma upd_split {A : Type} (l : list A) (i : nat) (a x : A) :
  nth_error l i = Some a ->
  exists l1 l2,
    l = l1 ++ a :: l2 /\ upd l i x = l1 ++ x :: l2 /\ length l1 = i.
Proof.
  revert i. induction l as [ | h t IH]; intros [ | i] H; simpl in H;
    try discriminate.
  - inversion H; subst. exists [], t. repeat split.
  - destruct (IH i H) as (l1 & l2 & -> & Hu & Hl).
    exists (h :: l1), l2. simpl. rewrite Hu, Hl. repeat split.
Qed.

Lemma in_concat_upd {A : Type} (bs : list (list A)) (i : nat)
  (old new : list A) (x : A) :
  nth_error bs i = Some old ->
  (In x (concat (upd bs i new))
   <-> In x new \/ exists j rs, j <> i /\ nth_error bs j = Some rs /\ In x rs).
Proof.
  intros Hi. split.
  - intros H. apply in_concat in H. destruct H as (rs & Hrs & Hx).
    apply In_nth_error in Hrs. destruct Hrs as (j & Hj).
    destruct (Nat.eq_dec i j) as [<- | Hne].
    + rewrite nth_error_upd_eq in Hj
        by (apply nth_error_Some; congruence).
      inversion Hj; subst. left. exact Hx.
    + rewrite nth_error_upd_ne in Hj by exact Hne.
      right. exists j, rs. repeat split; auto.
  - intros [H | (j & rs & Hne & Hj & Hx)]; apply in_concat.
    + exists new. split; [ | exact H ].
      apply (nth_error_In _ i). apply nth_error_upd_eq.
      apply nth_error_Some. congruence.
    + exists rs. split; [ | exact Hx ].
      apply (nth_error_In _ j). rewrite nth_error_upd_ne by auto. exact Hj.
Qed.

Lemma length_concat_upd {A : Type} (bs : list (list A)) (i : nat)
  (old new : list A) :
  nth_error bs i = Some old ->
  (length (concat (upd bs i new)) + length old
   = length (concat bs) + length new)%nat.
Proof.
  intros Hi. destruct (upd_split bs i old new Hi) as (l1 & l2 & -> & -> & _).
  rewrite !concat_app. simpl. rewrite !length_app. lia.
Qed.

Lemma wrap_size_small (z : Z) : 0 <= z < 2 ^ 64 -> wrap_size z = z.
Proof. intros H. unfold wrap_size. apply Z.mod_small. exact H. Qed.

(** The number of pointers in an array of [k * 8] bytes, while the
    product does not wrap. *)
Lemma wrap_entries (k : Z) :
  0 <= k < 2 ^ 61 -> wrap_size (k * 8) / 8 = k.
Proof.
  intros Hk. rewrite wrap_size_small by lia.
  apply Z.div_mul. lia.
Qed.

Lemma create_n_slots (n0 : Z) :
  0 <= n0 < 2 ^ 61 ->
  slots (ahtable_create_n n0) = repeat None (Z.to_nat n0).
Proof.
  intros Hn. cbn [ahtable_create_n slots]. rewrite wrap_entries by exact Hn.
  reflexivity.
Qed.

(** Tabulated lists *)

Lemma length_tab {A : Type} (N : nat) (f : nat -> A) : length (tab N f) = N.
Proof. unfold tab. rewrite length_map, length_seq. reflexivity. Qed.

Lemma nth_error_tab {A : Type} (N : nat) (f : nat -> A) (j : nat) :
  (j < N)%nat -> nth_error (tab N f) j = Some (f j).
Proof.
  intros H. unfold tab. rewrite nth_error_map, nth_error_seq.
  destruct (Nat.ltb_spec j N); [ reflexivity | lia ].
Qed.

Lemma tab_ext {A : Type} (N : nat) (f g : nat -> A) :
  (forall j, (j < N)%nat -> f j = g j) -> tab N f = tab N g.
Proof.
  intros H. unfold tab. apply map_ext_in. intros j Hj.
  apply in_seq in Hj. apply H. lia.
Qed.

Lemma upd_map_seq {A : Type} (f : nat -> A) (a N j : nat) (x : A) :
  upd (map f (seq a N)) j x
  = map (fun i => if (i =? a + j)%nat then x else f i) (seq a N).
Proof.
  revert a j. induction N as [ | N IH]; intros a j; [ reflexivity | ].
  destruct j as [ | j]; simpl.
  - rewrite Nat.add_0_r, Nat.eqb_refl. f_equal.
    apply map_ext_in. intros i Hi. apply in_seq in Hi.
    destruct (Nat.eqb_spec i a); [ lia | reflexivity ].
  - destruct (Nat.eqb_spec a (a + S j)); [ lia | ]. f_equal.
    rewrite IH. apply map_ext. intros i.
    replace (S a + j)%nat with (a + S j)%nat by lia. reflexivity.
Qed.

Lemma upd_tab {A : Type} (N : nat) (f : nat -> A) (j : nat) (x : A) :
  upd (tab N f) j x = tab N (fun i => if (i =? j)%nat then x else f i).
Proof. unfold tab. rewrite upd_map_seq. reflexivity. Qed.

Lemma repeat_tab {A : Type} (x : A) (N : nat) : repeat x N = tab N (fun _ => x).
Proof.
  unfold tab. generalize 0%nat. induction N as [ | N IH]; intros a;
    simpl; [ | rewrite (IH (S a)) ]; reflexivity.
Qed.

Lemma map_tab {A B : Type} (g : A -> B) (N : nat) (f : nat -> A) :
  map g (tab N f) = tab N (fun j => g (f j)).
Proof. unfold tab. apply map_map. Qed.

(** ** The slot codec *)


Lemma length_prefix_bytes (len : nat) :
  length (prefix_bytes len) = prefix_size len.
Proof.
  unfold prefix_bytes, prefix_size. destruct (len <? 128)%nat; reflexivity.
Qed.

Lemma length_enc_rec (r : list byte * Z) :
  length (enc_rec r)
  = (prefix_size (length (fst r)) + length (fst r) + sizeof_value)%nat.
Proof.
  unfold enc_rec. rewrite !length_app, length_prefix_bytes, length_le_split.
  lia.
Qed.

(** [ins_key] overwrites exactly the bytes of one record. *)
Lemma ins_key_at (pre old post key : list byte) (s : nat) :
  s = length pre ->
  length old = length (enc_rec (key, 0)) ->
  ins_key (pre ++ old ++ post) s key
  = Ok (pre ++ enc_rec (key, 0) ++ post,
        (s + prefix_size (length key) + length key)%nat,
        (s + prefix_size (length key) + length key + sizeof_value)%nat).
Proof.
  intros -> Hold. rewrite length_enc_rec in Hold. simpl fst in Hold.
  set (p := prefix_size (length key)) in *.
  assert (Hsplit : old = firstn p old
                         ++ firstn (length key) (skipn p old)
                         ++ skipn (length key) (skipn p old)).
  { rewrite firstn_skipn. rewrite firstn_skipn. reflexivity. }
  assert (L1 : length (firstn p old) = p) by (rewrite length_firstn; lia).
  assert (L2 : length (firstn (length key) (skipn p old)) = length key)
    by (rewrite length_firstn, length_skipn; lia).
  assert (L3 : length (skipn (length key) (skipn p old)) = sizeof_value)
    by (rewrite !length_skipn; lia).
  rewrite Hsplit. clear Hsplit.
  set (o1 := firstn p old) in *. set (o2 := firstn _ (skipn p old)) in *.
  set (o3 := skipn _ (skipn p old)) in *.
  assert (Hpre : forall pb, length pb = p ->
     (buf <- store_bytes (pre ++ (o1 ++ o2 ++ o3) ++ post) (length pre) pb ;;
      Ok (buf, (length pre + p)%nat))
     = Ok (pre ++ pb ++ o2 ++ o3 ++ post, (length pre + p)%nat)).
  { intros pb Hpb. rewrite <- !app_assoc.
    rewrite (store_bytes_at pre o1 pb) by congruence. reflexivity. }
  unfold ins_key, enc_rec, prefix_bytes, store_u16. simpl fst. simpl snd.
  subst p. unfold prefix_size in *.
  destruct (length key <? 128)%nat.
  - rewrite Hpre by reflexivity. cbn [bind].
    change (pre ++ ?a ++ o2 ++ ?r) with (pre ++ a ++ o2 ++ r).
    replace (pre ++ [byte.of_Z (Z.of_nat (length key))] ++ o2 ++ o3 ++ post)
      with ((pre ++ [byte.of_Z (Z.of_nat (length key))]) ++ o2 ++ o3 ++ post)
      by (rewrite <- app_assoc; reflexivity).
    rewrite (store_bytes_at _ o2 key)
      by (rewrite ?length_app; simpl; lia).
    cbn [bind].
    replace ((pre ++ [byte.of_Z (Z.of_nat (length key))]) ++ key ++ o3 ++ post)
      with (((pre ++ [byte.of_Z (Z.of_nat (length key))]) ++ key) ++ o3 ++ post)
      by (rewrite <- !app_assoc; reflexivity).
    rewrite (store_bytes_at _ o3 (le_split sizeof_value 0))
      by (rewrite ?length_app, ?length_le_split; simpl; lia).
    cbn [bind]. rewrite <- !app_assoc. reflexivity.
  - rewrite Hpre by apply length_le_split. cbn [bind].
    set (pb := le_split 2 _).
    assert (Hpb : length pb = 2%nat) by apply length_le_split.
    replace (pre ++ pb ++ o2 ++ o3 ++ post)
      with ((pre ++ pb) ++ o2 ++ o3 ++ post)
      by (rewrite <- app_assoc; reflexivity).
    rewrite (store_bytes_at _ o2 key) by (rewrite ?length_app; lia).
    cbn [bind].
    replace ((pre ++ pb) ++ key ++ o3 ++ post)
      with (((pre ++ pb) ++ key) ++ o3 ++ post)
      by (rewrite <- !app_assoc; reflexivity).
    rewrite (store_bytes_at _ o3 (le_split sizeof_value 0))
      by (rewrite ?length_app, ?length_le_split; lia).
    cbn [bind]. rewrite <- !app_assoc. reflexivity.
Qed.


Lemma land_0x80 (b : byte) :
  (Z.land 0x80 (byte.unsigned b) =? 0) = (byte.unsigned b <? 128).
Proof. destruct b; reflexivity. Qed.

Lemma lor_0x8000 (x : Z) : 0 <= x < 32768 -> Z.lor x 0x8000 = x + 32768.
Proof.
  intros H.
  rewrite <- Z.lxor_lor, <- Z.add_nocarry_lxor; try reflexivity.
  all: change 0x8000 with (2 ^ 15); apply Z.bits_inj'; intros i Hi;
    rewrite Z.land_spec, Z.pow2_bits_eqb, Z.bits_0 by lia;
    destruct (Z.eqb_spec 15 i) as [<- | ]; rewrite ?andb_false_r; auto;
    rewrite andb_true_r; apply Z.bits_above_log2; try lia.
  all: destruct (Z.eq_dec x 0) as [-> | ];
    [ simpl; lia | apply Z.log2_lt_pow2; lia ].
Qed.

Lemma land_keylen_mask (x : Z) :
  0 <= x < 32768 -> Z.land LONG_KEYLEN_MASK (x + 32768) = x.
Proof.
  intros H. rewrite Z.land_comm. change LONG_KEYLEN_MASK with (Z.ones 15).
  rewrite Z.land_ones by lia.
  replace (x + 32768) with (x + 1 * 2 ^ 15) by lia.
  rewrite Z_mod_plus_full. apply Z.mod_small. lia.
Qed.

Lemma prefix_bytes_long (len : nat) :
  (128 <= len)%nat -> Z.of_nat len <= 32767 ->
  prefix_bytes len
  = [byte.of_Z (Z.of_nat len + 32768);
     byte.of_Z (Z.shiftr (Z.of_nat len + 32768) 8)].
Proof.
  intros H Hmax. unfold prefix_bytes.
  destruct (Nat.ltb_spec len 128) as [ | _]; [ lia | ].
  unfold wrap_u16. rewrite Z.mod_small by lia.
  rewrite lor_0x8000 by lia. reflexivity.
Qed.

(** The first byte of the prefix of a decodable length is never the
    terminator. *)
Lemma prefix_bytes_head (len : nat) :
  decodable len ->
  exists b rest, prefix_bytes len = b :: rest /\ byte.unsigned b <> 0.
Proof.
  intros [H | (H & Hmax & Hlow)].
  - unfold prefix_bytes. destruct (Nat.ltb_spec len 128) as [_ | ]; [ | lia ].
    eexists _, _. split; [ reflexivity | ].
    rewrite byte.unsigned_of_Z. unfold byte.wrap.
    rewrite Z.mod_small by lia. lia.
  - rewrite prefix_bytes_long by lia.
    eexists _, _. split; [ reflexivity | ].
    rewrite byte.unsigned_of_Z. unfold byte.wrap.
    replace (Z.of_nat len + 32768) with (Z.of_nat len + 128 * 2 ^ 8) by lia.
    rewrite Z_mod_plus_full.
    change (2 ^ 8) with (Z.of_nat 256). rewrite <- Nat2Z.inj_mod. lia.
Qed.

(** Decoding the prefix that [ins_key] wrote gives back the length, for
    the decodable lengths. *)
Lemma read_keylen_prefix (pre post : list byte) (len s : nat) :
  s = length pre -> decodable len ->
  read_keylen (pre ++ prefix_bytes len ++ post) s
  = Ok (len, (s + prefix_size len)%nat).
Proof.
  intros -> [H | (H & Hmax & Hlow)]; unfold read_keylen.
  - unfold prefix_bytes, prefix_size.
    destruct (Nat.ltb_spec len 128) as [_ | ]; [ | lia ].
    simpl app. rewrite load_at by reflexivity. cbn [bind].
    rewrite land_0x80, byte.unsigned_of_Z. unfold byte.wrap.
    rewrite Z.mod_small by lia.
    destruct (Z.ltb_spec (Z.of_nat len) 128) as [_ | ]; [ | lia ].
    simpl. rewrite Nat2Z.id. reflexivity.
  - unfold load_u16.
    rewrite (load_bytes_at pre (prefix_bytes len) post)
      by (rewrite ?length_prefix_bytes; unfold prefix_size;
          destruct (Nat.ltb_spec len 128); auto; lia).
    unfold prefix_size. destruct (Nat.ltb_spec len 128) as [ | _]; [ lia | ].
    rewrite prefix_bytes_long by lia.
    simpl app. rewrite load_at by reflexivity. cbn [bind].
    rewrite land_0x80, byte.unsigned_of_Z. unfold byte.wrap.
    replace (Z.of_nat len + 32768) with (Z.of_nat len + 128 * 2 ^ 8) at 1
      by lia.
    rewrite Z_mod_plus_full.
    change (2 ^ 8) with (Z.of_nat 256). rewrite <- Nat2Z.inj_mod.
    destruct (Z.ltb_spec (Z.of_nat (len mod 256)) 128) as [ | _]; [ lia | ].
    simpl negb. cbv iota.
    change [byte.of_Z (Z.of_nat len + 32768);
            byte.of_Z (Z.shiftr (Z.of_nat len + 32768) 8)]
      with (le_split 2 (Z.of_nat len + 32768)).
    rewrite le_combine_split.
    rewrite Z.mod_small by (change (2 ^ (Z.of_nat 2 * 8)) with 65536; lia).
    rewrite land_keylen_mask by lia.
    rewrite Nat2Z.id. reflexivity.
Qed.

(** At the other lengths of the two-byte form the decoder takes the
    one-byte branch and returns the low byte of the length. *)
Lemma read_keylen_prefix_low (pre post : list byte) (len s : nat) :
  s = length pre ->
  (128 <= len)%nat -> Z.of_nat len <= 32767 -> (len mod 256 < 128)%nat ->
  read_keylen (pre ++ prefix_bytes len ++ post) s
  = Ok ((len mod 256)%nat, (s + 1)%nat).
Proof.
  intros -> H Hmax Hlow. unfold read_keylen.
  rewrite prefix_bytes_long by lia.
  simpl app. rewrite load_at by reflexivity. cbn [bind].
  rewrite land_0x80, byte.unsigned_of_Z. unfold byte.wrap.
  replace (Z.of_nat len + 32768) with (Z.of_nat len + 128 * 2 ^ 8) by lia.
  rewrite Z_mod_plus_full.
  change (2 ^ 8) with (Z.of_nat 256). rewrite <- Nat2Z.inj_mod.
  destruct (Z.ltb_spec (Z.of_nat (len mod 256)) 128) as [_ | ]; [ | lia ].
  simpl. rewrite Nat2Z.id. reflexivity.
Qed.

(** ** Slot index *)

Section Index.

Variable hash : list byte -> Z.
Variable junk : nat -> byte.

Lemma slot_index_bound (n0 : Z) (key : list byte) :
  0 < n0 -> 0 <= slot_index hash n0 key < n0.
Proof.
  intros H. unfold slot_index, wrap_u32.
  pose proof (Z.mod_pos_bound (hash key) (2 ^ 32) ltac:(lia)) as Hh.
  pose proof (Z.mod_pos_bound (hash key mod 2 ^ 32) n0 H) as Hi.
  assert (hash key mod 2 ^ 32 mod n0 <= hash key mod 2 ^ 32)
    by (apply Z.mod_le; lia).
  rewrite (Z.mod_small (_ mod n0)) by lia. lia.
Qed.

(** Where no expansion is due, [get_key] is the search of one slot. *)
Lemma get_key_no_expand (T : ahtable_t) (key : list byte) (ins : bool) :
  ins && (max_m T <=? m T) = false -> n T <> 0 ->
  get_key hash junk T key ins
  = get_key_slot junk T (slot_index hash (n T) key) key ins.
Proof.
  intros Hc Hn. unfold get_key, hash_mod. rewrite Hc. cbn [bind].
  destruct (Z.eqb_spec (n T) 0) as [ | _]; [ contradiction | ].
  reflexivity.
Qed.

End Index.

(** ** The created table *)

Lemma nth_error_repeat_None (k i : nat) :
  (i < k)%nat -> nth_error (repeat (@None (list byte)) k) i = Some None.
Proof. intros H. apply nth_error_repeat. exact H. Qed.

(** C10, amended.  A table made by [ahtable_create_n] with [n0 >= 1]
    buckets, where [5 * n0 < 2 ^ 53] (so that neither the size of the slot
    array wraps nor the product with the load factor is rounded; the table
    made by [ahtable_create], where [n0 = 8], is one of them), holds no
    pair, all its [n0] slots are NULL, its threshold is [5 * n0], its three
    metadata bytes are zero, and [ahtable_tryget] finds no key in it. *)
Theorem create_n_empty (hash : list byte -> Z) (junk : nat -> byte)
  (n0 : Z) (key : list byte) :
  1 <= n0 -> 5 * n0 < 2 ^ 53 ->
  let T := ahtable_create_n n0 in
  ahtable_size T = 0 /\ n T = n0 /\
  slots T = repeat None (Z.to_nat n0) /\
  Z.of_nat (length (slots T)) = n0 /\
  max_m T = 5 * n0 /\
  flag T = x00 /\ c0 T = x00 /\ c1 T = x00 /\
  ahtable_tryget hash junk T key = Ok (T, None) /\
  ahtable_create = ahtable_create_n 8.
Proof.
  intros Hn Hmax T. subst T.
  assert (Hs : slots (ahtable_create_n n0) = repeat None (Z.to_nat n0))
    by (apply create_n_slots; lia).
  split; [ reflexivity | ]. split; [ reflexivity | ].
  split; [ exact Hs | ].
  split; [ rewrite Hs, repeat_length; lia | ].
  do 4 (split; [ reflexivity | ]).
  split; [ | reflexivity ].
  unfold ahtable_tryget. rewrite get_key_no_expand by (simpl; lia).
  pose proof (slot_index_bound hash n0 key ltac:(lia)) as Hi.
  unfold get_key_slot, slot_at. rewrite Hs. cbn [n ahtable_create_n].
  rewrite nth_error_repeat_None by lia.
  reflexivity.
Qed.

Lemma create_n_empty_witness :
  let T := ahtable_create_n 8 in
  ahtable_size T = 0 /\ n T = 8 /\
  slots T = repeat None (Z.to_nat 8) /\
  Z.of_nat (length (slots T)) = 8 /\
  max_m T = 5 * 8 /\
  flag T = x00 /\ c0 T = x00 /\ c1 T = x00 /\
  ahtable_tryget hash0 junk0 T key256 = Ok (T, None) /\
  ahtable_create = ahtable_create_n 8.
Proof. apply (create_n_empty hash0 junk0 8 key256); lia. Defined.

(** C10, as stated for every [n >= 1], fails.  For [n = 2 ^ 61 + 1] the
    product [n * sizeof(slot_t)] wraps to 8 bytes: the table has [n] set
    to [2 ^ 61 + 1] and a slot array of one pointer, not of [n], and a
    lookup of the empty key, whose hash selects slot 7, reads outside the
    array instead of returning NULL. *)
Lemma create_n_size_wraps :
  n (ahtable_create_n (2 ^ 61 + 1)) = 2 ^ 61 + 1 /\
  slots (ahtable_create_n (2 ^ 61 + 1)) = [None] /\
  slot_index hash0 (2 ^ 61 + 1) [] = 7 /\
  ahtable_tryget hash0 junk0 (ahtable_create_n (2 ^ 61 + 1)) []
  = Err OutOfBounds.
Proof. repeat split; vm_compute; reflexivity. Qed.

(** ** Search of one slot *)

Section Search.

Variable hash : list byte -> Z.
Variable junk : nat -> byte.

(** A lookup without insertion hands the table back as it was, whatever
    the table holds. *)
Lemma tryget_frame (T T' : ahtable_t) (key : list byte) (h : option ptr) :
  ahtable_tryget hash junk T key = Ok (T', h) -> T' = T.
Proof.
  unfold ahtable_tryget, get_key, get_key_slot. cbn [andb bind].
  destruct (hash_mod hash key (n T)) as [i | ]; cbn [bind]; [ | discriminate ].
  destruct (slot_at (slots T) (wrap_u32 i)) as [[buf | ] | ]; cbn [bind];
    try discriminate.
  - destruct (scan _ buf 0 key) as [[val | s] | ]; cbn [bind];
      intros H; inversion H; reflexivity.
  - intros H. inversion H. reflexivity.
Qed.

(** A search that ends does so with any larger bound on its turns. *)
Lemma scan_fuel_mono (fuel : nat) (buf : list byte) (s : nat)
  (key : list byte) (r : scan_result) :
  scan fuel buf s key = Ok r -> scan (S fuel) buf s key = Ok r.
Proof.
  revert s. induction fuel as [ | fuel IH]; intros s; [ discriminate | ].
  intros H. cbn [scan] in H. change (scan (S (S fuel)) buf s key) with
    (b <- load buf s ;;
     if byte.unsigned b =? 0 then Ok (Miss s) else
     ' (k, s0) <- read_keylen buf s ;;
     if negb (k =? length key)%nat
     then scan (S fuel) buf (s0 + (k + sizeof_value)) key
     else cand <- load_bytes buf s0 (length key) ;;
          if memcmp_eq cand key
          then Ok (Hit (s0 + length key))
          else scan (S fuel) buf (s0 + (k + sizeof_value)) key).
  destruct (load buf s) as [b | ]; cbn [bind] in *; [ | discriminate ].
  destruct (byte.unsigned b =? 0); [ exact H | ].
  destruct (read_keylen buf s) as [[k s0] | ]; cbn [bind] in *;
    [ | discriminate ].
  destruct (negb (k =? length key)%nat); [ apply IH; exact H | ].
  destruct (load_bytes buf s0 (length key)) as [cand | ]; cbn [bind] in *;
    [ | discriminate ].
  destruct (memcmp_eq cand key); [ exact H | apply IH; exact H ].
Qed.

Lemma read_keylen_advance (buf : list byte) (s k s' : nat) :
  read_keylen buf s = Ok (k, s') -> (s < s')%nat.
Proof.
  unfold read_keylen.
  destruct (load buf s) as [b | ]; cbn [bind]; [ | discriminate ].
  destruct (negb (Z.land 128 (byte.unsigned b) =? 0)).
  - destruct (load_u16 buf s) as [w | ]; cbn [bind]; [ | discriminate ].
    intros H. inversion H. lia.
  - intros H. inversion H. lia.
Qed.

(** The bound on the turns of the search is never what ends it: every
    turn passes at least one byte, and a read behind the buffer is a fault
    of its own. *)
Lemma scan_fuel_enough (fuel : nat) (buf : list byte) (s : nat)
  (key : list byte) :
  (length buf <= s + fuel)%nat ->
  scan (S fuel) buf s key <> Err OutOfFuel.
Proof.
  revert s. induction fuel as [ | fuel IH]; intros s Hlen.
  - cbn [scan]. unfold load.
    rewrite (proj2 (nth_error_None buf s)) by lia.
    cbn [of_option bind]. discriminate.
  - change (scan (S (S fuel)) buf s key) with
      (b <- load buf s ;;
       if byte.unsigned b =? 0 then Ok (Miss s) else
       ' (k, s0) <- read_keylen buf s ;;
       if negb (k =? length key)%nat
       then scan (S fuel) buf (s0 + (k + sizeof_value)) key
       else cand <- load_bytes buf s0 (length key) ;;
            if memcmp_eq cand key
            then Ok (Hit (s0 + length key))
            else scan (S fuel) buf (s0 + (k + sizeof_value)) key).
    destruct (load buf s) as [b | f] eqn:Hb; cbn [bind]; [ | ].
    + destruct (byte.unsigned b =? 0); [ discriminate | ].
      destruct (read_keylen buf s) as [[k s0] | f] eqn:Hk; cbn [bind].
      * apply read_keylen_advance in Hk.
        destruct (negb (k =? length key)%nat); [ apply IH; lia | ].
        destruct (load_bytes buf s0 (length key)) as [cand | f] eqn:Hc;
          cbn [bind].
        { destruct (memcmp_eq cand key); [ discriminate | apply IH; lia ]. }
        { unfold load_bytes in Hc.
          destruct (s0 + length key <=? length buf)%nat; inversion Hc.
          discriminate. }
      * unfold read_keylen in Hk. rewrite Hb in Hk. cbn [bind] in Hk.
        destruct (negb (Z.land 128 (byte.unsigned b) =? 0)); [ | discriminate ].
        unfold load_u16, load_bytes in Hk.
        destruct (s + 2 <=? length buf)%nat; cbn [bind] in Hk;
          inversion Hk. discriminate.
    + unfold load in Hb. destruct (nth_error buf s); inversion Hb.
      discriminate.
Qed.

Lemma length_enc_recs_app (rs1 rs2 : list (list byte * Z)) :
  enc_recs (rs1 ++ rs2) = enc_recs rs1 ++ enc_recs rs2.
Proof. unfold enc_recs. apply flat_map_app. Qed.

Lemma enc_rec_nonempty (r : list byte * Z) : (1 <= length (enc_rec r))%nat.
Proof. rewrite length_enc_rec. unfold sizeof_value. lia. Qed.

Lemma length_enc_recs_ge (rs : list (list byte * Z)) :
  (length rs <= length (enc_recs rs))%nat.
Proof.
  induction rs as [ | r rs IH]; simpl; [ lia | ].
  rewrite length_app. pose proof (enc_rec_nonempty r). lia.
Qed.

(** One turn of the search loop over the record [r]. *)
Lemma scan_step (fuel : nat) (pre rest : list byte) (r : list byte * Z)
  (key : list byte) :
  decodable (length (fst r)) ->
  scan (S fuel) (pre ++ enc_rec r ++ rest) (length pre) key
  = if memcmp_eq (fst r) key
    then Ok (Hit (length pre + prefix_size (length key) + length key))
    else scan fuel (pre ++ enc_rec r ++ rest)
              (length pre + length (enc_rec r)) key.
Proof.
  intros Hd. destruct r as [k v]. cbn [fst] in *.
  set (buf := pre ++ enc_rec (k, v) ++ rest).
  assert (Hload : exists b, load buf (length pre) = Ok b /\ byte.unsigned b <> 0).
  { destruct (prefix_bytes_head _ Hd) as (b & tl & Hp & Hb).
    exists b. split; [ | exact Hb ].
    subst buf. unfold enc_rec. cbn [fst snd]. rewrite Hp.
    rewrite <- !app_assoc. simpl. apply load_at. reflexivity. }
  assert (Hlen : read_keylen buf (length pre)
                 = Ok (length k, (length pre + prefix_size (length k))%nat)).
  { subst buf. unfold enc_rec. cbn [fst snd]. rewrite <- !app_assoc.
    apply read_keylen_prefix; auto. }
  assert (Hkey : load_bytes buf (length pre + prefix_size (length k)) (length k)
                 = Ok k).
  { subst buf. unfold enc_rec. cbn [fst snd].
    rewrite <- !app_assoc. rewrite (app_assoc pre).
    apply load_bytes_at; [ | reflexivity ].
    rewrite length_app, length_prefix_bytes. reflexivity. }
  destruct Hload as (b & Hload & Hb).
  cbn [scan]. rewrite Hload. cbn [bind].
  destruct (Z.eqb_spec (byte.unsigned b) 0) as [ | _]; [ contradiction | ].
  rewrite Hlen. cbn [bind].
  replace (length pre + prefix_size (length k) + (length k + sizeof_value))%nat
    with (length pre + length (enc_rec (k, v)))%nat
    by (rewrite length_enc_rec; cbn [fst]; lia).
  destruct (Nat.eqb_spec (length k) (length key)) as [Heq | Hne]; cbn [negb].
  - rewrite <- Heq, Hkey. cbn [bind].
    destruct (memcmp_eq k key); reflexivity.
  - destruct (memcmp_eq k key) eqn:Hc; [ | reflexivity ].
    apply memcmp_eq_true in Hc. subst. contradiction.
Qed.

(** The search passes every record whose key differs and ends at the
    terminator. *)
Lemma scan_miss (rs : list (list byte * Z)) (pre : list byte)
  (key : list byte) (fuel : nat) :
  Forall good_rec rs -> ~ In key (map fst rs) -> (length rs < fuel)%nat ->
  scan fuel (pre ++ enc_recs rs ++ [x00]) (length pre) key
  = Ok (Miss (length pre + length (enc_recs rs))).
Proof.
  revert pre fuel. induction rs as [ | r rs IH]; intros pre fuel Hg Hin Hf.
  - destruct fuel as [ | fuel]; [ simpl in Hf; lia | ].
    simpl enc_recs. simpl app. cbn [scan].
    rewrite load_at by reflexivity. cbn [bind].
    simpl. rewrite Nat.add_0_r. reflexivity.
  - destruct fuel as [ | fuel]; [ simpl in Hf; lia | ].
    inversion Hg as [ | ? ? [Hd _] Hg']; subst.
    simpl enc_recs. rewrite <- app_assoc.
    rewrite scan_step by exact Hd.
    destruct (memcmp_eq (fst r) key) eqn:Hc.
    { apply memcmp_eq_true in Hc. exfalso. apply Hin. left. exact Hc. }
    rewrite app_assoc. rewrite <- (length_app pre).
    rewrite IH; auto.
    + rewrite !length_app. f_equal. f_equal. lia.
    + intros H. apply Hin. right. exact H.
    + simpl in Hf. lia.
Qed.

(** The search stops at the first record with the key and returns the
    offset of its value. *)
Lemma scan_hit (r1 r2 : list (list byte * Z)) (v : Z) (pre : list byte)
  (key : list byte) (fuel : nat) :
  Forall good_rec (r1 ++ (key, v) :: r2) -> ~ In key (map fst r1) ->
  (length r1 < fuel)%nat ->
  scan fuel (pre ++ enc_recs (r1 ++ (key, v) :: r2) ++ [x00]) (length pre) key
  = Ok (Hit (length pre + length (enc_recs r1)
             + prefix_size (length key) + length key)).
Proof.
  revert pre fuel. induction r1 as [ | r r1 IH]; intros pre fuel Hg Hin Hf.
  - destruct fuel as [ | fuel]; [ simpl in Hf; lia | ].
    inversion Hg as [ | ? ? [Hd _] Hg']; subst.
    simpl app. simpl enc_recs. rewrite <- app_assoc.
    rewrite scan_step by exact Hd. cbn [fst].
    destruct (memcmp_eq key key) eqn:Hc.
    + simpl. rewrite Nat.add_0_r. reflexivity.
    + assert (memcmp_eq key key = true) by (apply memcmp_eq_true; reflexivity).
      congruence.
  - destruct fuel as [ | fuel]; [ simpl in Hf; lia | ].
    simpl app in Hg. inversion Hg as [ | ? ? [Hd _] Hg']; subst.
    simpl app. simpl enc_recs. rewrite <- app_assoc.
    rewrite scan_step by exact Hd.
    destruct (memcmp_eq (fst r) key) eqn:Hc.
    { apply memcmp_eq_true in Hc. exfalso. apply Hin. left. exact Hc. }
    rewrite app_assoc. rewrite <- (length_app pre).
    rewrite IH; auto.
    + rewrite !length_app. f_equal. f_equal. lia.
    + intros H. apply Hin. right. exact H.
    + simpl in Hf. lia.
Qed.

Lemma enc_recs_value (r1 r2 : list (list byte * Z)) (key : list byte) (v : Z) :
  enc_recs (r1 ++ (key, v) :: r2) ++ [x00]
  = (enc_recs r1 ++ prefix_bytes (length key) ++ key)
    ++ le_split sizeof_value v ++ (enc_recs r2 ++ [x00]).
Proof.
  rewrite length_enc_recs_app. simpl enc_recs. unfold enc_rec. cbn [fst snd].
  rewrite <- !app_assoc. reflexivity.
Qed.

Lemma length_value_prefix (r1 : list (list byte * Z)) (key : list byte) :
  length (enc_recs r1 ++ prefix_bytes (length key) ++ key) = value_off r1 key.
Proof.
  unfold value_off. rewrite !length_app, length_prefix_bytes. lia.
Qed.

Lemma le_combine_value (v : Z) :
  0 <= v < 2 ^ 64 -> le_combine (le_split sizeof_value v) = v.
Proof.
  intros H. rewrite le_combine_split. apply Z.mod_small. exact H.
Qed.

(** What well-formedness says about the slot a key hashes to. *)
Lemma wf_slot (T : ahtable_t) (bs : list (list (list byte * Z))) (i : Z) :
  wf_table hash T bs -> 0 <= i < n T ->
  exists sl rs,
    nth_error (slots T) (Z.to_nat i) = Some sl /\
    nth_error bs (Z.to_nat i) = Some rs /\
    slot_repr sl rs /\ Forall good_rec rs /\ NoDup (map fst rs).
Proof.
  intros W Hi.
  assert (Hlt : (Z.to_nat i < length bs)%nat) by (rewrite (wf_n _ _ _ W) in Hi; lia).
  destruct (nth_error bs (Z.to_nat i)) as [rs | ] eqn:Hrs;
    [ | apply nth_error_None in Hrs; lia ].
  pose proof (Forall2_length (wf_slots _ _ _ W)) as Hlen.
  destruct (nth_error (slots T) (Z.to_nat i)) as [sl | ] eqn:Hsl;
    [ | apply nth_error_None in Hsl; lia ].
  exists sl, rs. repeat split; auto.
  - exact (Forall2_nth _ _ _ _ _ _ (wf_slots _ _ _ W) Hsl Hrs).
  - pose proof (wf_good _ _ _ W) as Hg. rewrite Forall_forall in Hg.
    apply Hg. eapply nth_error_In; eauto.
  - pose proof (wf_nodup _ _ _ W) as Hd. rewrite Forall_forall in Hd.
    apply (Hd rs). eapply nth_error_In; eauto.
Qed.

Lemma nodup_before (r1 r2 : list (list byte * Z)) (key : list byte) (v : Z) :
  NoDup (map fst (r1 ++ (key, v) :: r2)) -> ~ In key (map fst r1).
Proof.
  rewrite map_app. simpl. intros H Hin.
  apply NoDup_remove_2 in H. apply H. apply in_or_app. left. exact Hin.
Qed.

(** A key that the slot holds is found, whether or not insertion was
    asked for, and the table stays as it is. *)
Lemma get_key_slot_hit (T : ahtable_t) (bs : list (list (list byte * Z)))
  (i : Z) (r1 r2 : list (list byte * Z)) (key : list byte) (v : Z)
  (ins : bool) :
  wf_table hash T bs -> 0 <= i < n T ->
  nth_error bs (Z.to_nat i) = Some (r1 ++ (key, v) :: r2) ->
  get_key_slot junk T i key ins
  = Ok (T, Some (mkptr (Z.to_nat i) (value_off r1 key))).
Proof.
  intros W Hi Hrs.
  destruct (wf_slot T bs i W Hi) as (sl & rs & Hsl & Hrs' & Hrepr & Hg & Hnd).
  rewrite Hrs in Hrs'. inversion Hrs'; subst rs. clear Hrs'.
  destruct Hrepr as [[_ Hnil] | ->];
    [ exfalso; eapply app_cons_not_nil; symmetry; exact Hnil | ].
  unfold get_key_slot, slot_at. rewrite Hsl. cbn [of_option bind].
  pose proof (scan_hit r1 r2 v [] key
                (S (length (enc_recs (r1 ++ (key, v) :: r2) ++ [x00])))
                Hg (nodup_before _ _ _ _ Hnd)) as Hscan.
  simpl app in Hscan. simpl length in Hscan.
  rewrite Hscan.
  - reflexivity.
  - rewrite length_app, length_enc_recs_app, length_app.
    pose proof (length_enc_recs_ge r1). lia.
Qed.

(** A key that the slot does not hold is reported absent by a lookup
    without insertion. *)
Lemma get_key_slot_miss (T : ahtable_t) (bs : list (list (list byte * Z)))
  (i : Z) (rs : list (list byte * Z)) (key : list byte) :
  wf_table hash T bs -> 0 <= i < n T ->
  nth_error bs (Z.to_nat i) = Some rs -> ~ In key (map fst rs) ->
  get_key_slot junk T i key false = Ok (T, None).
Proof.
  intros W Hi Hrs Hnot.
  destruct (wf_slot T bs i W Hi) as (sl & rs' & Hsl & Hrs' & Hrepr & Hg & Hnd).
  rewrite Hrs in Hrs'. inversion Hrs'; subst rs'. clear Hrs'.
  unfold get_key_slot, slot_at. rewrite Hsl. cbn [of_option bind].
  destruct Hrepr as [[-> _] | ->]; [ reflexivity | ].
  pose proof (scan_miss rs [] key (S (length (enc_recs rs ++ [x00])))
                Hg Hnot) as Hscan.
  change (length (@nil byte)) with O in Hscan.
  change ([] ++ enc_recs rs ++ [x00]) with (enc_recs rs ++ [x00]) in Hscan.
  rewrite Hscan.
  - reflexivity.
  - rewrite length_app. pose proof (length_enc_recs_ge rs). lia.
Qed.

(** The handle of a record reads the value of the record. *)
Lemma read_value_at (T : ahtable_t) (bs : list (list (list byte * Z)))
  (i : Z) (r1 r2 : list (list byte * Z)) (key : list byte) (v : Z) :
  wf_table hash T bs -> 0 <= i < n T ->
  nth_error bs (Z.to_nat i) = Some (r1 ++ (key, v) :: r2) ->
  read_value T (mkptr (Z.to_nat i) (value_off r1 key)) = Ok v.
Proof.
  intros W Hi Hrs.
  destruct (wf_slot T bs i W Hi) as (sl & rs & Hsl & Hrs' & Hrepr & Hg & Hnd).
  rewrite Hrs in Hrs'. inversion Hrs'; subst rs. clear Hrs'.
  destruct Hrepr as [[_ Hnil] | ->];
    [ exfalso; eapply app_cons_not_nil; symmetry; exact Hnil | ].
  unfold read_value, deref. cbn [blk off]. rewrite Hsl. cbn [of_option bind].
  rewrite enc_recs_value.
  rewrite load_bytes_at
    by (rewrite ?length_value_prefix, ?length_le_split; reflexivity).
  cbn [bind]. rewrite le_combine_value; [ reflexivity | ].
  rewrite Forall_forall in Hg.
  apply (Hg (key, v)). apply in_or_app. right. left. reflexivity.
Qed.

(** A record of the table lies in the slot its key hashes to. *)
Lemma wf_in_home (T : ahtable_t) (bs : list (list (list byte * Z)))
  (key : list byte) (v : Z) :
  wf_table hash T bs -> In (key, v) (concat bs) ->
  exists rs,
    nth_error bs (Z.to_nat (slot_index hash (n T) key)) = Some rs /\
    In (key, v) rs.
Proof.
  intros W Hin. apply in_concat in Hin. destruct Hin as (rs & Hrs & Hin).
  apply In_nth_error in Hrs. destruct Hrs as (j & Hj).
  exists rs. split; [ | exact Hin ].
  pose proof (wf_home _ _ _ W j rs (key, v) Hj Hin) as Hh. cbn [fst] in Hh.
  rewrite Hh, Nat2Z.id. exact Hj.
Qed.

Lemma not_in_slot (bs : list (list (list byte * Z))) (j : nat)
  (rs : list (list byte * Z)) (key : list byte) :
  nth_error bs j = Some rs -> ~ In key (map fst (concat bs)) ->
  ~ In key (map fst rs).
Proof.
  intros Hj Hnot Hin. apply Hnot.
  apply in_map_iff in Hin. destruct Hin as (r & Hr & Hin).
  apply in_map_iff. exists r. split; [ exact Hr | ].
  apply in_concat. exists rs. split; [ | exact Hin ].
  eapply nth_error_In; eauto.
Qed.

(** [ahtable_tryget] on a well-formed table: the table is returned as it
    was, a stored key yields a handle that reads its value, and a key that
    is not stored yields NULL. *)
Lemma tryget_present (T : ahtable_t) (bs : list (list (list byte * Z)))
  (key : list byte) (v : Z) :
  wf_table hash T bs -> In (key, v) (concat bs) ->
  exists p,
    ahtable_tryget hash junk T key = Ok (T, Some p) /\
    read_value T p = Ok v.
Proof.
  intros W Hin.
  destruct (wf_in_home T bs key v W Hin) as (rs & Hrs & Hin').
  apply in_split in Hin'. destruct Hin' as (r1 & r2 & ->).
  pose proof (slot_index_bound hash (n T) key (wf_pos _ _ _ W)) as Hi.
  exists (mkptr (Z.to_nat (slot_index hash (n T) key)) (value_off r1 key)).
  unfold ahtable_tryget.
  rewrite get_key_no_expand by (simpl; auto; pose proof (wf_pos _ _ _ W); lia).
  split.
  - eapply get_key_slot_hit; eauto.
  - eapply read_value_at; eauto.
Qed.

Lemma tryget_absent (T : ahtable_t) (bs : list (list (list byte * Z)))
  (key : list byte) :
  wf_table hash T bs -> ~ In key (map fst (concat bs)) ->
  ahtable_tryget hash junk T key = Ok (T, None).
Proof.
  intros W Hnot.
  pose proof (slot_index_bound hash (n T) key (wf_pos _ _ _ W)) as Hi.
  destruct (wf_slot T bs _ W Hi) as (sl & rs & Hsl & Hrs & _).
  unfold ahtable_tryget.
  rewrite get_key_no_expand by (simpl; auto; pose proof (wf_pos _ _ _ W); lia).
  eapply get_key_slot_miss; eauto.
  eapply not_in_slot; eauto.
Qed.

(** ** Insertion into one slot *)

Lemma length_malloc (k : nat) : length (malloc junk k) = k.
Proof. unfold malloc. rewrite length_map, length_seq. reflexivity. Qed.

Lemma split_last (l : list byte) (k : nat) :
  length l = S k ->
  exists l' b, l = l' ++ [b] /\ length l' = k.
Proof.
  intros H. exists (firstn k l).
  assert (Hs : length (skipn k l) = 1%nat) by (rewrite length_skipn; lia).
  destruct (skipn k l) as [ | b [ | ? ?]] eqn:Hsk; try discriminate.
  exists b. split.
  - rewrite <- Hsk. symmetry. apply firstn_skipn.
  - rewrite length_firstn. lia.
Qed.

Lemma slot_size_eq (key : list byte) :
  (1 + (if 128 <=? length key then 1 else 0) + length key + sizeof_value + 1)%nat
  = S (length (enc_rec (key, 0))).
Proof.
  rewrite length_enc_rec. cbn [fst]. unfold prefix_size.
  destruct (Nat.leb_spec 128 (length key)); destruct (Nat.ltb_spec (length key) 128);
    lia.
Qed.

(** Insertion into an empty slot allocates the buffer of one record. *)
Lemma get_key_slot_new (T : ahtable_t) (i : Z) (key : list byte) :
  nth_error (slots T) (Z.to_nat i) = Some None ->
  get_key_slot junk T i key true
  = Ok (set_slot T i (enc_rec (key, 0) ++ [x00]) (wrap_size (m T + 1)),
        Some (mkptr (Z.to_nat i) (value_off [] key))).
Proof.
  intros Hsl. unfold get_key_slot, slot_at. rewrite Hsl. cbn [of_option bind].
  rewrite slot_size_eq.
  destruct (split_last (malloc junk (S (length (enc_rec (key, 0))))) _
              (length_malloc _)) as (old & b & -> & Hold).
  pose proof (ins_key_at [] old [b] key 0 eq_refl Hold) as Hins.
  cbn [app length] in Hins. rewrite Hins. clear Hins.
  cbn [bind].
  pose proof (store_bytes_at (enc_rec (key, 0)) [b] [x00] []
                (length (enc_rec (key, 0))) eq_refl eq_refl) as Hst.
  replace (0 + prefix_size (length key) + length key + sizeof_value)%nat
    with (length (enc_rec (key, 0)))
    by (rewrite length_enc_rec; cbn [fst]; lia).
  cbn [app] in Hst. rewrite Hst. cbn [bind]. unfold value_off. reflexivity.
Qed.

Lemma realloc_grow (buf : list byte) (k : nat) :
  exists fresh,
    realloc junk buf (length buf + k) = buf ++ fresh /\ length fresh = k.
Proof.
  unfold realloc. eexists. split.
  - rewrite firstn_all2 by lia. reflexivity.
  - rewrite length_map, length_seq. lia.
Qed.

(** The writes of [get_key] that append a record behind the records
    [bytes] of a slot; [s] is where the search stopped. *)
Lemma append_record (bytes key : list byte) (s : nat) :
  s = length bytes ->
  (buf <- store_bytes
            (realloc junk (bytes ++ [x00])
               (s + 1 + (1 + (if 128 <=? length key then 1 else 0))
                + length key + sizeof_value)%nat)
            (s + 1 + (1 + (if 128 <=? length key then 1 else 0))
             + length key + sizeof_value - 1)%nat [x00] ;;
   ins_key buf (s + 1 - 1)%nat key)
  = Ok (bytes ++ enc_rec (key, 0) ++ [x00],
        (s + prefix_size (length key) + length key)%nat,
        (s + prefix_size (length key) + length key + sizeof_value)%nat).
Proof.
  intros ->.
  set (E := length (enc_rec (key, 0))).
  assert (HE : (1 + (if 128 <=? length key then 1 else 0)
                + length key + sizeof_value = E)%nat).
  { subst E. rewrite length_enc_rec. cbn [fst]. unfold prefix_size.
    destruct (Nat.leb_spec 128 (length key));
      destruct (Nat.ltb_spec (length key) 128); lia. }
  assert (HE1 : exists e, E = S e).
  { exists (E - 1)%nat. pose proof (enc_rec_nonempty (key, 0)). subst E. lia. }
  destruct HE1 as (e & He).
  replace (length bytes + 1 + (1 + (if 128 <=? length key then 1 else 0))
           + length key + sizeof_value)%nat
    with (length (bytes ++ [x00]) + E)%nat
    by (rewrite length_app; simpl length; lia).
  destruct (realloc_grow (bytes ++ [x00]) E) as (fresh & -> & Hfresh).
  rewrite He in Hfresh.
  destruct (split_last fresh e Hfresh) as (fr & b & -> & Hfr).
  replace (length (bytes ++ [x00]) + E - 1)%nat
    with (length (bytes ++ [x00] ++ fr))
    by (rewrite !length_app; simpl length; lia).
  replace ((bytes ++ [x00]) ++ fr ++ [b])
    with ((bytes ++ [x00] ++ fr) ++ [b] ++ [])
    by (rewrite <- !app_assoc; reflexivity).
  rewrite store_bytes_at by reflexivity. cbn [bind].
  replace ((bytes ++ [x00] ++ fr) ++ [x00] ++ [])
    with (bytes ++ ([x00] ++ fr) ++ [x00])
    by (rewrite <- !app_assoc; reflexivity).
  rewrite (ins_key_at bytes ([x00] ++ fr) [x00] key)
    by (rewrite ?length_app; simpl length; fold E; lia).
  replace (length bytes + 1 - 1)%nat with (length bytes) by lia.
  reflexivity.
Qed.

(** Insertion of a key that the slot does not hold appends a record with
    the value 0 and returns its handle. *)
Lemma get_key_slot_insert (T : ahtable_t) (bs : list (list (list byte * Z)))
  (i : Z) (rs : list (list byte * Z)) (key : list byte) :
  wf_table hash T bs -> 0 <= i < n T ->
  nth_error bs (Z.to_nat i) = Some rs -> ~ In key (map fst rs) ->
  get_key_slot junk T i key true
  = Ok (set_slot T i (enc_recs (rs ++ [(key, 0)]) ++ [x00])
          (wrap_size (m T + 1)),
        Some (mkptr (Z.to_nat i) (value_off rs key))).
Proof.
  intros W Hi Hrs Hnot.
  destruct (wf_slot T bs i W Hi) as (sl & rs' & Hsl & Hrs' & Hrepr & Hg & Hnd).
  rewrite Hrs in Hrs'. inversion Hrs'; subst rs'. clear Hrs'.
  destruct Hrepr as [[-> ->] | ->].
  - rewrite get_key_slot_new by exact Hsl.
    simpl app. simpl enc_recs. rewrite app_nil_r. reflexivity.
  - unfold get_key_slot, slot_at. rewrite Hsl. cbn [of_option bind].
    pose proof (scan_miss rs [] key (S (length (enc_recs rs ++ [x00])))
                  Hg Hnot) as Hscan.
    change (length (@nil byte)) with O in Hscan.
    change ([] ++ enc_recs rs ++ [x00]) with (enc_recs rs ++ [x00]) in Hscan.
    rewrite Hscan
      by (rewrite length_app; pose proof (length_enc_recs_ge rs); lia).
    cbn [bind].
    pose proof (append_record (enc_recs rs) key (0 + length (enc_recs rs))
                  eq_refl) as Happ.
    cbn [bind] in Happ.
    destruct (store_bytes _ _ [x00]) as [buf | f]; cbn [bind] in Happ |- *;
      [ | discriminate Happ ].
    rewrite Happ. cbn [bind].
    rewrite length_enc_recs_app. simpl enc_recs. rewrite app_nil_r.
    rewrite <- app_assoc. unfold value_off. reflexivity.
Qed.

(** ** Well-formedness is kept by the writes *)

Lemma wf_set_slot (T : ahtable_t) (bs : list (list (list byte * Z))) (i : Z)
  (rs rs' : list (list byte * Z)) (new_m : Z) :
  wf_table hash T bs -> 0 <= i < n T ->
  nth_error bs (Z.to_nat i) = Some rs ->
  Forall good_rec rs' ->
  (forall r, In r rs' -> slot_index hash (n T) (fst r) = i) ->
  NoDup (map fst rs') ->
  new_m = Z.of_nat (length (concat (upd bs (Z.to_nat i) rs'))) ->
  wf_table hash (set_slot T i (enc_recs rs' ++ [x00]) new_m)
    (upd bs (Z.to_nat i) rs').
Proof.
  intros W Hi Hrs Hg Hh Hnd Hm.
  constructor; cbn [set_slot n m slots].
  - rewrite length_upd. apply (wf_n _ _ _ W).
  - apply (wf_pos _ _ _ W).
  - apply Forall2_upd; [ apply (wf_slots _ _ _ W) | right; reflexivity ].
  - apply Forall_upd; [ apply (wf_good _ _ _ W) | exact Hg ].
  - intros j rs0 r Hj Hin.
    destruct (Nat.eq_dec (Z.to_nat i) j) as [<- | Hne].
    + rewrite nth_error_upd_eq in Hj by (apply nth_error_Some; congruence).
      inversion Hj; subst rs0. rewrite (Hh r Hin). lia.
    + rewrite nth_error_upd_ne in Hj by exact Hne.
      apply (wf_home _ _ _ W j rs0 r Hj Hin).
  - apply Forall_upd; [ apply (wf_nodup _ _ _ W) | exact Hnd ].
  - exact Hm.
Qed.

Lemma wf_m_nonneg (T : ahtable_t) (bs : list (list (list byte * Z))) :
  wf_table hash T bs -> 0 <= m T.
Proof. intros W. rewrite (wf_m _ _ _ W). lia. Qed.

(** The table after the insertion of a new key. *)
Lemma wf_insert (T : ahtable_t) (bs : list (list (list byte * Z)))
  (rs : list (list byte * Z)) (key : list byte) :
  wf_table hash T bs ->
  nth_error bs (Z.to_nat (slot_index hash (n T) key)) = Some rs ->
  ~ In key (map fst rs) -> decodable (length key) -> m T + 1 < 2 ^ 64 ->
  wf_table hash
    (set_slot T (slot_index hash (n T) key)
       (enc_recs (rs ++ [(key, 0)]) ++ [x00]) (wrap_size (m T + 1)))
    (upd bs (Z.to_nat (slot_index hash (n T) key)) (rs ++ [(key, 0)])).
Proof.
  intros W Hrs Hnot Hd Hm.
  pose proof (slot_index_bound hash (n T) key (wf_pos _ _ _ W)) as Hi.
  destruct (wf_slot T bs _ W Hi) as (sl & rs' & Hsl & Hrs' & Hrepr & Hg & Hnd).
  rewrite Hrs in Hrs'. inversion Hrs'; subst rs'. clear Hrs'.
  apply (wf_set_slot T bs _ rs); auto.
  - apply Forall_app. split; [ exact Hg | ].
    constructor; [ | constructor ]. split; [ exact Hd | simpl; lia ].
  - intros r Hin. apply in_app_or in Hin. destruct Hin as [Hin | [<- | []]].
    + apply (wf_home _ _ _ W _ rs r Hrs) in Hin. lia.
    + reflexivity.
  - rewrite map_app. simpl. apply NoDup_app; auto.
    + repeat constructor. simpl. tauto.
    + intros x Hx [<- | []]. contradiction.
  - pose proof (wf_m_nonneg T bs W).
    rewrite wrap_size_small by lia.
    pose proof (length_concat_upd bs _ rs (rs ++ [(key, 0)]) Hrs) as Hl.
    rewrite length_app in Hl. simpl length in Hl.
    rewrite (wf_m _ _ _ W). lia.
Qed.

(** Writing a value through the handle of a record. *)
Lemma write_value_at (T : ahtable_t) (bs : list (list (list byte * Z)))
  (i : Z) (r1 r2 : list (list byte * Z)) (key : list byte) (v0 v : Z) :
  wf_table hash T bs -> 0 <= i < n T ->
  nth_error bs (Z.to_nat i) = Some (r1 ++ (key, v0) :: r2) ->
  0 <= v < 2 ^ 64 ->
  exists T',
    write_value T (mkptr (Z.to_nat i) (value_off r1 key)) v = Ok T' /\
    wf_table hash T' (upd bs (Z.to_nat i) (r1 ++ (key, v) :: r2)) /\
    n T' = n T /\ m T' = m T /\ max_m T' = max_m T.
Proof.
  intros W Hi Hrs Hv.
  destruct (wf_slot T bs i W Hi) as (sl & rs & Hsl & Hrs' & Hrepr & Hg & Hnd).
  rewrite Hrs in Hrs'. inversion Hrs'; subst rs. clear Hrs'.
  destruct Hrepr as [[_ Hnil] | ->];
    [ exfalso; eapply app_cons_not_nil; symmetry; exact Hnil | ].
  unfold write_value, deref. cbn [blk off]. rewrite Hsl. cbn [of_option bind].
  rewrite enc_recs_value.
  rewrite (store_bytes_at _ (le_split sizeof_value v0) (le_split sizeof_value v))
    by (rewrite ?length_value_prefix, ?length_le_split; reflexivity).
  cbn [bind]. rewrite <- enc_recs_value.
  eexists. split; [ reflexivity | ].
  split; [ | repeat split ].
  apply (wf_set_slot T bs i (r1 ++ (key, v0) :: r2) (r1 ++ (key, v) :: r2)
           (m T) W Hi Hrs).
  - apply Forall_app in Hg. destruct Hg as [Hg1 Hg2].
    inversion Hg2 as [ | ? ? [Hd _] Hg3]; subst.
    apply Forall_app. split; [ exact Hg1 | ].
    constructor; [ split; [ exact Hd | exact Hv ] | exact Hg3 ].
  - intros r Hin.
    assert (Hin' : exists r', In r' (r1 ++ (key, v0) :: r2) /\ fst r' = fst r).
    { apply in_app_or in Hin. destruct Hin as [Hin | [<- | Hin]].
      - exists r. split; [ apply in_or_app; left; exact Hin | reflexivity ].
      - exists (key, v0). split; [ apply in_or_app; right; left | ]; reflexivity.
      - exists r. split; [ apply in_or_app; right; right; exact Hin | reflexivity ]. }
    destruct Hin' as (r' & Hr' & <-).
    pose proof (wf_home _ _ _ W _ _ r' Hrs Hr'). lia.
  - rewrite map_app in *. exact Hnd.
  - pose proof (length_concat_upd bs _ _ (r1 ++ (key, v) :: r2) Hrs) as Hl.
    rewrite !length_app in Hl. simpl length in Hl.
    rewrite (wf_m _ _ _ W). lia.
Qed.

End Search.

(** ** Iteration *)

Section Iteration.

Variable hash : list byte -> Z.
Variable T : ahtable_t.
Variable bs : list (list (list byte * Z)).
Hypothesis W : wf_table hash T bs.

Lemma skipn_nth {A : Type} (l : list A) (i : nat) (a : A) :
  nth_error l i = Some a -> skipn i l = a :: skipn (S i) l.
Proof.
  revert i. induction l as [ | h t IH]; intros [ | i] H; simpl in H;
    try discriminate.
  - inversion H. reflexivity.
  - simpl. apply IH. exact H.
Qed.

Lemma load_first_rec (pre : list byte) (r : list byte * Z)
  (rest : list byte) :
  good_rec r ->
  exists b, load (pre ++ enc_rec r ++ rest) (length pre) = Ok b /\
            byte.unsigned b <> 0.
Proof.
  intros [Hd _]. destruct (prefix_bytes_head _ Hd) as (b & tl & Hp & Hb).
  exists b. split; [ | exact Hb ].
  unfold enc_rec. rewrite Hp. rewrite <- !app_assoc. simpl.
  apply load_at. reflexivity.
Qed.

(** The slot of a bucket that holds records. *)
Lemma wf_bucket (j : nat) (rs : list (list byte * Z)) :
  nth_error bs j = Some rs ->
  Z.of_nat j < n T /\ Forall good_rec rs /\
  exists sl, nth_error (slots T) j = Some sl /\ slot_repr sl rs.
Proof.
  intros Hrs.
  assert (Hj : (j < length bs)%nat) by (apply nth_error_Some; congruence).
  assert (Hi : 0 <= Z.of_nat j < n T) by (rewrite (wf_n _ _ _ W); lia).
  destruct (wf_slot hash T bs _ W Hi) as (sl & rs' & Hsl & Hrs' & Hrepr & Hg & _).
  rewrite Nat2Z.id in *. rewrite Hrs in Hrs'. inversion Hrs'; subst rs'.
  split; [ lia | ]. split; [ exact Hg | ]. exists sl. auto.
Qed.

Lemma wf_bucket_some (j : nat) (r : list byte * Z)
  (r1 r2 : list (list byte * Z)) :
  nth_error bs j = Some (r1 ++ r :: r2) ->
  nth_error (slots T) j = Some (Some (enc_recs (r1 ++ r :: r2) ++ [x00])).
Proof.
  intros Hrs. destruct (wf_bucket j _ Hrs) as (_ & _ & sl & Hsl & Hrepr).
  destruct Hrepr as [[_ Hnil] | ->]; [ | exact Hsl ].
  exfalso. eapply app_cons_not_nil. symmetry. exact Hnil.
Qed.

(** The test that both search loops over the slots make at index [j]:
    the slot is NULL or begins with the terminator exactly when the bucket
    is empty. *)
Lemma slot_test (j : nat) (rs : list (list byte * Z)) :
  nth_error bs j = Some rs ->
  exists sl, slot_at (slots T) (Z.of_nat j) = Ok sl /\
    match sl with
    | None => rs = []
    | Some buf =>
      exists b, load buf 0 = Ok b /\
        ((byte.unsigned b =? 0) = true /\ rs = [] \/
         (byte.unsigned b =? 0) = false /\ rs <> [])
    end.
Proof.
  intros Hrs. destruct (wf_bucket j rs Hrs) as (_ & Hg & sl & Hsl & Hrepr).
  exists sl. unfold slot_at. rewrite Nat2Z.id, Hsl. split; [ reflexivity | ].
  destruct Hrepr as [[-> ->] | ->]; [ reflexivity | ].
  destruct rs as [ | r rs].
  - exists x00. split; [ reflexivity | ]. left. split; reflexivity.
  - inversion Hg as [ | ? ? Hr Hg']; subst.
    simpl enc_recs. rewrite <- app_assoc.
    destruct (load_first_rec [] r (enc_recs rs ++ [x00]) Hr) as (b & Hb & Hnz).
    exists b. split; [ exact Hb | ]. right.
    split; [ apply Z.eqb_neq; exact Hnz | discriminate ].
Qed.

(** The [do ... while] loop stops at the next bucket that holds records,
    or at [n]. *)
Lemma iter_skip_spec (k : nat) :
  (k <= length bs)%nat ->
  exists j,
    iter_skip T k = Ok (Z.of_nat j) /\
    (length bs - k <= j <= length bs)%nat /\
    concat (skipn (length bs - k) bs) = concat (skipn j bs) /\
    (j < length bs -> exists r rs, nth_error bs j = Some (r :: rs))%nat.
Proof.
  pose proof (wf_n _ _ _ W) as Hn.
  induction k as [ | k IH]; intros Hk.
  - exists (length bs). cbn [iter_skip]. rewrite Hn.
    repeat split; try lia.
    + rewrite Nat.sub_0_r. reflexivity.
  - cbn [iter_skip].
    replace (n T - Z.of_nat (S k)) with (Z.of_nat (length bs - S k)) by lia.
    set (i := (length bs - S k)%nat).
    destruct (nth_error bs i) as [rs | ] eqn:Hrs;
      [ | apply nth_error_None in Hrs; lia ].
    destruct (slot_test i rs Hrs) as (sl & Hsl & Htest).
    rewrite Hsl. cbn [bind].
    assert (Hnext : rs = [] ->
      exists j, iter_skip T k = Ok (Z.of_nat j) /\
        (i <= j <= length bs)%nat /\
        concat (skipn i bs) = concat (skipn j bs) /\
        (j < length bs -> exists r rs, nth_error bs j = Some (r :: rs))%nat).
    { intros ->. destruct (IH ltac:(lia)) as (j & Hj & Hr & Hc & Hne).
      exists j. split; [ exact Hj | ]. split; [ lia | ].
      split; [ | exact Hne ].
      rewrite (skipn_nth bs i [] Hrs). cbn [concat app].
      replace (S i) with (length bs - k)%nat by lia. exact Hc. }
    destruct sl as [buf | ].
    + destruct Htest as (b & Hb & [[Hz Hnil] | [Hz Hne]]);
        rewrite Hb; cbn [bind]; rewrite Hz.
      * apply Hnext. exact Hnil.
      * exists i. split; [ reflexivity | ]. split; [ lia | ].
        split; [ reflexivity | ]. intros _.
        destruct rs as [ | r rs]; [ contradiction | ]. eauto.
    + apply Hnext. exact Htest.
Qed.

(** The loop of [ahtable_iter_begin] leaves the iterator at the first
    record from slot [length bs - k] on. *)
Lemma iter_begin_loop_spec (k : nat) (s : option ptr) :
  (k <= length bs)%nat ->
  exists i,
    iter_begin_loop T k s = Ok i /\
    at_pos T bs i (concat (skipn (length bs - k) bs)).
Proof.
  pose proof (wf_n _ _ _ W) as Hn.
  revert s. induction k as [ | k IH]; intros s Hk.
  - eexists. cbn [iter_begin_loop]. split; [ reflexivity | ].
    rewrite Nat.sub_0_r, skipn_all. simpl. apply at_end. simpl. lia.
  - cbn [iter_begin_loop].
    replace (n T - Z.of_nat (S k)) with (Z.of_nat (length bs - S k)) by lia.
    set (i := (length bs - S k)%nat).
    destruct (nth_error bs i) as [rs | ] eqn:Hrs;
      [ | apply nth_error_None in Hrs; lia ].
    destruct (slot_test i rs Hrs) as (sl & Hsl & Htest).
    rewrite Hsl. cbn [bind].
    assert (Hnext : forall s', rs = [] ->
      exists it, iter_begin_loop T k s' = Ok it /\
                 at_pos T bs it (concat (skipn i bs))).
    { intros s' ->. destruct (IH s' ltac:(lia)) as (it & Hit & Hpos).
      exists it. split; [ exact Hit | ].
      rewrite (skipn_nth bs i [] Hrs). cbn [concat app].
      replace (S i) with (length bs - k)%nat by lia. exact Hpos. }
    destruct sl as [buf | ].
    + destruct Htest as (b & Hb & [[Hz Hnil] | [Hz Hne]]);
        rewrite Hb; cbn [bind]; rewrite Hz.
      * apply Hnext. exact Hnil.
      * eexists. split; [ reflexivity | ].
        destruct rs as [ | r rs]; [ contradiction | ].
        rewrite (skipn_nth bs i _ Hrs). cbn [concat app].
        unfold slot_start. rewrite Nat2Z.id.
        apply (at_rec T bs i [] rs r). exact Hrs.
    + apply Hnext. exact Htest.
Qed.

Lemma iter_begin_spec :
  exists i, ahtable_iter_begin T = Ok i /\ at_pos T bs i (concat bs).
Proof.
  pose proof (wf_n _ _ _ W) as Hn.
  unfold ahtable_iter_begin. rewrite Hn, Nat2Z.id.
  destruct (iter_begin_loop_spec (length bs) None (Nat.le_refl _))
    as (i & Hi & Hpos).
  rewrite Nat.sub_diag in Hpos. exists i. auto.
Qed.

(** What the accessors return at a record. *)
Lemma iter_at_rec (j : nat) (r1 r2 : list (list byte * Z)) (k : list byte)
  (v : Z) :
  nth_error bs j = Some (r1 ++ (k, v) :: r2) ->
  let i := {| it_i := Z.of_nat j;
              it_s := Some (mkptr j (length (enc_recs r1))) |} in
  let kp := mkptr j (length (enc_recs r1) + prefix_size (length k)) in
  let vp := mkptr j (value_off r1 k) in
  ahtable_iter_finished T i = false /\
  ahtable_iter_key T i = Ok (Some (kp, length k)) /\
  load_key T kp (length k) = Ok k /\
  ahtable_iter_val T i = Ok (Some vp) /\
  (exists old, deref (slots T) vp = Ok old /\
               load_bytes old (off vp) sizeof_value
               = Ok (le_split sizeof_value v)) /\
  read_value T vp = Ok v.
Proof.
  intros Hrs i kp vp.
  destruct (wf_bucket j _ Hrs) as (Hj & Hg & _).
  pose proof (wf_bucket_some j _ _ _ Hrs) as Hsl.
  set (buf := enc_recs (r1 ++ (k, v) :: r2) ++ [x00]) in *.
  assert (Hfin : ahtable_iter_finished T i = false).
  { unfold ahtable_iter_finished. subst i. cbn [it_i]. apply Z.leb_gt. lia. }
  assert (Hde : forall o, deref (slots T) (mkptr j o) = Ok buf).
  { intros o. unfold deref. cbn [blk]. rewrite Hsl. reflexivity. }
  assert (Hd : decodable (length k)).
  { rewrite Forall_forall in Hg. apply (Hg (k, v)).
    apply in_or_app. right. left. reflexivity. }
  assert (Hv : 0 <= v < 2 ^ 64).
  { rewrite Forall_forall in Hg. apply (Hg (k, v)).
    apply in_or_app. right. left. reflexivity. }
  assert (Hrk : read_keylen buf (length (enc_recs r1))
                = Ok (length k,
                      (length (enc_recs r1) + prefix_size (length k))%nat)).
  { subst buf. rewrite enc_recs_value. rewrite <- !app_assoc.
    apply read_keylen_prefix; auto. }
  assert (Hval : load_bytes buf (value_off r1 k) sizeof_value
                 = Ok (le_split sizeof_value v)).
  { subst buf. rewrite enc_recs_value.
    apply load_bytes_at;
      rewrite ?length_value_prefix, ?length_le_split; reflexivity. }
  split; [ exact Hfin | ].
  split.
  { unfold ahtable_iter_key. rewrite Hfin. subst i. cbn [it_s of_option bind].
    rewrite Hde. cbn [bind off]. rewrite Hrk. reflexivity. }
  split.
  { unfold load_key. subst kp. rewrite Hde. cbn [bind off].
    subst buf. rewrite enc_recs_value. rewrite <- !app_assoc.
    rewrite (app_assoc (enc_recs r1)).
    apply load_bytes_at; [ | reflexivity ].
    rewrite length_app, length_prefix_bytes. reflexivity. }
  split.
  { unfold ahtable_iter_val. rewrite Hfin. subst i. cbn [it_s of_option bind].
    rewrite Hde. cbn [bind off]. rewrite Hrk. reflexivity. }
  split.
  { exists buf. subst vp. split; [ apply Hde | exact Hval ]. }
  unfold read_value. subst vp. rewrite Hde. cbn [bind off].
  rewrite Hval. cbn [bind]. rewrite le_combine_value by exact Hv. reflexivity.
Qed.

(** [ahtable_iter_next] moves from a record to the record after it. *)
Lemma iter_next_spec (j : nat) (r1 r2 : list (list byte * Z))
  (r : list byte * Z) :
  nth_error bs j = Some (r1 ++ r :: r2) ->
  exists i',
    ahtable_iter_next T
      {| it_i := Z.of_nat j; it_s := Some (mkptr j (length (enc_recs r1))) |}
    = Ok i' /\
    at_pos T bs i' (r2 ++ concat (skipn (S j) bs)).
Proof.
  intros Hrs. destruct r as [k v].
  pose proof (wf_n _ _ _ W) as Hn.
  destruct (iter_at_rec j r1 r2 k v Hrs) as (Hfin & _).
  destruct (wf_bucket j _ Hrs) as (Hj & Hg & _).
  pose proof (wf_bucket_some j _ _ _ Hrs) as Hsl.
  assert (Hd : decodable (length k)).
  { rewrite Forall_forall in Hg. apply (Hg (k, v)).
    apply in_or_app. right. left. reflexivity. }
  unfold ahtable_iter_next. rewrite Hfin. cbn [it_s it_i of_option bind].
  unfold deref. cbn [blk off]. rewrite Hsl. cbn [of_option bind].
  rewrite enc_recs_value. rewrite <- !app_assoc.
  rewrite read_keylen_prefix by auto. cbn [bind].
  replace (length (enc_recs r1) + prefix_size (length k)
           + (length k + sizeof_value))%nat
    with (length (enc_recs (r1 ++ [(k, v)])))
    by (rewrite length_enc_recs_app, length_app; simpl enc_recs;
        rewrite app_nil_r, length_enc_rec; cbn [fst]; lia).
  replace (enc_recs r1 ++ prefix_bytes (length k) ++ k
           ++ le_split sizeof_value v ++ enc_recs r2 ++ [x00])
    with (enc_recs (r1 ++ [(k, v)]) ++ enc_recs r2 ++ [x00])
    by (rewrite length_enc_recs_app; simpl enc_recs; unfold enc_rec;
        cbn [fst snd]; rewrite <- !app_assoc; reflexivity).
  destruct r2 as [ | r' r2].
  - simpl enc_recs. cbn [app]. rewrite load_at by reflexivity. cbn [bind].
    change (byte.unsigned x00 =? 0) with true. cbv iota.
    replace (Z.to_nat (n T - (Z.of_nat j + 1))) with (length bs - S j)%nat by lia.
    destruct (iter_skip_spec (length bs - S j) ltac:(lia))
      as (j' & Hskip & Hr & Hc & Hne).
    rewrite Hskip. cbn [bind].
    replace (length bs - (length bs - S j))%nat with (S j) in * by lia.
    rewrite Hc.
    destruct (Z.ltb_spec (Z.of_nat j') (n T)) as [Hlt | Hge].
    + destruct (Hne ltac:(lia)) as (r' & rs' & Hrs').
      pose proof (wf_bucket_some j' r' [] rs' Hrs') as Hsl'.
      unfold slot_at. rewrite Nat2Z.id, Hsl'. cbn [of_option bind].
      eexists. split; [ reflexivity | ].
      rewrite (skipn_nth bs j' _ Hrs'). cbn [concat app].
      unfold slot_start. rewrite Nat2Z.id.
      apply (at_rec T bs j' [] rs' r'). exact Hrs'.
    + eexists. split; [ reflexivity | ].
      rewrite skipn_all2 by lia. apply at_end. cbn [it_i]. lia.
  - assert (Hr' : good_rec r').
    { rewrite Forall_forall in Hg. apply Hg.
      apply in_or_app. right. right. left. reflexivity. }
    simpl enc_recs. rewrite <- !app_assoc.
    destruct (load_first_rec (enc_recs (r1 ++ [(k, v)])) r'
                (enc_recs r2 ++ [x00]) Hr') as (b & Hb & Hnz).
    rewrite Hb. cbn [bind].
    apply Z.eqb_neq in Hnz. rewrite Hnz.
    eexists. split; [ reflexivity | ].
    cbn [app].
    apply (at_rec T bs j (r1 ++ [(k, v)]) r2 r').
    rewrite <- app_assoc. exact Hrs.
Qed.

(** A loop over an iterator is a fold over the records left. *)
Lemma iter_while_fold {A : Type} (body : ahtable_iter_t -> A -> res A)
  (g : list byte * Z -> A -> res A) :
  (forall i r rem acc, at_pos T bs i (r :: rem) -> body i acc = g r acc) ->
  forall rem i acc fuel,
    at_pos T bs i rem -> (length rem < fuel)%nat ->
    iter_while fuel T body i acc = fold_res g rem acc.
Proof.
  intros Hbody. induction rem as [ | r rem IH]; intros i acc fuel Hpos Hf.
  - destruct fuel as [ | fuel]; [ simpl in Hf; lia | ].
    inversion Hpos as [i0 Hend | ]; subst.
    cbn [iter_while fold_res]. unfold ahtable_iter_finished.
    destruct (Z.leb_spec (n T) (it_i i)); [ reflexivity | lia ].
  - destruct fuel as [ | fuel]; [ simpl in Hf; lia | ].
    cbn [iter_while fold_res].
    rewrite (Hbody i r rem acc Hpos).
    inversion Hpos as [ | j r1 r2 r0 Hrs Hi Hrem]; subst.
    destruct r as [k v].
    destruct (iter_at_rec j r1 r2 k v Hrs) as (Hfin & _).
    rewrite Hfin.
    destruct (g (k, v) acc) as [acc' | f]; cbn [bind]; [ | reflexivity ].
    destruct (iter_next_spec j r1 r2 (k, v) Hrs) as (i' & Hnext & Hpos').
    rewrite Hnext. cbn [bind].
    apply IH; [ exact Hpos' | simpl in Hf; lia ].
Qed.

Lemma length_concat_le_sum (ss : list slot_t)
  (cs : list (list (list byte * Z))) :
  Forall2 slot_repr ss cs ->
  (length (concat cs) <= list_sum (map slot_len ss))%nat.
Proof.
  intros H. induction H as [ | sl rs ss' cs' Hrepr H IH];
    cbn [concat map length]; [ simpl; lia | ].
  unfold list_sum in *. cbn [fold_right]. rewrite length_app.
  assert (length rs <= slot_len sl)%nat; [ | lia ].
  destruct Hrepr as [[-> ->] | ->]; cbn [slot_len length]; [ lia | ].
  rewrite length_app. pose proof (length_enc_recs_ge rs). lia.
Qed.

Lemma length_concat_le_fuel : (length (concat bs) < iter_fuel T)%nat.
Proof.
  unfold iter_fuel. apply Nat.lt_succ_r.
  apply length_concat_le_sum. apply (wf_slots _ _ _ W).
Qed.

Lemma visit_at (i : ahtable_iter_t) (r : list byte * Z)
  (rem acc : list (list byte * Z)) :
  at_pos T bs i (r :: rem) -> visit T i acc = Ok (acc ++ [r]).
Proof.
  intros Hpos. inversion Hpos as [ | j r1 r2 r0 Hrs Hi Hrem]; subst.
  destruct r as [k v].
  destruct (iter_at_rec j r1 r2 k v Hrs)
    as (_ & Hkey & Hload & Hval & _ & Hread).
  unfold visit. rewrite Hkey. cbn [of_option bind].
  rewrite Hload. cbn [bind]. rewrite Hval. cbn [of_option bind].
  rewrite Hread. reflexivity.
Qed.

Lemma fold_res_snoc {B : Type} (l acc : list B) :
  fold_res (fun r acc => Ok (acc ++ [r])) l acc = Ok (acc ++ l).
Proof.
  revert acc. induction l as [ | x l IH]; intros acc; cbn [fold_res bind].
  - rewrite app_nil_r. reflexivity.
  - rewrite IH, <- app_assoc. reflexivity.
Qed.

(** A full traversal of a well-formed table visits the records slot by
    slot, each slot in the order of insertion, and their number is the
    size of the table. *)
Lemma traverse_wf :
  traverse T = Ok (concat bs) /\
  Z.of_nat (length (concat bs)) = ahtable_size T.
Proof.
  split; [ | symmetry; apply (wf_m _ _ _ W) ].
  unfold traverse. destruct iter_begin_spec as (i & Hi & Hpos).
  rewrite Hi. cbn [bind].
  rewrite (iter_while_fold (visit T) (fun r acc => Ok (acc ++ [r])) visit_at
             (concat bs) i [] (iter_fuel T) Hpos length_concat_le_fuel).
  apply fold_res_snoc.
Qed.

End Iteration.

(** ** Expansion *)

Section Rehash.

Variable hash : list byte -> Z.
Variable new_n : Z.
Hypothesis new_n_pos : 0 < new_n.

Lemma hash_mod_index (key : list byte) :
  hash_mod hash key new_n = Ok (slot_index hash new_n key).
Proof.
  unfold hash_mod, slot_index.
  destruct (Z.eqb_spec new_n 0) as [ | _]; [ lia | ].
  f_equal. unfold wrap_u32.
  pose proof (Z.mod_pos_bound (hash key) (2 ^ 32) ltac:(lia)).
  pose proof (Z.mod_pos_bound (hash key mod 2 ^ 32) new_n new_n_pos).
  assert (hash key mod 2 ^ 32 mod new_n <= hash key mod 2 ^ 32)
    by (apply Z.mod_le; lia).
  symmetry. apply Z.mod_small. lia.
Qed.

Lemma home_lt (key : list byte) :
  (Z.to_nat (slot_index hash new_n key) < Z.to_nat new_n)%nat.
Proof. pose proof (slot_index_bound hash new_n key new_n_pos). lia. Qed.

Lemma home_eqb (key : list byte) (j : nat) :
  (slot_index hash new_n key =? Z.of_nat j)
  = (j =? Z.to_nat (slot_index hash new_n key))%nat.
Proof.
  pose proof (slot_index_bound hash new_n key new_n_pos).
  destruct (Z.eqb_spec (slot_index hash new_n key) (Z.of_nat j));
    destruct (Nat.eqb_spec j (Z.to_nat (slot_index hash new_n key)));
    try reflexivity; lia.
Qed.

Lemma bucket_of_cons (r : list byte * Z) (recs : list (list byte * Z))
  (j : nat) :
  bucket_of hash new_n (r :: recs) j
  = if (j =? Z.to_nat (slot_index hash new_n (fst r)))%nat
    then r :: bucket_of hash new_n recs j
    else bucket_of hash new_n recs j.
Proof. unfold bucket_of. simpl. rewrite home_eqb. reflexivity. Qed.

Lemma record_size_eq (r : list byte * Z) :
  record_size (length (fst r)) = length (enc_rec r).
Proof.
  rewrite length_enc_rec. unfold record_size, prefix_size.
  destruct (Nat.leb_spec 128 (length (fst r)));
    destruct (Nat.ltb_spec (length (fst r)) 128); lia.
Qed.

(** The first loop adds up, for every new slot, the bytes of the records
    that belong there. *)
Lemma sizes_fold (recs : list (list byte * Z)) (F : nat -> nat) :
  fold_res (size_step hash new_n) recs (tab (Z.to_nat new_n) F)
  = Ok (tab (Z.to_nat new_n)
          (fun j => (F j + length (enc_recs (bucket_of hash new_n recs j)))%nat)).
Proof.
  revert F. induction recs as [ | r recs IH]; intros F.
  - cbn [fold_res]. f_equal. apply tab_ext. intros j _. simpl. lia.
  - cbn [fold_res]. unfold size_step.
    rewrite hash_mod_index. cbn [bind].
    rewrite nth_error_tab by apply home_lt. cbn [of_option bind].
    rewrite upd_tab, IH. f_equal. apply tab_ext. intros j _.
    rewrite bucket_of_cons.
    destruct (Nat.eqb_spec j (Z.to_nat (slot_index hash new_n (fst r))))
      as [-> | _]; [ | reflexivity ].
    simpl enc_recs. rewrite length_app, record_size_eq. lia.
Qed.

Lemma bucket_of_app (l1 l2 : list (list byte * Z)) (j : nat) :
  bucket_of hash new_n (l1 ++ l2) j
  = bucket_of hash new_n l1 j ++ bucket_of hash new_n l2 j.
Proof. unfold bucket_of. apply filter_app. Qed.

Lemma split_length (l : list byte) (a b : nat) :
  length l = (a + b)%nat ->
  exists l1 l2, l = l1 ++ l2 /\ length l1 = a /\ length l2 = b.
Proof.
  intros H. exists (firstn a l), (skipn a l).
  rewrite firstn_skipn, length_firstn, length_skipn. repeat split; lia.
Qed.

(** One turn of the second loop: the record is written at the cursor of
    its slot, and the cursor moves behind it. *)
Lemma place_step_at (r : list byte * Z) (new_slots : nat -> slot_t)
  (cursors : nat -> option nat) (cnt : Z) (D R : list (list byte * Z)) :
  let h := Z.to_nat (slot_index hash new_n (fst r)) in
  slot_state (new_slots h) (cursors h) D (r :: R) ->
  exists buf,
    place_step hash new_n r
      (tab (Z.to_nat new_n) new_slots, tab (Z.to_nat new_n) cursors, cnt)
    = Ok (tab (Z.to_nat new_n) (fun j => if (j =? h)%nat then Some buf else new_slots j),
          tab (Z.to_nat new_n)
            (fun j => if (j =? h)%nat
                      then Some (length (enc_recs (D ++ [r]))) else cursors j),
          wrap_size (cnt + 1)) /\
    slot_state (Some buf) (Some (length (enc_recs (D ++ [r])))) (D ++ [r]) R.
Proof.
  intros h Hst. subst h. destruct r as [k v]. cbn [fst] in *.
  destruct Hst as [[Hnil _] | (_ & fill & HS & Hfill & HC)];
    [ exfalso; eapply app_cons_not_nil; symmetry; exact Hnil | ].
  simpl enc_recs in Hfill. rewrite length_app in Hfill.
  destruct (split_length fill _ _ Hfill) as (f1 & f2 & -> & Hf1 & Hf2).
  exists (enc_recs (D ++ [(k, v)]) ++ f2 ++ [x00]).
  split.
  - unfold place_step. rewrite hash_mod_index. cbn [bind fst snd].
    rewrite nth_error_tab by apply home_lt. cbn [of_option bind].
    rewrite HC. cbn [of_option bind].
    unfold deref. cbn [blk]. rewrite nth_error_tab by apply home_lt.
    cbn [of_option bind]. rewrite HS. cbn [of_option bind].
    rewrite <- !app_assoc.
    rewrite (ins_key_at (enc_recs D) f1 (f2 ++ [x00]) k)
      by (rewrite ?length_enc_rec in *; cbn [fst] in *; auto).
    cbn [bind].
    replace (enc_recs D ++ enc_rec (k, 0) ++ f2 ++ [x00])
      with ((enc_recs D ++ prefix_bytes (length k) ++ k)
            ++ le_split sizeof_value 0 ++ (f2 ++ [x00]))
      by (unfold enc_rec; cbn [fst snd]; rewrite <- !app_assoc; reflexivity).
    rewrite (store_bytes_at _ (le_split sizeof_value 0) (le_split sizeof_value v))
      by (rewrite ?length_app, ?length_prefix_bytes, ?length_le_split; lia).
    cbn [bind]. rewrite !upd_tab.
    replace ((enc_recs D ++ prefix_bytes (length k) ++ k)
             ++ le_split sizeof_value v ++ f2 ++ [x00])
      with (enc_recs (D ++ [(k, v)]) ++ f2 ++ [x00])
      by (rewrite length_enc_recs_app; simpl enc_recs; unfold enc_rec;
          cbn [fst snd]; rewrite <- !app_assoc; reflexivity).
    replace (length (enc_recs D) + prefix_size (length k) + length k
             + sizeof_value)%nat
      with (length (enc_recs (D ++ [(k, v)])))
      by (rewrite length_enc_recs_app, length_app; simpl enc_recs;
          rewrite app_nil_r, length_enc_rec; cbn [fst]; lia).
    reflexivity.
  - right. split.
    + intros H. apply app_eq_nil in H. destruct H as [H _].
      eapply app_cons_not_nil. symmetry. exact H.
    + exists f2. repeat split. exact Hf2.
Qed.

(** The second loop writes every record behind the records placed before
    it in the same slot and counts the records. *)
Lemma place_fold (todo : list (list byte * Z)) :
  forall (done : list (list byte * Z)) (new_slots : nat -> slot_t)
         (cursors : nat -> option nat) (cnt : Z),
    (forall j, (j < Z.to_nat new_n)%nat ->
       slot_state (new_slots j) (cursors j) (bucket_of hash new_n done j)
                  (bucket_of hash new_n todo j)) ->
    0 <= cnt -> cnt + Z.of_nat (length todo) < 2 ^ 64 ->
    exists new_slots' cursors',
      fold_res (place_step hash new_n) todo
        (tab (Z.to_nat new_n) new_slots, tab (Z.to_nat new_n) cursors, cnt)
      = Ok (tab (Z.to_nat new_n) new_slots', tab (Z.to_nat new_n) cursors',
            cnt + Z.of_nat (length todo)) /\
      forall j, (j < Z.to_nat new_n)%nat ->
        slot_state (new_slots' j) (cursors' j) (bucket_of hash new_n (done ++ todo) j) [].
Proof.
  induction todo as [ | r todo IH]; intros done new_slots cursors cnt Hst Hc Hb.
  - exists new_slots, cursors. cbn [fold_res]. split.
    + simpl. rewrite Z.add_0_r. reflexivity.
    + intros j Hj. rewrite app_nil_r. apply (Hst j Hj).
  - set (h := Z.to_nat (slot_index hash new_n (fst r))).
    assert (Hh : slot_state (new_slots h) (cursors h) (bucket_of hash new_n done h)
                   (r :: bucket_of hash new_n todo h)).
    { pose proof (Hst h (home_lt (fst r))) as H.
      rewrite bucket_of_cons in H. fold h in H.
      rewrite Nat.eqb_refl in H. exact H. }
    destruct (place_step_at r new_slots cursors cnt _ _ Hh) as (buf & Hstep & Hst').
    cbn [fold_res]. rewrite Hstep. cbn [bind].
    rewrite wrap_size_small by (simpl length in Hb; lia).
    destruct (IH (done ++ [r])
                (fun j => if (j =? h)%nat then Some buf else new_slots j)
                (fun j => if (j =? h)%nat
                          then Some (length (enc_recs
                                 (bucket_of hash new_n done h ++ [r])))
                          else cursors j)
                (cnt + 1)) as (new_slots' & cursors' & Hfold & Hfin).
    + intros j Hj. rewrite bucket_of_app.
      destruct (Nat.eqb_spec j h) as [-> | Hne].
      * replace (bucket_of hash new_n [r] h) with [r]
          by (rewrite bucket_of_cons; fold h; rewrite Nat.eqb_refl;
              reflexivity).
        exact Hst'.
      * replace (bucket_of hash new_n [r] j) with (@nil (list byte * Z))
          by (rewrite bucket_of_cons; fold h;
              destruct (Nat.eqb_spec j h); [ contradiction | reflexivity ]).
        rewrite app_nil_r. pose proof (Hst j Hj) as H.
        rewrite bucket_of_cons in H. fold h in H.
        destruct (Nat.eqb_spec j h); [ contradiction | exact H ].
    + lia.
    + simpl length in Hb. lia.
    + exists new_slots', cursors'. split.
      * subst h. refine (eq_trans Hfold _). f_equal. f_equal. simpl length. lia.
      * intros j Hj. rewrite <- app_assoc in Hfin. apply (Hfin j Hj).
Qed.

Lemma concat_tab_nil {A : Type} (N : nat) :
  concat (tab N (fun _ => @nil A)) = [].
Proof.
  unfold tab. induction (seq 0 N) as [ | a l IH]; simpl; auto.
Qed.

(** Distributing records over the slots keeps every record, once. *)
Lemma rehash_perm (recs : list (list byte * Z)) :
  Permutation recs (concat (rehash hash new_n recs)).
Proof.
  unfold rehash. induction recs as [ | r recs IH].
  - rewrite (tab_ext _ _ (fun _ => [])) by reflexivity.
    rewrite concat_tab_nil. constructor.
  - set (h := Z.to_nat (slot_index hash new_n (fst r))).
    set (A := bucket_of hash new_n recs) in *.
    rewrite (tab_ext _ (bucket_of hash new_n (r :: recs))
               (fun j => if (j =? h)%nat then r :: A h else A j)).
    + rewrite <- upd_tab.
      destruct (upd_split (tab (Z.to_nat new_n) A) h (A h) (r :: A h))
        as (l1 & l2 & Hl & -> & _).
      { apply nth_error_tab. apply home_lt. }
      rewrite Hl in IH. rewrite concat_app in *. simpl concat in *.
      apply Permutation_cons_app. exact IH.
    + intros j _. rewrite bucket_of_cons. fold h. fold A.
      destruct (Nat.eqb_spec j h) as [-> | ]; reflexivity.
Qed.

End Rehash.

Section Expand.

Variable hash : list byte -> Z.
Variable junk : nat -> byte.
Variable T : ahtable_t.
Variable bs : list (list (list byte * Z)).
Hypothesis W : wf_table hash T bs.

Lemma add_size_at (new_n : Z) (i : ahtable_iter_t) (r : list byte * Z)
  (rem : list (list byte * Z)) (sizes : list nat) :
  at_pos T bs i (r :: rem) ->
  add_size hash T new_n i sizes = size_step hash new_n r sizes.
Proof.
  intros Hpos. inversion Hpos as [ | j r1 r2 r0 Hrs Hi Hrem]; subst.
  destruct r as [k v].
  destruct (iter_at_rec hash T bs W j r1 r2 k v Hrs) as (_ & Hkey & Hload & _).
  unfold add_size, size_step. rewrite Hkey. cbn [of_option bind].
  rewrite Hload. reflexivity.
Qed.

Lemma place_at (new_n : Z) (i : ahtable_iter_t) (r : list byte * Z)
  (rem : list (list byte * Z)) (st : list slot_t * list (option nat) * Z) :
  at_pos T bs i (r :: rem) ->
  place hash T new_n i st = place_step hash new_n r st.
Proof.
  intros Hpos. inversion Hpos as [ | j r1 r2 r0 Hrs Hi Hrem]; subst.
  destruct r as [k v]. destruct st as [[new_slots slots_next] cnt].
  destruct (iter_at_rec hash T bs W j r1 r2 k v Hrs)
    as (_ & Hkey & Hload & Hval & (old & Hold & Hbytes) & _).
  unfold place, place_step. rewrite Hkey. cbn [of_option bind fst snd].
  rewrite Hload. cbn [bind].
  destruct (hash_mod hash k new_n) as [h | ]; [ | reflexivity ]. cbn [bind].
  destruct (nth_error slots_next (Z.to_nat h)) as [[s | ] | ];
    try reflexivity. cbn [of_option bind].
  destruct (deref new_slots _) as [buf | ]; [ | reflexivity ]. cbn [bind].
  destruct (ins_key buf s k) as [[[buf' u] s'] | ]; [ | reflexivity ].
  cbn [bind]. rewrite Hval. cbn [of_option bind].
  rewrite Hold. cbn [bind]. rewrite Hbytes. reflexivity.
Qed.

Lemma upd_last (l : list byte) (b x : byte) :
  upd (l ++ [b]) (length l) x = l ++ [x].
Proof. induction l as [ | a l IH]; simpl; [ | rewrite IH ]; reflexivity. Qed.

(** A new slot before the second loop. *)
Lemma alloc_state (A : list (list byte * Z)) :
  slot_state (alloc_slot junk (length (enc_recs A)))
             (slot_cursor (alloc_slot junk (length (enc_recs A)))) [] A.
Proof.
  unfold alloc_slot. destruct A as [ | r A].
  - left. repeat split.
  - right. split; [ discriminate | ].
    assert (Hpos : (0 < length (enc_recs (r :: A)))%nat).
    { simpl. rewrite length_app. pose proof (enc_rec_nonempty r). lia. }
    destruct (Nat.ltb_spec 0 (length (enc_recs (r :: A)))); [ | lia ].
    destruct (split_last (malloc junk (length (enc_recs (r :: A)) + 1))
                (length (enc_recs (r :: A))))
      as (fill & b & Hm & Hfill).
    { rewrite length_malloc. lia. }
    exists fill. split; [ | split; [ exact Hfill | reflexivity ] ].
    rewrite Hm, <- Hfill, upd_last. reflexivity.
Qed.

Lemma Forall2_tab {A B : Type} (R : A -> B -> Prop) (N : nat)
  (f : nat -> A) (g : nat -> B) :
  (forall j, (j < N)%nat -> R (f j) (g j)) -> Forall2 R (tab N f) (tab N g).
Proof.
  intros H. unfold tab.
  assert (Hs : forall j, In j (seq 0 N) -> R (f j) (g j))
    by (intros j Hj; apply in_seq in Hj; apply H; lia).
  induction (seq 0 N) as [ | a l IH]; simpl; constructor.
  - apply Hs. left. reflexivity.
  - apply IH. intros j Hj. apply Hs. right. exact Hj.
Qed.

Lemma Forall_tab {A : Type} (P : A -> Prop) (N : nat) (f : nat -> A) :
  (forall j, (j < N)%nat -> P (f j)) -> Forall P (tab N f).
Proof.
  intros H. unfold tab. apply Forall_forall. intros x Hx.
  apply in_map_iff in Hx. destruct Hx as (j & <- & Hj).
  apply in_seq in Hj. apply H. lia.
Qed.

(** Keys are distinct over the whole table, not only inside a slot. *)
Lemma nodup_concat (cs : list (list (list byte * Z))) (start : nat)
  (home : list byte -> nat) :
  (forall j rs r, nth_error cs j = Some rs -> In r rs ->
                  home (fst r) = (start + j)%nat) ->
  Forall (fun rs => NoDup (map fst rs)) cs ->
  NoDup (map fst (concat cs)).
Proof.
  revert start. induction cs as [ | c cs IH]; intros start Hh Hnd.
  - constructor.
  - inversion Hnd as [ | ? ? Hc Hcs]; subst.
    simpl concat. rewrite map_app. apply NoDup_app.
    + exact Hc.
    + apply (IH (S start)); [ | exact Hcs ].
      intros j rs r Hj Hin. rewrite (Hh (S j) rs r Hj Hin). lia.
    + intros key Hin1 Hin2.
      apply in_map_iff in Hin1. destruct Hin1 as (r1 & <- & Hr1).
      apply in_map_iff in Hin2. destruct Hin2 as (r2 & Heq & Hr2).
      apply in_concat in Hr2. destruct Hr2 as (rs & Hrs & Hr2).
      apply In_nth_error in Hrs. destruct Hrs as (j & Hj).
      pose proof (Hh O c r1 eq_refl Hr1) as H1.
      pose proof (Hh (S j) rs r2 Hj Hr2) as H2.
      rewrite Heq in H2. lia.
Qed.

Lemma wf_nodup_all : NoDup (map fst (concat bs)).
Proof.
  apply (nodup_concat bs 0 (fun k => Z.to_nat (slot_index hash (n T) k))).
  - intros j rs r Hj Hin. rewrite (wf_home _ _ _ W j rs r Hj Hin). lia.
  - apply (wf_nodup _ _ _ W).
Qed.

Lemma nodup_filter_keys (f : list byte * Z -> bool)
  (l : list (list byte * Z)) :
  NoDup (map fst l) -> NoDup (map fst (filter f l)).
Proof.
  induction l as [ | r l IH]; simpl; intros H; [ constructor | ].
  inversion H as [ | ? ? Hnot Hl]; subst.
  destruct (f r); [ | auto ].
  simpl. constructor; [ | auto ].
  intros Hin. apply Hnot.
  apply in_map_iff in Hin. destruct Hin as (r' & Hr' & Hin).
  apply filter_In in Hin. apply in_map_iff. exists r'. tauto.
Qed.

Lemma wf_good_all : Forall good_rec (concat bs).
Proof.
  apply Forall_forall. intros r Hin.
  apply in_concat in Hin. destruct Hin as (rs & Hrs & Hin).
  pose proof (wf_good _ _ _ W) as Hg. rewrite Forall_forall in Hg.
  specialize (Hg rs Hrs). rewrite Forall_forall in Hg. apply (Hg r Hin).
Qed.

(** Expansion of a well-formed table: the new table has twice the slots,
    the threshold [5 * n], the same [m] and metadata, every record lies in
    the slot its key hashes to, in the order of the traversal, and the
    records are the same as before. *)
Lemma expand_wf :
  2 * n T < 2 ^ 64 -> m T < 2 ^ 64 ->
  exists T',
    ahtable_expand hash junk T = Ok T' /\
    wf_table hash T' (rehash hash (2 * n T) (concat bs)) /\
    n T' = 2 * n T /\ max_m T' = 5 * n T' /\ m T' = m T /\
    flag T' = flag T /\ c0 T' = c0 T /\ c1 T' = c1 T /\
    Permutation (concat bs) (concat (rehash hash (2 * n T) (concat bs))).
Proof.
  intros Hn Hm.
  pose proof (wf_pos _ _ _ W) as Hpos.
  assert (Hnew : 0 < 2 * n T) by lia.
  unfold ahtable_expand. cbv zeta.
  rewrite !wrap_size_small by lia.
  destruct (iter_begin_spec hash T bs W) as (i & Hi & Hat).
  rewrite Hi. cbn [bind].
  rewrite (iter_while_fold hash T bs W _ (size_step hash (2 * n T))
             (add_size_at (2 * n T)) (concat bs) i _ (iter_fuel T) Hat
             (length_concat_le_fuel hash T bs W)).
  rewrite repeat_tab, (sizes_fold hash (2 * n T) Hnew). cbn [bind].
  rewrite !map_tab.
  rewrite (iter_while_fold hash T bs W _ (place_step hash (2 * n T))
             (place_at (2 * n T)) (concat bs) i _ (iter_fuel T) Hat
             (length_concat_le_fuel hash T bs W)).
  destruct (place_fold hash (2 * n T) Hnew (concat bs) []
              (fun j => alloc_slot junk
                 (0 + length (enc_recs (bucket_of hash (2 * n T) (concat bs) j))))
              (fun j => slot_cursor (alloc_slot junk
                 (0 + length (enc_recs (bucket_of hash (2 * n T) (concat bs) j)))))
              0) as (new_slots' & cursors' & Hfold & Hfin).
  { intros j _. apply alloc_state. }
  { lia. }
  { rewrite <- (wf_m _ _ _ W). lia. }
  rewrite Hfold. cbn [bind].
  rewrite <- (wf_m _ _ _ W). rewrite Z.add_0_l, Z.eqb_refl. cbn [negb].
  eexists. split; [ reflexivity | ].
  split; [ | repeat split; apply (rehash_perm hash (2 * n T) Hnew) ].
  constructor; cbn [n m slots].
  - unfold rehash. rewrite length_tab. lia.
  - lia.
  - unfold rehash. apply Forall2_tab. intros j Hj.
    destruct (Hfin j Hj) as [(Hnil & -> & _) | (_ & fill & -> & Hfill & _)].
    + left. rewrite app_nil_r in Hnil. simpl in Hnil. auto.
    + right. simpl in Hfill. destruct fill; [ | discriminate ].
      reflexivity.
  - unfold rehash. apply Forall_tab. intros j _.
    unfold bucket_of. apply Forall_forall. intros r Hr.
    apply filter_In in Hr. destruct Hr as [Hr _].
    pose proof wf_good_all as Hg. rewrite Forall_forall in Hg. auto.
  - intros j rs r Hj Hin.
    assert (Hlt : (j < Z.to_nat (2 * n T))%nat).
    { unfold rehash in Hj. rewrite <- (length_tab (Z.to_nat (2 * n T))
         (bucket_of hash (2 * n T) (concat bs))).
      apply nth_error_Some. congruence. }
    unfold rehash in Hj. rewrite nth_error_tab in Hj by exact Hlt.
    inversion Hj; subst rs. unfold bucket_of in Hin.
    apply filter_In in Hin. destruct Hin as [_ Hin].
    apply Z.eqb_eq. exact Hin.
  - unfold rehash. apply Forall_tab. intros j _.
    apply nodup_filter_keys. apply wf_nodup_all.
  - rewrite (wf_m _ _ _ W). f_equal.
    apply Permutation_length. apply (rehash_perm hash (2 * n T) Hnew).
Qed.

End Expand.

(** ** [ahtable_get] on a well-formed table *)

Section Get.

Variable hash : list byte -> Z.
Variable junk : nat -> byte.

Lemma in_concat_nth {A : Type} (cs : list (list A)) (x : A) :
  In x (concat cs) <-> exists j rs, nth_error cs j = Some rs /\ In x rs.
Proof.
  rewrite in_concat. split.
  - intros (rs & Hrs & Hx). apply In_nth_error in Hrs.
    destruct Hrs as (j & Hj). eauto.
  - intros (j & rs & Hj & Hx). exists rs. split; [ | exact Hx ].
    eapply nth_error_In; eauto.
Qed.

Lemma in_concat_upd_app {A : Type} (cs : list (list A)) (i : nat)
  (rs extra : list A) (x : A) :
  nth_error cs i = Some rs ->
  (In x (concat (upd cs i (rs ++ extra))) <-> In x extra \/ In x (concat cs)).
Proof.
  intros Hi. rewrite (in_concat_upd cs i rs _ x Hi), in_concat_nth. split.
  - intros [H | (j & rs' & _ & Hj & Hx)].
    + apply in_app_or in H. destruct H as [H | H]; [ right | left; exact H ].
      exists i, rs. auto.
    + right. exists j, rs'. auto.
  - intros [H | (j & rs' & Hj & Hx)].
    + left. apply in_or_app. right. exact H.
    + destruct (Nat.eq_dec j i) as [-> | Hne].
      * left. rewrite Hi in Hj. inversion Hj; subst.
        apply in_or_app. left. exact Hx.
      * right. exists j, rs'. auto.
Qed.

(** The expansion that [get_key] runs first when the table is at
    capacity. *)
Lemma maybe_expand (T : ahtable_t) (bs : list (list (list byte * Z))) :
  wf_table hash T bs -> 2 * n T < 2 ^ 64 -> m T < 2 ^ 64 ->
  exists T0 bs0,
    (if true && (max_m T <=? m T) then ahtable_expand hash junk T else Ok T)
    = Ok T0 /\
    wf_table hash T0 bs0 /\ m T0 = m T /\
    (forall r, In r (concat bs0) <-> In r (concat bs)) /\
    (n T0 = n T /\ max_m T0 = max_m T /\ m T < max_m T \/
     n T0 = 2 * n T /\ max_m T0 = 5 * n T0 /\ max_m T <= m T) /\
    flag T0 = flag T /\ c0 T0 = c0 T /\ c1 T0 = c1 T.
Proof.
  intros W Hn Hm. cbn [andb].
  destruct (Z.leb_spec (max_m T) (m T)) as [Hfull | Hroom].
  - destruct (expand_wf hash junk T bs W Hn Hm)
      as (T' & He & W' & Hn' & Hl' & Hm' & Hf & H0 & H1 & Hperm).
    exists T', (rehash hash (2 * n T) (concat bs)).
    split; [ exact He | ]. split; [ exact W' | ]. split; [ exact Hm' | ].
    split; [ | auto ].
    intros r. split.
    + apply Permutation_in. apply Permutation_sym. exact Hperm.
    + apply Permutation_in. exact Hperm.
  - exists T, bs.
    split; [ reflexivity | ]. split; [ exact W | ]. split; [ reflexivity | ].
    split; [ tauto | auto ].
Qed.

Lemma key_in_bucket (T : ahtable_t) (bs : list (list (list byte * Z)))
  (rs : list (list byte * Z)) (key : list byte) :
  wf_table hash T bs ->
  nth_error bs (Z.to_nat (slot_index hash (n T) key)) = Some rs ->
  (In key (map fst rs) <-> In key (map fst (concat bs))).
Proof.
  intros W Hrs. split.
  - intros H. apply in_map_iff in H. destruct H as (r & Hr & Hin).
    apply in_map_iff. exists r. split; [ exact Hr | ].
    apply in_concat_nth. eauto.
  - intros H. apply in_map_iff in H. destruct H as ([k v] & Hr & Hin).
    simpl in Hr. subst k.
    destruct (wf_in_home hash T bs key v W Hin) as (rs' & Hrs' & Hin').
    rewrite Hrs in Hrs'. inversion Hrs'; subst rs'.
    apply in_map_iff. exists (key, v). auto.
Qed.

(** [get_key] behind the expansion, on a well-formed table: the handle
    returned is that of a record for the key, which is the record stored
    before, or a new last record of its slot with the value 0. *)
Lemma get_key_slot_wf (T : ahtable_t) (bs : list (list (list byte * Z)))
  (key : list byte) :
  wf_table hash T bs -> decodable (length key) -> m T + 1 < 2 ^ 64 ->
  exists T' bs' r1 v r2,
    get_key_slot junk T (slot_index hash (n T) key) key true
    = Ok (T', Some (mkptr (Z.to_nat (slot_index hash (n T) key))
                      (value_off r1 key))) /\
    wf_table hash T' bs' /\
    nth_error bs' (Z.to_nat (slot_index hash (n T) key))
    = Some (r1 ++ (key, v) :: r2) /\
    n T' = n T /\ max_m T' = max_m T /\
    flag T' = flag T /\ c0 T' = c0 T /\ c1 T' = c1 T /\
    ((In (key, v) (concat bs) /\ T' = T /\ bs' = bs) \/
     (~ In key (map fst (concat bs)) /\ v = 0 /\ r2 = [] /\
      m T' = m T + 1 /\
      forall r, In r (concat bs') <-> r = (key, 0) \/ In r (concat bs))).
Proof.
  intros W Hd Hm.
  pose proof (slot_index_bound hash (n T) key (wf_pos _ _ _ W)) as Hi.
  destruct (wf_slot hash T bs _ W Hi) as (sl & rs & Hsl & Hrs & _ & _ & _).
  destruct (in_dec (list_eq_dec byte_eq_dec) key (map fst rs)) as [Hin | Hnot].
  - apply in_map_iff in Hin. destruct Hin as ([k v] & Hk & Hin).
    simpl in Hk. subst k.
    destruct (in_split _ _ Hin) as (r1 & r2 & ->).
    exists T, bs, r1, v, r2.
    split; [ eapply get_key_slot_hit; eauto | ].
    split; [ exact W | ]. split; [ exact Hrs | ].
    do 5 (split; [ reflexivity | ]).
    left. repeat split. apply in_concat_nth. eauto.
  - exists (set_slot T (slot_index hash (n T) key)
              (enc_recs (rs ++ [(key, 0)]) ++ [x00]) (wrap_size (m T + 1))),
           (upd bs (Z.to_nat (slot_index hash (n T) key)) (rs ++ [(key, 0)])),
           rs, 0, [].
    split; [ eapply get_key_slot_insert; eauto | ].
    split; [ apply wf_insert; auto | ].
    split; [ apply nth_error_upd_eq; apply nth_error_Some; congruence | ].
    do 5 (split; [ reflexivity | ]).
    right. split; [ rewrite <- (key_in_bucket T bs rs key W Hrs); exact Hnot | ].
    repeat split.
    + cbn [set_slot m]. pose proof (wf_m_nonneg hash T bs W).
      apply wrap_size_small. lia.
    + intros H. apply (in_concat_upd_app bs _ rs [(key, 0)] r Hrs) in H.
      destruct H as [[<- | []] | H]; auto.
    + intros H. apply (in_concat_upd_app bs _ rs [(key, 0)] r Hrs).
      destruct H as [-> | H]; [ left; left; reflexivity | right; exact H ].
Qed.

Lemma get_key_unfold (T T0 : ahtable_t) (key : list byte) (ins : bool) :
  (if ins && (max_m T <=? m T) then ahtable_expand hash junk T else Ok T)
  = Ok T0 ->
  n T0 <> 0 ->
  get_key hash junk T key ins
  = get_key_slot junk T0 (slot_index hash (n T0) key) key ins.
Proof.
  intros H Hn. unfold get_key. rewrite H. cbn [bind]. unfold hash_mod.
  destruct (Z.eqb_spec (n T0) 0) as [ | _]; [ contradiction | ].
  reflexivity.
Qed.

(** [ahtable_get] on a well-formed table, for a key of decodable length:
    a stored key yields its handle and the size stays; a key that is not
    stored is appended to its slot with the value 0 and the size grows by
    one.  An expansion runs first when the table is at capacity. *)
Lemma get_wf (T : ahtable_t) (bs : list (list (list byte * Z)))
  (key : list byte) :
  wf_table hash T bs -> good_key key ->
  2 * n T < 2 ^ 64 -> m T + 1 < 2 ^ 64 ->
  exists T' bs' p r1 v r2,
    ahtable_get hash junk T key = Ok (T', Some p) /\
    wf_table hash T' bs' /\
    p = mkptr (Z.to_nat (slot_index hash (n T') key)) (value_off r1 key) /\
    nth_error bs' (Z.to_nat (slot_index hash (n T') key))
    = Some (r1 ++ (key, v) :: r2) /\
    read_value T' p = Ok v /\
    ((In (key, v) (concat bs) /\ ahtable_size T' = ahtable_size T /\
      forall r, In r (concat bs') <-> In r (concat bs)) \/
     (~ In key (map fst (concat bs)) /\ v = 0 /\ r2 = [] /\
      ahtable_size T' = ahtable_size T + 1 /\
      forall r, In r (concat bs') <-> r = (key, 0) \/ In r (concat bs))) /\
    (n T' = n T /\ max_m T' = max_m T /\ m T < max_m T \/
     n T' = 2 * n T /\ max_m T' = 5 * n T' /\ max_m T <= m T) /\
    flag T' = flag T /\ c0 T' = c0 T /\ c1 T' = c1 T.
Proof.
  intros W Hd Hn Hm.
  pose proof (wf_m_nonneg hash T bs W) as Hm0.
  destruct (maybe_expand T bs W Hn ltac:(lia))
    as (T0 & bs0 & He & W0 & Hm0' & Hc0 & Hn0 & Hf0 & Hc00 & Hc10).
  unfold ahtable_get.
  rewrite (get_key_unfold T T0 key true He)
    by (pose proof (wf_pos _ _ _ W0); lia).
  destruct (get_key_slot_wf T0 bs0 key W0 Hd ltac:(lia))
    as (T' & bs' & r1 & v & r2 & Hget & W' & Hb & Hn' & Hl' & Hf' & Hc0' & Hc1'
        & Hcase).
  exists T', bs', (mkptr (Z.to_nat (slot_index hash (n T0) key)) (value_off r1 key)),
         r1, v, r2.
  pose proof (slot_index_bound hash (n T0) key (wf_pos _ _ _ W0)) as Hi.
  split; [ exact Hget | ].
  split; [ exact W' | ].
  rewrite Hn'.
  split; [ reflexivity | ]. split; [ exact Hb | ].
  split; [ apply (read_value_at hash T' bs' _ r1 r2 key v W');
           [ lia | exact Hb ] | ].
  split.
  { destruct Hcase as [(Hin & -> & ->) | (Hnot & Hv & Hr2 & Hm' & Hc')].
    - left. split; [ apply Hc0; exact Hin | ].
      split; [ unfold ahtable_size; lia | exact Hc0 ].
    - right. split.
      + intros Hin. apply Hnot.
        apply in_map_iff in Hin. destruct Hin as (r & Hr & Hin).
        apply in_map_iff. exists r. split; [ exact Hr | ].
        apply Hc0. exact Hin.
      + repeat split; auto.
        * unfold ahtable_size. lia.
        * intros H. apply Hc' in H. destruct H as [H | H];
            [ left; exact H | right; apply Hc0; exact H ].
        * intros H. apply Hc'. destruct H as [H | H];
            [ left; exact H | right; apply Hc0; exact H ]. }
  split; [ | repeat split; congruence ].
  destruct Hn0 as [(Hn0 & Hl0 & Hroom) | (Hn0 & Hl0 & Hfull)]; [ left | right ];
    repeat split; lia.
Qed.

(** The content of a table after a value is written through the handle
    of the record for [key]. *)
Lemma content_write (T : ahtable_t) (bs : list (list (list byte * Z)))
  (r1 r2 : list (list byte * Z)) (key : list byte) (v0 v : Z) :
  wf_table hash T bs ->
  nth_error bs (Z.to_nat (slot_index hash (n T) key))
  = Some (r1 ++ (key, v0) :: r2) ->
  forall k' v',
    In (k', v') (concat (upd bs (Z.to_nat (slot_index hash (n T) key))
                           (r1 ++ (key, v) :: r2)))
    <-> (k' = key /\ v' = v) \/ (k' <> key /\ In (k', v') (concat bs)).
Proof.
  intros W Hrs k' v'.
  set (i := Z.to_nat (slot_index hash (n T) key)) in *.
  pose proof (slot_index_bound hash (n T) key (wf_pos _ _ _ W)) as Hi.
  assert (Hnd : NoDup (map fst (r1 ++ (key, v0) :: r2))).
  { pose proof (wf_nodup _ _ _ W) as H. rewrite Forall_forall in H.
    apply (H _ (nth_error_In _ _ Hrs)). }
  assert (Hout : forall x, In (key, x) (r1 ++ r2) -> False).
  { intros x Hx. rewrite map_app in Hnd. simpl in Hnd.
    apply NoDup_remove_2 in Hnd. apply Hnd. rewrite <- map_app.
    apply in_map_iff. exists (key, x). auto. }
  assert (Hother : forall j rs x, j <> i -> nth_error bs j = Some rs ->
                                  In (key, x) rs -> False).
  { intros j rs x Hne Hj Hx.
    pose proof (wf_home _ _ _ W j rs (key, x) Hj Hx) as H. simpl in H.
    subst i. lia. }
  rewrite (in_concat_upd bs i _ _ (k', v') Hrs). split.
  - intros [H | (j & rs & Hne & Hj & Hx)].
    + apply in_app_or in H. destruct H as [H | [H | H]].
      * right. split.
        { intros ->. apply (Hout v'). apply in_or_app. auto. }
        { apply in_concat_nth. exists i, (r1 ++ (key, v0) :: r2).
          split; [ exact Hrs | apply in_or_app; auto ]. }
      * inversion H. auto.
      * right. split.
        { intros ->. apply (Hout v'). apply in_or_app. auto. }
        { apply in_concat_nth. exists i, (r1 ++ (key, v0) :: r2).
          split; [ exact Hrs | apply in_or_app; right; right; exact H ]. }
    + right. split.
      * intros ->. apply (Hother j rs v' Hne Hj Hx).
      * apply in_concat_nth. eauto.
  - intros [[-> ->] | [Hne H]].
    + left. apply in_or_app. right. left. reflexivity.
    + apply in_concat_nth in H. destruct H as (j & rs & Hj & Hx).
      destruct (Nat.eq_dec j i) as [-> | Hji].
      * left. rewrite Hrs in Hj. inversion Hj; subst rs.
        apply in_app_or in Hx. destruct Hx as [Hx | [Hx | Hx]].
        { apply in_or_app. auto. }
        { inversion Hx. congruence. }
        { apply in_or_app. right. right. exact Hx. }
      * right. eauto.
Qed.

(** Insertion of a pair: [ahtable_get], then a write through the handle. *)
Lemma put_wf (T : ahtable_t) (bs : list (list (list byte * Z)))
  (key : list byte) (v : Z) :
  wf_table hash T bs -> good_key key -> good_value v ->
  2 * n T < 2 ^ 64 -> m T + 1 < 2 ^ 64 ->
  exists T' bs',
    put hash junk T (key, v) = Ok T' /\
    wf_table hash T' bs' /\
    (forall k' v', In (k', v') (concat bs')
                   <-> (k' = key /\ v' = v) \/
                       (k' <> key /\ In (k', v') (concat bs))) /\
    (In key (map fst (concat bs)) /\ m T' = m T \/
     ~ In key (map fst (concat bs)) /\ m T' = m T + 1) /\
    (n T' = n T /\ max_m T' = max_m T /\ m T < max_m T \/
     n T' = 2 * n T /\ max_m T' = 5 * n T' /\ max_m T <= m T).
Proof.
  intros W Hd Hv Hn Hm.
  destruct (get_wf T bs key W Hd Hn Hm)
    as (T1 & bs1 & p & r1 & v0 & r2 & Hget & W1 & -> & Hb & _ & Hcase
        & Hgrow & _).
  pose proof (slot_index_bound hash (n T1) key (wf_pos _ _ _ W1)) as Hi.
  destruct (write_value_at hash T1 bs1 _ r1 r2 key v0 v W1 Hi Hb Hv)
    as (T2 & Hw & W2 & Hn2 & Hm2 & Hl2).
  exists T2, (upd bs1 (Z.to_nat (slot_index hash (n T1) key))
                (r1 ++ (key, v) :: r2)).
  split.
  { unfold put. cbn [fst snd]. rewrite Hget. cbn [bind of_option]. exact Hw. }
  split; [ exact W2 | ].
  split.
  { intros k' v'. rewrite (content_write T1 bs1 r1 r2 key v0 v W1 Hb k' v').
    destruct Hcase as [(Hin & _ & Hc) | (Hnot & _ & _ & _ & Hc)].
    - rewrite Hc. tauto.
    - rewrite Hc. split.
      + intros [H | [Hne [H | H]]]; auto.
        inversion H. congruence.
      + intros [H | [Hne H]]; auto. }
  unfold ahtable_size in Hcase.
  split.
  { destruct Hcase as [(Hin & Hs & _) | (Hnot & _ & _ & Hs & _)].
    - left. split; [ | lia ].
      apply in_map_iff. exists (key, v0). auto.
    - right. split; [ exact Hnot | lia ]. }
  destruct Hgrow as [(Hg1 & Hg2 & Hg3) | (Hg1 & Hg2 & Hg3)];
    [ left | right ]; repeat split; lia.
Qed.

Lemma concat_repeat_nil {A : Type} (k : nat) :
  concat (repeat (@nil A) k) = [].
Proof. induction k as [ | k IH]; simpl; auto. Qed.

Lemma slot_repr_repeat (k : nat) :
  Forall2 slot_repr (repeat None k) (repeat [] k).
Proof.
  induction k as [ | k IH]; simpl; constructor; auto. left. auto.
Qed.

Lemma wf_repeat_None (T : ahtable_t) :
  0 < n T -> m T = 0 -> slots T = repeat None (Z.to_nat (n T)) ->
  wf_table hash T (repeat [] (Z.to_nat (n T))).
Proof.
  intros Hn Hm Hs. constructor.
  - rewrite repeat_length. lia.
  - exact Hn.
  - rewrite Hs. apply slot_repr_repeat.
  - apply Forall_forall. intros rs Hrs. apply repeat_spec in Hrs. subst.
    constructor.
  - intros j rs r Hj Hin. apply nth_error_In in Hj.
    apply repeat_spec in Hj. subst. contradiction.
  - apply Forall_forall. intros rs Hrs. apply repeat_spec in Hrs. subst.
    constructor.
  - rewrite concat_repeat_nil. exact Hm.
Qed.

(** A new table is well-formed, with no records. *)
Lemma create_n_ok (n0 : Z) :
  1 <= n0 < 2 ^ 61 ->
  table_ok hash (ahtable_create_n n0) (repeat [] (Z.to_nat n0)).
Proof.
  intros Hn. split; [ | reflexivity ].
  apply (wf_repeat_None (ahtable_create_n n0)).
  - cbn [ahtable_create_n n]. lia.
  - reflexivity.
  - apply (create_n_slots n0). lia.
Qed.

(** A run of insertions of pairs with distinct keys. *)
Lemma put_all_wf (kvs : list (list byte * Z)) :
  forall (T : ahtable_t) (bs : list (list (list byte * Z))) (N0 : Z),
    table_ok hash T bs ->
    n T <= Z.max N0 (m T) ->
    Z.max N0 (m T + Z.of_nat (length kvs)) < 2 ^ 62 ->
    Forall good_key (map fst kvs) -> Forall good_value (map snd kvs) ->
    NoDup (map fst kvs) ->
    exists T' bs',
      put_all hash junk T kvs = Ok T' /\
      table_ok hash T' bs' /\
      (forall k v, In (k, v) kvs -> In (k, v) (concat bs')) /\
      (forall k v, ~ In k (map fst kvs) ->
                   (In (k, v) (concat bs') <-> In (k, v) (concat bs))) /\
      (m T <= max_m T -> m T' <= max_m T') /\
      n T' <= Z.max N0 (m T') /\
      m T' <= m T + Z.of_nat (length kvs).
Proof.
  induction kvs as [ | [key v] kvs IH]; intros T bs N0 Hok Hn Hb Hk Hv Hnd.
  - exists T, bs. cbn [put_all].
    split; [ reflexivity | ]. split; [ exact Hok | ].
    split; [ intros k v [] | ]. split; [ tauto | ].
    split; [ auto | ]. split; [ exact Hn | simpl; lia ].
  - simpl in Hk, Hv, Hnd, Hb.
    inversion Hk as [ | ? ? Hk1 Hk2]; subst.
    inversion Hv as [ | ? ? Hv1 Hv2]; subst.
    inversion Hnd as [ | ? ? Hnot Hnd']; subst.
    destruct Hok as [W Hload].
    pose proof (wf_m_nonneg hash T bs W) as Hm0.
    pose proof (wf_pos _ _ _ W) as Hpos.
    destruct (put_wf T bs key v W Hk1 Hv1 ltac:(lia) ltac:(lia))
      as (T1 & bs1 & Hput & W1 & Hc1 & Hm1 & Hgrow).
    assert (Hok1 : table_ok hash T1 bs1).
    { split; [ exact W1 | ].
      destruct Hgrow as [(Hg & Hg' & _) | (_ & Hg & _)]; lia. }
    destruct (IH T1 bs1 N0 Hok1)
      as (T' & bs' & Hall & Hok' & Hin & Hout & Hl & Hn' & Hm');
      auto.
    { destruct Hgrow as [(Hg & _) | (Hg & _ & Hfull)];
        destruct Hm1 as [[_ Hm1] | [_ Hm1]]; lia. }
    { destruct Hm1 as [[_ Hm1] | [_ Hm1]]; lia. }
    exists T', bs'. cbn [put_all]. rewrite Hput. cbn [bind].
    split; [ exact Hall | ]. split; [ exact Hok' | ].
    split; [ | split; [ | split; [ | split ] ] ].
    + intros k' v' [H | H].
      * inversion H; subst. apply Hout; [ exact Hnot | ].
        apply Hc1. left. auto.
      * apply Hin. exact H.
    + intros k' v' Hnk. simpl in Hnk.
      rewrite Hout by tauto. rewrite Hc1. split.
      * intros [[-> _] | [_ H]]; [ tauto | exact H ].
      * intros H. right. split; [ intros ->; tauto | exact H ].
    + intros Hle. apply Hl.
      destruct Hgrow as [(_ & Hg & Hs) | (Hg1 & Hg & Hfull)];
        destruct Hm1 as [[_ Hm1] | [_ Hm1]]; lia.
    + exact Hn'.
    + simpl length. destruct Hm1 as [[_ Hm1] | [_ Hm1]]; lia.
Qed.

(** A run of insertions of new keys that never reaches the threshold:
    no expansion happens and the size grows by the number of keys. *)
Lemma put_all_fill (kvs : list (list byte * Z)) :
  forall (T : ahtable_t) (bs : list (list (list byte * Z))),
    wf_table hash T bs ->
    2 * n T < 2 ^ 64 -> max_m T < 2 ^ 64 ->
    m T + Z.of_nat (length kvs) <= max_m T ->
    Forall good_key (map fst kvs) -> Forall good_value (map snd kvs) ->
    NoDup (map fst kvs) ->
    (forall k, In k (map fst kvs) -> ~ In k (map fst (concat bs))) ->
    exists T' bs',
      put_all hash junk T kvs = Ok T' /\
      wf_table hash T' bs' /\
      n T' = n T /\ max_m T' = max_m T /\
      m T' = m T + Z.of_nat (length kvs) /\
      (forall k, In k (map fst (concat bs'))
                 <-> In k (map fst kvs) \/ In k (map fst (concat bs))).
Proof.
  induction kvs as [ | [key v] kvs IH];
    intros T bs W Hn Hmax Hroom Hk Hv Hnd Hnew.
  - exists T, bs. cbn [put_all].
    split; [ reflexivity | ]. split; [ exact W | ].
    split; [ reflexivity | ]. split; [ reflexivity | ].
    split; [ simpl; lia | ]. intros k. simpl. tauto.
  - simpl in Hk, Hv, Hnd, Hroom.
    inversion Hk as [ | ? ? Hk1 Hk2]; subst.
    inversion Hv as [ | ? ? Hv1 Hv2]; subst.
    inversion Hnd as [ | ? ? Hnot Hnd']; subst.
    destruct (put_wf T bs key v W Hk1 Hv1 Hn ltac:(lia))
      as (T1 & bs1 & Hput & W1 & Hc1 & Hm1 & Hgrow).
    assert (Hkeys : forall k, In k (map fst (concat bs1))
                              <-> k = key \/ In k (map fst (concat bs))).
    { intros k. split.
      - intros H. apply in_map_iff in H. destruct H as ([k' v'] & Hk' & H).
        simpl in Hk'. subst k'. apply Hc1 in H.
        destruct H as [[-> _] | [_ H]]; [ left; reflexivity | right ].
        apply in_map_iff. exists (k, v'). auto.
      - intros [-> | H].
        + apply in_map_iff. exists (key, v). split; [ reflexivity | ].
          apply Hc1. left. auto.
        + destruct (list_eq_dec byte_eq_dec k key) as [-> | Hne].
          * apply in_map_iff. exists (key, v). split; [ reflexivity | ].
            apply Hc1. left. auto.
          * apply in_map_iff in H. destruct H as ([k' v'] & Hk' & H).
            simpl in Hk'. subst k'.
            apply in_map_iff. exists (k, v'). split; [ reflexivity | ].
            apply Hc1. right. auto. }
    assert (Hfresh : ~ In key (map fst (concat bs)))
      by (apply Hnew; left; reflexivity).
    destruct Hm1 as [[Hin _] | [_ Hm1]]; [ contradiction | ].
    destruct Hgrow as [(Hg1 & Hg2 & _) | (_ & _ & Hfull)]; [ | lia ].
    destruct (IH T1 bs1 W1) as (T' & bs' & Hall & W' & Hn' & Hl' & Hm' & Hc');
      auto; try lia.
    { intros k Hk' H. apply Hkeys in H. destruct H as [-> | H].
      - contradiction.
      - apply (Hnew k); [ right; exact Hk' | exact H ]. }
    exists T', bs'. cbn [put_all]. rewrite Hput. cbn [bind].
    split; [ exact Hall | ]. split; [ exact W' | ].
    split; [ lia | ]. split; [ lia | ].
    split; [ simpl length; lia | ].
    intros k. rewrite Hc', Hkeys. simpl.
    split; intros H; intuition (subst; auto).
Qed.

Lemma put_all_app (T : ahtable_t) (l1 l2 : list (list byte * Z)) :
  put_all hash junk T (l1 ++ l2)
  = (T' <- put_all hash junk T l1 ;; put_all hash junk T' l2).
Proof.
  revert T. induction l1 as [ | kv l1 IH]; intros T; cbn [put_all app bind].
  - reflexivity.
  - destruct (put hash junk T kv) as [T1 | f]; cbn [bind]; auto.
Qed.

Lemma nodup_fst_eq (l : list (list byte * Z)) (k : list byte) (v v' : Z) :
  NoDup (map fst l) -> In (k, v) l -> In (k, v') l -> v = v'.
Proof.
  induction l as [ | [k0 v0] l IH]; simpl; intros Hnd H1 H2; [ contradiction | ].
  inversion Hnd as [ | ? ? Hnot Hnd']; subst.
  assert (Hk : forall x, In (k0, x) l -> False).
  { intros x Hx. apply Hnot. apply in_map_iff. exists (k0, x). auto. }
  destruct H1 as [H1 | H1]; destruct H2 as [H2 | H2].
  - congruence.
  - inversion H1; subst. exfalso. eapply Hk; eauto.
  - inversion H2; subst. exfalso. eapply Hk; eauto.
  - eapply IH; eauto.
Qed.

(** [ahtable_get] keeps the load bound, on a well-formed table and for a
    key of decodable length. *)
Lemma get_load_bound (T : ahtable_t) (bs : list (list (list byte * Z)))
  (key : list byte) :
  table_ok hash T bs -> good_key key ->
  2 * n T < 2 ^ 64 -> m T + 1 < 2 ^ 64 ->
  m T <= max_m T ->
  exists T' p,
    ahtable_get hash junk T key = Ok (T', Some p) /\ m T' <= max_m T'.
Proof.
  intros [W Hload] Hd Hn Hm Hle.
  destruct (get_wf T bs key W Hd Hn Hm)
    as (T' & bs' & p & r1 & v & r2 & Hget & _ & _ & _ & _ & Hcase & Hgrow & _).
  exists T', p. split; [ exact Hget | ].
  pose proof (wf_pos _ _ _ W).
  unfold ahtable_size in Hcase.
  destruct Hcase as [(_ & Hs & _) | (_ & _ & _ & Hs & _)];
    destruct Hgrow as [(Hg1 & Hg2 & Hg3) | (Hg1 & Hg2 & Hg3)]; lia.
Qed.

(** Round trip for keys of decodable length: after distinct keys were
    inserted into a new table, each with its value, every key is found
    with its value by [ahtable_tryget] and by [ahtable_get], the size is
    the number of keys, a traversal yields the pairs in some order, and the
    load bound holds. *)
Lemma roundtrip_decodable (n0 : Z) (kvs : list (list byte * Z)) :
  1 <= n0 -> Z.max n0 (Z.of_nat (length kvs)) < 2 ^ 50 ->
  Forall good_key (map fst kvs) -> Forall good_value (map snd kvs) ->
  NoDup (map fst kvs) ->
  exists T,
    put_all hash junk (ahtable_create_n n0) kvs = Ok T /\
    ahtable_size T = Z.of_nat (length kvs) /\
    (forall k v, In (k, v) kvs ->
       lookup hash junk T k = Ok (Some v) /\
       exists T' p, ahtable_get hash junk T k = Ok (T', Some p) /\
                    read_value T' p = Ok v) /\
    (exists l, traverse T = Ok l /\ Permutation kvs l) /\
    m T <= max_m T.
Proof.
  intros Hn Hb Hk Hv Hnd.
  assert (Hn61 : 1 <= n0 < 2 ^ 61) by lia.
  destruct (put_all_wf kvs (ahtable_create_n n0) _ n0 (create_n_ok n0 Hn61))
    as (T & bs & Hall & Hok & Hin & Hout & Hl & Hn' & Hm'); auto.
  { cbn [ahtable_create_n n m]. lia. }
  { cbn [ahtable_create_n n m]. lia. }
  destruct Hok as [W Hload].
  assert (Hperm : Permutation kvs (concat bs)).
  { apply NoDup_Permutation.
    - eapply NoDup_map_inv. exact Hnd.
    - eapply NoDup_map_inv. apply (wf_nodup_all hash T bs W).
    - intros [k v]. split; [ apply Hin | ].
      intros H.
      destruct (in_dec (list_eq_dec byte_eq_dec) k (map fst kvs)) as [Hk' | Hk'].
      + apply in_map_iff in Hk'. destruct Hk' as ([k' v'] & Heq & Hkv).
        simpl in Heq. subst k'.
        rewrite (nodup_fst_eq (concat bs) k v v'
                   (wf_nodup_all hash T bs W) H (Hin k v' Hkv)).
        exact Hkv.
      + apply (Hout k v Hk') in H. rewrite concat_repeat_nil in H.
        contradiction. }
  exists T. split; [ exact Hall | ].
  split.
  { unfold ahtable_size. rewrite (wf_m _ _ _ W).
    f_equal. symmetry. apply Permutation_length. exact Hperm. }
  split.
  { intros k v Hkv. pose proof (Hin k v Hkv) as Hkv'. split.
    - destruct (tryget_present hash junk T bs k v W Hkv') as (p & Ht & Hr).
      unfold lookup. rewrite Ht. cbn [bind]. rewrite Hr. reflexivity.
    - assert (Hgk : good_key k).
      { rewrite Forall_forall in Hk. apply Hk.
        apply in_map_iff. exists (k, v). auto. }
      cbn [ahtable_create_n m] in Hm'.
      destruct (get_wf T bs k W Hgk ltac:(lia) ltac:(lia))
        as (T' & bs' & p & r1 & v0 & r2 & Hget & _ & _ & _ & Hread & Hcase & _).
      exists T', p. split; [ exact Hget | ].
      destruct Hcase as [(Hv0 & _) | (Hnot & _)].
      + rewrite (nodup_fst_eq (concat bs) k v v0
                   (wf_nodup_all hash T bs W) Hkv' Hv0). exact Hread.
      + exfalso. apply Hnot. apply in_map_iff. exists (k, v). auto. }
  split.
  { exists (concat bs). split; [ | exact Hperm ].
    apply (traverse_wf hash T bs W). }
  apply Hl. cbn [ahtable_create_n m max_m]. unfold max_load,
    ahtable_max_load_factor. lia.
Qed.

(** The load bound after [ahtable_clear], for every hash function: a
    table created with 16 slots and cleared takes 80 new keys without an
    expansion, and the 81st insertion leaves 81 pairs under a threshold
    of 80. *)
Lemma clear_breaks_load_bound (kvs : list (list byte * Z))
  (kv : list byte * Z) :
  length kvs = 80%nat ->
  Forall good_key (map fst (kvs ++ [kv])) ->
  Forall good_value (map snd (kvs ++ [kv])) ->
  NoDup (map fst (kvs ++ [kv])) ->
  exists T,
    put_all hash junk (ahtable_clear (ahtable_create_n 16)) (kvs ++ [kv])
    = Ok T /\
    n T = 16 /\ m T = 81 /\ max_m T = 80.
Proof.
  intros Hlen Hk Hv Hnd.
  rewrite map_app in Hk, Hv, Hnd.
  apply Forall_app in Hk. destruct Hk as [Hk Hk1].
  apply Forall_app in Hv. destruct Hv as [Hv Hv1].
  inversion Hk1 as [ | ? ? Hkey _]; subst.
  inversion Hv1 as [ | ? ? Hval _]; subst.
  set (T0 := ahtable_clear (ahtable_create_n 16)).
  assert (W0 : wf_table hash T0 (repeat [] (Z.to_nat (n T0))))
    by (apply wf_repeat_None; reflexivity).
  destruct (put_all_fill kvs T0 _ W0) as (T1 & bs1 & Hall & W1 & Hn1 & Hl1 & Hm1 & Hc1).
  { reflexivity. }
  { reflexivity. }
  { rewrite Hlen. cbn. lia. }
  { exact Hk. }
  { exact Hv. }
  { apply NoDup_app_remove_r in Hnd. exact Hnd. }
  { intros k _. rewrite concat_repeat_nil. simpl. tauto. }
  rewrite Hlen in Hm1.
  change (n T0) with 8 in Hn1. change (max_m T0) with 80 in Hl1.
  change (m T0) with 0 in Hm1.
  destruct kv as [key v]. cbn [fst snd] in *.
  destruct (put_wf T1 bs1 key v W1 Hkey Hval ltac:(lia) ltac:(lia))
    as (T2 & bs2 & Hput & W2 & _ & Hm2 & Hgrow).
  exists T2. rewrite put_all_app, Hall. cbn [bind put_all].
  rewrite Hput. cbn [bind]. split; [ reflexivity | ].
  assert (Hfresh : ~ In key (map fst (concat bs1))).
  { intros H. apply Hc1 in H. rewrite concat_repeat_nil in H.
    destruct H as [H | []].
    apply NoDup_remove_2 in Hnd. apply Hnd. rewrite app_nil_r. exact H. }
  destruct Hm2 as [[Hin _] | [_ Hm2]]; [ contradiction | ].
  destruct Hgrow as [(_ & _ & Hroom) | (Hg1 & Hg2 & _)]; lia.
Qed.

End Get.

(** ** The sample table *)

Lemma sample_table_put :
  put_all hash0 junk0 ahtable_create (kvs 12) = Ok sample_table.
Proof. vm_compute. reflexivity. Qed.

Lemma sample_wf : wf_table hash0 sample_table sample_content.
Proof.
  constructor.
  - reflexivity.
  - reflexivity.
  - unfold sample_table, sample_content. cbn [slots map].
    repeat constructor; right; reflexivity.
  - unfold sample_content, good_rec, decodable.
    repeat constructor; cbn [fst snd keyk length]; lia.
  - intros j rs r Hj Hin. cbn [n sample_table].
    repeat (destruct j as [ | j];
            [ injection Hj as <-; simpl in Hin;
              repeat (destruct Hin as [<- | Hin]; [ vm_compute; reflexivity | ]);
              contradiction | ]).
    destruct j; discriminate Hj.
  - unfold sample_content.
    repeat constructor; simpl; intros H;
      repeat (destruct H as [H | H]; [ vm_compute in H; discriminate H | ]);
      exact H.
  - reflexivity.
Qed.

Lemma distinct_NoDup (l : list (list byte)) : distinct l = true -> NoDup l.
Proof.
  induction l as [ | x l IH]; cbn [distinct]; intros H; constructor.
  - apply andb_true_iff in H. destruct H as [H _].
    apply negb_true_iff in H. intros Hin.
    assert (Hex : existsb (memcmp_eq x) l = true).
    { apply existsb_exists. exists x. split; [ exact Hin | ].
      apply memcmp_eq_true. reflexivity. }
    congruence.
  - apply IH. apply andb_true_iff in H. tauto.
Qed.

Lemma kvs_good_keys (k : nat) : Forall good_key (map fst (kvs k)).
Proof.
  unfold kvs. rewrite map_map. apply Forall_forall. intros x Hx.
  apply in_map_iff in Hx. destruct Hx as (i & <- & _).
  left. simpl. lia.
Qed.

Lemma kvs_good_values (k : nat) :
  Z.of_nat k < 2 ^ 64 -> Forall good_value (map snd (kvs k)).
Proof.
  intros Hk. unfold kvs. rewrite map_map. apply Forall_forall. intros x Hx.
  apply in_map_iff in Hx. destruct Hx as (i & <- & Hi).
  apply in_seq in Hi. unfold good_value. simpl. lia.
Qed.

(** The scenario S2 of the specification, for every hash function: the 41
    keys ["k00"] to ["k40"], inserted into a new table with their indices
    as values, are all found again with their values; the size is 41. *)
Example roundtrip_41 (hash : list byte -> Z) (junk : nat -> byte) :
  exists T,
    put_all hash junk ahtable_create (kvs 41) = Ok T /\
    ahtable_size T = 41 /\
    forall i, (i < 41)%nat ->
      lookup hash junk T (keyk i) = Ok (Some (Z.of_nat i)).
Proof.
  destruct (roundtrip_decodable hash junk 8 (kvs 41)) as (T & Hput & Hsize & Hget & _).
  - lia.
  - vm_compute. reflexivity.
  - apply kvs_good_keys.
  - apply kvs_good_values. vm_compute. reflexivity.
  - apply distinct_NoDup. vm_compute. reflexivity.
  - exists T. split; [ exact Hput | ]. split; [ exact Hsize | ].
    intros i Hi. apply (Hget (keyk i) (Z.of_nat i)).
    unfold kvs. apply in_map_iff. exists i. split; [ reflexivity | ].
    apply in_seq. lia.
Qed.

(** ** Keys of invalid length *)

Section Invalid.

Variable hash : list byte -> Z.
Variable junk : nat -> byte.

Lemma decodable_range (len : nat) :
  decodable len -> (1 <= len)%nat /\ Z.of_nat len <= 32767.
Proof. unfold decodable. lia. Qed.

Lemma good_in_table (T : ahtable_t) (bs : list (list (list byte * Z)))
  (key : list byte) :
  wf_table hash T bs -> In key (map fst (concat bs)) ->
  decodable (length key).
Proof.
  intros W Hin. apply in_map_iff in Hin. destruct Hin as (r & <- & Hin).
  apply in_concat in Hin. destruct Hin as (rs & Hrs & Hin).
  pose proof (wf_good _ _ _ W) as Hg. rewrite Forall_forall in Hg.
  specialize (Hg rs Hrs). rewrite Forall_forall in Hg.
  apply (Hg r Hin).
Qed.

(** [ahtable_get] on a new table takes any key, whatever its length. *)
Lemma get_create_n (n0 : Z) (key : list byte) :
  1 <= n0 < 2 ^ 61 ->
  exists T p,
    ahtable_get hash junk (ahtable_create_n n0) key = Ok (T, Some p) /\
    ahtable_size T = 1 /\
    read_value T p = Ok 0.
Proof.
  intros Hn.
  pose proof (slot_index_bound hash n0 key ltac:(lia)) as Hi.
  unfold ahtable_get.
  rewrite get_key_no_expand
    by (cbn [ahtable_create_n n m max_m andb];
        first [ lia
              | apply Z.leb_gt; unfold max_load, ahtable_max_load_factor; lia ]).
  cbn [n ahtable_create_n].
  assert (Hs : slots (ahtable_create_n n0) = repeat None (Z.to_nat n0))
    by (apply create_n_slots; lia).
  rewrite get_key_slot_new
    by (rewrite Hs; apply nth_error_repeat_None; lia).
  eexists _, _. split; [ reflexivity | ]. split; [ reflexivity | ].
  unfold read_value, deref, set_slot. cbn [slots blk off].
  change (slots (ahtable_create_n n0)) with
    (repeat (@None (list byte)) (Z.to_nat (wrap_size (n0 * 8) / 8))).
  rewrite wrap_entries by lia.
  rewrite nth_error_upd_eq by (rewrite repeat_length; lia).
  cbn [of_option bind].
  unfold enc_rec. cbn [fst snd].
  rewrite app_assoc. rewrite <- (app_assoc (_ ++ key)).
  rewrite load_bytes_at.
  - cbn [bind]. rewrite le_combine_value; [ reflexivity | lia ].
  - unfold value_off. rewrite length_app, length_prefix_bytes. reflexivity.
  - rewrite length_le_split. reflexivity.
Qed.

(** C3, amended.  For a key of length 0 or of a length above 32767,
    [ahtable_tryget] on a well-formed table returns NULL and leaves the
    table as it is.  [ahtable_get] has no check of the length: on a new
    table of [n0] slots, [1 <= n0 < 2 ^ 61] (the sizes for which the slot
    array holds [n0] pointers), it inserts such a key like any other,
    returns a handle to a zero value, and the size becomes 1. *)
Theorem invalid_length_key (T : ahtable_t) (bs : list (list (list byte * Z)))
  (key : list byte) (n0 : Z) :
  wf_table hash T bs ->
  length key = 0%nat \/ 32767 < Z.of_nat (length key) ->
  1 <= n0 < 2 ^ 61 ->
  ahtable_tryget hash junk T key = Ok (T, None) /\
  exists T' p,
    ahtable_get hash junk (ahtable_create_n n0) key = Ok (T', Some p) /\
    ahtable_size T' = 1 /\
    read_value T' p = Ok 0.
Proof.
  intros W Hlen Hn. split.
  - apply (tryget_absent hash junk T bs key W).
    intros Hin. apply (good_in_table T bs key W) in Hin.
    apply decodable_range in Hin. lia.
  - apply get_create_n. exact Hn.
Qed.

End Invalid.

Lemma invalid_length_key_witness :
  ahtable_tryget hash0 junk0 sample_table [] = Ok (sample_table, None) /\
  exists T' p,
    ahtable_get hash0 junk0 (ahtable_create_n 8) [] = Ok (T', Some p) /\
    ahtable_size T' = 1 /\
    read_value T' p = Ok 0.
Proof.
  apply (invalid_length_key hash0 junk0 sample_table sample_content [] 8).
  - exact sample_wf.
  - left. reflexivity.
  - lia.
Defined.

(** C3, as stated, fails: [ahtable_get] with the empty key on a new table
    is not rejected; it stores a record, returns a handle, and the size
    goes from 0 to 1. *)
Lemma get_empty_key_accepted :
  exists T p,
    ahtable_get hash0 junk0 ahtable_create [] = Ok (T, Some p) /\
    ahtable_size ahtable_create = 0 /\
    ahtable_size T = 1 /\
    slots T <> slots ahtable_create.
Proof.
  eexists _, _. split; [ vm_compute; reflexivity | ].
  split; [ reflexivity | ]. split; [ reflexivity | ].
  vm_compute. discriminate.
Qed.

(** ** One key of 256 bytes

    [256 | 0x8000 = 0x8100] is stored low byte first, so the record begins
    with the byte [0x00], which every reader takes for the terminator. *)

Lemma index8_cases (i : Z) :
  0 <= i < 8 ->
  i = 0 \/ i = 1 \/ i = 2 \/ i = 3 \/ i = 4 \/ i = 5 \/ i = 6 \/ i = 7.
Proof. lia. Qed.

Ltac each_index H :=
  apply index8_cases in H;
  repeat (destruct H as [H | H]); rewrite H; clear H.

Lemma get_key256_create (hash : list byte -> Z) (junk : nat -> byte) :
  ahtable_get hash junk ahtable_create key256
  = Ok (table256 0 (slot_index hash 8 key256),
        Some (mkptr (Z.to_nat (slot_index hash 8 key256)) 258)).
Proof.
  unfold ahtable_get. rewrite get_key_no_expand by (vm_compute; congruence).
  change (n ahtable_create) with 8.
  pose proof (slot_index_bound hash 8 key256 ltac:(lia)) as Hi.
  each_index Hi; vm_compute; reflexivity.
Qed.

Lemma write_table256 (i : Z) :
  0 <= i < 8 ->
  write_value (table256 0 i) (mkptr (Z.to_nat i) 258) 7
  = Ok (table256 7 i).
Proof.
  intros Hi. unfold table256, enc_rec. cbn [fst snd].
  each_index Hi; vm_compute; reflexivity.
Qed.

Lemma put_key256_create (hash : list byte -> Z) (junk : nat -> byte) :
  put hash junk ahtable_create (key256, 7)
  = Ok (table256 7 (slot_index hash 8 key256)).
Proof.
  unfold put. cbn [fst snd]. rewrite get_key256_create. cbn [bind of_option].
  apply write_table256. apply slot_index_bound. lia.
Qed.

Lemma tryget_table256 (hash : list byte -> Z) (junk : nat -> byte) (v : Z) :
  v = 0 \/ v = 7 ->
  ahtable_tryget hash junk (table256 v (slot_index hash 8 key256)) key256
  = Ok (table256 v (slot_index hash 8 key256), None).
Proof.
  intros Hv. unfold ahtable_tryget.
  rewrite get_key_no_expand by (destruct Hv; subst v; vm_compute; congruence).
  change (n (table256 v ?i)) with 8.
  pose proof (slot_index_bound hash 8 key256 ltac:(lia)) as Hi.
  unfold table256, enc_rec. cbn [fst snd].
  destruct Hv; subst v; each_index Hi; vm_compute; reflexivity.
Qed.

Lemma get_table256 (hash : list byte -> Z) (junk : nat -> byte) :
  exists T' p,
    ahtable_get hash junk (table256 7 (slot_index hash 8 key256)) key256
    = Ok (T', Some p) /\
    ahtable_size T' = 2 /\
    read_value T' p = Ok 0.
Proof.
  pose proof (slot_index_bound hash 8 key256 ltac:(lia)) as Hi.
  unfold ahtable_get. rewrite get_key_no_expand by (vm_compute; congruence).
  change (n (table256 7 ?i)) with 8.
  unfold table256, enc_rec. cbn [fst snd].
  each_index Hi; eexists _, _;
    (split; [ vm_compute; reflexivity | ]); split; vm_compute; reflexivity.
Qed.

Lemma expand_table256 (hash : list byte -> Z) (junk : nat -> byte) (i : Z) :
  0 <= i < 8 ->
  ahtable_expand hash junk (table256 7 i) = Err AssertionFailed.
Proof.
  intros Hi. unfold table256, enc_rec. cbn [fst snd].
  each_index Hi; vm_compute; reflexivity.
Qed.

Lemma traverse_table256 (i : Z) :
  0 <= i < 8 -> traverse (table256 7 i) = Ok [].
Proof.
  intros Hi. unfold table256, enc_rec. cbn [fst snd].
  each_index Hi; vm_compute; reflexivity.
Qed.

(** C7.  For the length 256 the encoder writes the two bytes [0x00 0x81]
    (the little-endian image of [256 | 0x8000]): the high bit of byte 0 is
    not set, and the decoder run on that prefix takes the one-byte branch
    and returns the length 0, not 256. *)
Theorem ins_key_read_keylen_256 (junk : nat -> byte) :
  exists buf val s,
    ins_key (malloc junk 267) 0 key256 = Ok (buf, val, s) /\
    load_bytes buf 0 2 = Ok [x00; x81] /\
    read_keylen buf 0 = Ok (0%nat, 1%nat).
Proof.
  eexists _, _, _. split; [ vm_compute; reflexivity | ].
  split; vm_compute; reflexivity.
Qed.

(** C1.  Round trip fails for a key of 256 bytes: after the key is
    inserted into a new table and 7 is written through the handle, a
    lookup with [ahtable_tryget] reports the key absent, and a lookup with
    [ahtable_get] inserts the key a second time and hands out a value of 0. *)
Theorem roundtrip_key256 (hash : list byte -> Z) (junk : nat -> byte) :
  exists T T' p,
    put_all hash junk ahtable_create [(key256, 7)] = Ok T /\
    lookup hash junk T key256 = Ok None /\
    ahtable_get hash junk T key256 = Ok (T', Some p) /\
    read_value T' p = Ok 0.
Proof.
  destruct (get_table256 hash junk) as (T' & p & Hget & _ & Hread).
  exists (table256 7 (slot_index hash 8 key256)), T', p.
  split; [ cbn [put_all]; rewrite put_key256_create; reflexivity | ].
  split; [ unfold lookup; rewrite tryget_table256 by auto; reflexivity | ].
  split; assumption.
Qed.

(** C4.  Expansion of a table that holds a key of 256 bytes: neither
    pass of [ahtable_expand] sees the record, the placement counter falls
    short of [m], and the assertion aborts.  This holds for the table with
    that one key, whatever the hash function, and it is what happens
    through [ahtable_get] once the key and 39 more keys have brought [m]
    to the threshold 40. *)
Theorem expand_key256 (hash : list byte -> Z) (junk : nat -> byte) :
  (exists T,
     put hash junk ahtable_create (key256, 7) = Ok T /\
     ahtable_size T = 1 /\
     ahtable_expand hash junk T = Err AssertionFailed) /\
  (exists T,
     put_all hash0 junk0 ahtable_create ((key256, 7) :: kvs 39) = Ok T /\
     ahtable_size T = 40 /\ max_m T = 40 /\
     ahtable_get hash0 junk0 T (keyk 39) = Err AssertionFailed).
Proof.
  split.
  - exists (table256 7 (slot_index hash 8 key256)).
    split; [ apply put_key256_create | ]. split; [ reflexivity | ].
    apply expand_table256. apply slot_index_bound. lia.
  - eexists. split; [ vm_compute; reflexivity | ].
    repeat split; vm_compute; reflexivity.
Qed.

(** C5.  [ahtable_tryget] leaves the table as it is, but it reports a key
    of 256 bytes absent right after [ahtable_get] inserted it. *)
Theorem tryget_key256 (hash : list byte -> Z) (junk : nat -> byte) :
  exists T p,
    ahtable_get hash junk ahtable_create key256 = Ok (T, Some p) /\
    ahtable_tryget hash junk T key256 = Ok (T, None).
Proof.
  eexists _, _. split; [ apply get_key256_create | ]. apply tryget_table256. auto.
Qed.

(** C6.  A second [ahtable_get] of a key of 256 bytes that the table
    already holds does not return the existing handle: it writes the record
    anew, the value 7 stored before reads 0 afterwards, and [m] goes from 1
    to 2. *)
Theorem get_twice_key256 (hash : list byte -> Z) (junk : nat -> byte) :
  exists T T' p,
    put hash junk ahtable_create (key256, 7) = Ok T /\
    ahtable_size T = 1 /\
    ahtable_get hash junk T key256 = Ok (T', Some p) /\
    ahtable_size T' = 2 /\
    read_value T' p = Ok 0.
Proof.
  destruct (get_table256 hash junk) as (T' & p & Hget & Hsize & Hread).
  exists (table256 7 (slot_index hash 8 key256)), T', p.
  split; [ apply put_key256_create | ]. split; [ reflexivity | ].
  repeat split; assumption.
Qed.

(** C8.  A full traversal of a table that holds one key of 256 bytes
    visits no record, while [ahtable_size] is 1. *)
Theorem traverse_key256 (hash : list byte -> Z) (junk : nat -> byte) :
  exists T,
    put hash junk ahtable_create (key256, 7) = Ok T /\
    ahtable_size T = 1 /\
    traverse T = Ok [].
Proof.
  exists (table256 7 (slot_index hash 8 key256)).
  split; [ apply put_key256_create | ]. split; [ reflexivity | ].
  apply traverse_table256. apply slot_index_bound. lia.
Qed.

(** ** [ahtable_clear] *)

Lemma clear_keeps_counters (T : ahtable_t) :
  ahtable_size (ahtable_clear T) = ahtable_size T /\
  max_m (ahtable_clear T) = max_m T /\
  n (ahtable_clear T) = 8.
Proof. repeat split. Qed.

(** C2.  [ahtable_clear] resets [n] and the slots but neither [m] nor
    [max_m]: the size after a clear is the size before it, whatever the
    table, although the table then has 8 empty slots and a traversal
    yields nothing.  After 41 insertions into a new table (which expand it
    to 16 slots) and a clear, the size is still 41 and the threshold still
    80, and inserting the same 41 keys again runs into the assertion of
    [ahtable_expand]. *)
Theorem clear_keeps_size :
  (forall T,
     ahtable_size (ahtable_clear T) = ahtable_size T /\
     max_m (ahtable_clear T) = max_m T /\
     n (ahtable_clear T) = 8 /\
     traverse (ahtable_clear T) = Ok []) /\
  exists T,
    put_all hash0 junk0 ahtable_create (kvs 41) = Ok T /\
    ahtable_size (ahtable_clear T) = 41 /\
    max_m (ahtable_clear T) = 80 /\
    put_all hash0 junk0 (ahtable_clear T) (kvs 41) = Err AssertionFailed.
Proof.
  split.
  - intros T. repeat split.
  - eexists. split; [ vm_compute; reflexivity | ].
    repeat split; vm_compute; reflexivity.
Qed.

(** C9.  The stale threshold that [ahtable_clear] leaves behind breaks the
    load bound, whatever the hash function: a table created with 16 slots
    and cleared has 8 slots and the threshold 80; the keys ["k00"] to
    ["k79"] are inserted without an expansion; the insertion of ["k80"]
    expands the table to 16 slots, whose threshold is again 80, and then
    raises [m] to 81. *)
Theorem load_bound_after_clear (hash : list byte -> Z) (junk : nat -> byte) :
  exists T,
    put_all hash junk (ahtable_clear (ahtable_create_n 16)) (kvs 81) = Ok T /\
    n T = 16 /\ m T = 81 /\ max_m T = 80.
Proof.
  change (kvs 81) with (kvs 80 ++ [(keyk 80, 80)]).
  apply clear_breaks_load_bound.
  - reflexivity.
  - apply (kvs_good_keys 81).
  - apply (kvs_good_values 81). vm_compute. reflexivity.
  - apply distinct_NoDup. vm_compute. reflexivity.
Qed.

(** * Further properties of the code *)

(** ** The record writer and the length decoder *)

Lemma not_decodable_low (len : nat) :
  (1 <= len)%nat -> Z.of_nat len <= 32767 -> ~ decodable len ->
  (128 <= len)%nat /\ (len mod 256 < 128)%nat.
Proof. unfold decodable. intros H1 H2 Hn. lia. Qed.

(** X1.  The length prefix that [ins_key] writes for a key of 1 to 32767
    bytes is read back by the decoder of [get_key] and of the iterator as
    the length of the key, with the cursor behind the prefix, when the
    length is below 128 or its low byte is at least 128.  For every other
    length the decoder takes the first byte (the low byte of the stored
    [uint16_t]) for a one-byte prefix and returns the length modulo 256. *)
Theorem keylen_read_back (pre old post key : list byte) :
  length old = (prefix_size (length key) + length key + sizeof_value)%nat ->
  (1 <= length key)%nat -> Z.of_nat (length key) <= 32767 ->
  exists buf val s,
    ins_key (pre ++ old ++ post) (length pre) key = Ok (buf, val, s) /\
    (decodable (length key) ->
     read_keylen buf (length pre)
     = Ok (length key, (length pre + prefix_size (length key))%nat)) /\
    (~ decodable (length key) ->
     read_keylen buf (length pre)
     = Ok ((length key mod 256)%nat, (length pre + 1)%nat)).
Proof.
  intros Hold H1 H2.
  eexists _, _, _. split.
  - apply ins_key_at; [ reflexivity | ].
    rewrite length_enc_rec. exact Hold.
  - unfold enc_rec. cbn [fst snd]. rewrite <- !app_assoc. split.
    + intros Hd. apply read_keylen_prefix; [ reflexivity | exact Hd ].
    + intros Hn. destruct (not_decodable_low _ H1 H2 Hn) as [Hlo Hhi].
      apply read_keylen_prefix_low; [ reflexivity | lia | lia | exact Hhi ].
Qed.

Lemma keylen_read_back_witness :
  exists buf val s,
    ins_key ([x01; x00] ++ repeat xaa 12 ++ [x00]) 2 (keyk 0)
    = Ok (buf, val, s) /\
    (decodable 3 -> read_keylen buf 2 = Ok (3%nat, 3%nat)) /\
    (~ decodable 3 -> read_keylen buf 2 = Ok (3%nat, 3%nat)).
Proof.
  apply (keylen_read_back [x01; x00] (repeat xaa 12) [x00] (keyk 0)).
  - reflexivity.
  - simpl. lia.
  - simpl. lia.
Defined.

(** X2.  [ins_key] writes the prefix, the key and a zero value, one after
    the other, from its cursor on, and nothing else; the cursor it returns
    is [len + sizeof(value_t) + (len >= 128 ? 2 : 1)] bytes further, which
    is the size that [ahtable_expand] and [get_key] reserve for the record;
    the value pointer is the cursor behind the key. *)
Theorem ins_key_layout (pre old post key : list byte) :
  length old = record_size (length key) ->
  exists buf val s,
    ins_key (pre ++ old ++ post) (length pre) key = Ok (buf, val, s) /\
    buf = pre ++ (prefix_bytes (length key) ++ key ++ le_split sizeof_value 0)
              ++ post /\
    s = (length pre + record_size (length key))%nat /\
    (val + sizeof_value)%nat = s /\
    load_bytes buf (val - length key) (length key) = Ok key /\
    load_bytes buf val sizeof_value = Ok (le_split sizeof_value 0) /\
    length buf = length (pre ++ old ++ post).
Proof.
  intros Hold.
  pose proof (record_size_eq (key, 0)) as Hrs. cbn [fst] in Hrs.
  pose proof (length_enc_rec (key, 0)) as Hlen. cbn [fst] in Hlen.
  pose proof (length_prefix_bytes (length key)) as Hpre.
  eexists _, _, _. split.
  - apply ins_key_at; [ reflexivity | congruence ].
  - split; [ reflexivity | ].
    split; [ lia | ]. split; [ reflexivity | ].
    unfold enc_rec. cbn [fst snd].
    split; [ | split ].
    + replace (pre ++ (prefix_bytes (length key) ++ key
                       ++ le_split sizeof_value 0) ++ post)
        with ((pre ++ prefix_bytes (length key)) ++ key
              ++ (le_split sizeof_value 0 ++ post))
        by (rewrite <- !app_assoc; reflexivity).
      apply load_bytes_at; [ | reflexivity ].
      rewrite length_app. lia.
    + replace (pre ++ (prefix_bytes (length key) ++ key
                       ++ le_split sizeof_value 0) ++ post)
        with ((pre ++ prefix_bytes (length key) ++ key)
              ++ le_split sizeof_value 0 ++ post)
        by (rewrite <- !app_assoc; reflexivity).
      apply load_bytes_at.
      * rewrite !length_app. lia.
      * rewrite length_le_split. reflexivity.
    + rewrite !length_app, length_le_split in *. lia.
Qed.

Lemma ins_key_layout_witness :
  exists buf val s,
    ins_key ([x01; x00] ++ repeat xaa 12 ++ [x00]) 2 (keyk 0)
    = Ok (buf, val, s) /\
    buf = [x01; x00]
          ++ (prefix_bytes 3 ++ keyk 0 ++ le_split sizeof_value 0) ++ [x00] /\
    s = (2 + record_size 3)%nat /\
    (val + sizeof_value)%nat = s /\
    load_bytes buf (val - 3) 3 = Ok (keyk 0) /\
    load_bytes buf val sizeof_value = Ok (le_split sizeof_value 0) /\
    length buf = 15%nat.
Proof.
  apply (ins_key_layout [x01; x00] (repeat xaa 12) [x00] (keyk 0)).
  reflexivity.
Defined.

(** ** Lookup *)

(** X3.  On a well-formed table [ahtable_tryget] returns a handle to the
    value stored for the key when the key is in the table, and NULL when it
    is not; the table is left as it was. *)
Theorem tryget_finds (hash : list byte -> Z) (junk : nat -> byte)
  (T : ahtable_t) (bs : list (list (list byte * Z))) (key : list byte) :
  wf_table hash T bs ->
  (forall v, In (key, v) (concat bs) ->
     exists p, ahtable_tryget hash junk T key = Ok (T, Some p) /\
               read_value T p = Ok v) /\
  (~ In key (map fst (concat bs)) ->
     ahtable_tryget hash junk T key = Ok (T, None)).
Proof.
  intros W. split.
  - intros v Hin. apply (tryget_present hash junk T bs key v W Hin).
  - intros Hout. apply (tryget_absent hash junk T bs key W Hout).
Qed.

Lemma tryget_finds_witness :
  (forall v, In (keyk 10, v) (concat sample_content) ->
     exists p, ahtable_tryget hash0 junk0 sample_table (keyk 10)
               = Ok (sample_table, Some p) /\
               read_value sample_table p = Ok v) /\
  (~ In (keyk 10) (map fst (concat sample_content)) ->
     ahtable_tryget hash0 junk0 sample_table (keyk 10)
     = Ok (sample_table, None)).
Proof.
  apply (tryget_finds hash0 junk0 sample_table sample_content (keyk 10)).
  exact sample_wf.
Defined.

(** X4.  [ahtable_tryget] never changes the table, whatever the table
    holds: whenever it returns, the table is the one it was given. *)
Theorem tryget_never_writes (hash : list byte -> Z) (junk : nat -> byte)
  (T T' : ahtable_t) (key : list byte) (h : option ptr) :
  ahtable_tryget hash junk T key = Ok (T', h) -> T' = T.
Proof. apply tryget_frame. Qed.

Lemma tryget_never_writes_witness :
  ahtable_tryget hash0 junk0 sample_table (keyk 10)
  = Ok (sample_table, Some (mkptr 3 16)) /\
  sample_table = sample_table.
Proof.
  split.
  - vm_compute. reflexivity.
  - apply (tryget_never_writes hash0 junk0 sample_table sample_table
             (keyk 10) (Some (mkptr 3 16))).
    vm_compute. reflexivity.
Defined.

(** ** Insertion *)

(** X5.  [ahtable_get] on a well-formed table, with a key whose length
    prefix reads back: when the key is stored, the handle of its value is
    returned, and neither the size nor the pairs of the table change; when
    it is not, a record with the value zero is added, the size grows by
    one, every other pair stays, and the handle points at the zero.  The
    table stays well-formed and its three metadata bytes are kept. *)
Theorem get_finds_or_inserts (hash : list byte -> Z) (junk : nat -> byte)
  (T : ahtable_t) (bs : list (list (list byte * Z))) (key : list byte) :
  wf_table hash T bs -> good_key key ->
  2 * n T < 2 ^ 64 -> m T + 1 < 2 ^ 64 ->
  exists T' bs' p v,
    ahtable_get hash junk T key = Ok (T', Some p) /\
    wf_table hash T' bs' /\
    read_value T' p = Ok v /\
    In (key, v) (concat bs') /\
    ((In (key, v) (concat bs) /\ ahtable_size T' = ahtable_size T /\
      forall r, In r (concat bs') <-> In r (concat bs)) \/
     (~ In key (map fst (concat bs)) /\ v = 0 /\
      ahtable_size T' = ahtable_size T + 1 /\
      forall r, In r (concat bs') <-> r = (key, 0) \/ In r (concat bs))) /\
    flag T' = flag T /\ c0 T' = c0 T /\ c1 T' = c1 T.
Proof.
  intros W Hk Hn Hm.
  destruct (get_wf hash junk T bs key W Hk Hn Hm)
    as (T' & bs' & p & r1 & v & r2 & Hget & W' & _ & Hnth & Hread & Hcase
        & _ & Hmeta).
  exists T', bs', p, v.
  split; [ exact Hget | ]. split; [ exact W' | ]. split; [ exact Hread | ].
  split.
  { apply in_concat_nth. eexists _, _. split; [ exact Hnth | ].
    apply in_or_app. right. left. reflexivity. }
  split; [ | exact Hmeta ].
  destruct Hcase as [(Hin & Hsz & Hc) | (Hout & Hv & _ & Hsz & Hc)].
  - left. auto.
  - right. auto.
Qed.

Lemma get_finds_or_inserts_witness :
  wf_table hash0 sample_table sample_content /\
  exists T' bs' p v,
    ahtable_get hash0 junk0 sample_table (keyk 20) = Ok (T', Some p) /\
    wf_table hash0 T' bs' /\
    read_value T' p = Ok v /\
    In (keyk 20, v) (concat bs') /\
    ((In (keyk 20, v) (concat sample_content) /\
      ahtable_size T' = ahtable_size sample_table /\
      forall r, In r (concat bs') <-> In r (concat sample_content)) \/
     (~ In (keyk 20) (map fst (concat sample_content)) /\ v = 0 /\
      ahtable_size T' = ahtable_size sample_table + 1 /\
      forall r, In r (concat bs')
                <-> r = (keyk 20, 0) \/ In r (concat sample_content))) /\
    flag T' = flag sample_table /\ c0 T' = c0 sample_table /\
    c1 T' = c1 sample_table.
Proof.
  split; [ exact sample_wf | ].
  apply (get_finds_or_inserts hash0 junk0 sample_table sample_content
           (keyk 20)).
  - exact sample_wf.
  - left. simpl. lia.
  - vm_compute. reflexivity.
  - vm_compute. reflexivity.
Defined.

(** X6.  On a well-formed table, and for a key whose length prefix reads
    back, [ahtable_get] doubles the number of slots exactly when the table
    holds [max_m] pairs or more on entry, before it looks for the key: the
    table is expanded then also when the key is already stored and nothing
    is inserted.  Below [max_m] the number of slots and [max_m] are kept,
    and a get of a stored key returns the table as it was. *)
Theorem get_expands_at_capacity (hash : list byte -> Z) (junk : nat -> byte)
  (T : ahtable_t) (bs : list (list (list byte * Z))) (key : list byte) :
  wf_table hash T bs -> good_key key ->
  2 * n T < 2 ^ 64 -> m T + 1 < 2 ^ 64 ->
  exists T' p,
    ahtable_get hash junk T key = Ok (T', Some p) /\
    (m T < max_m T -> n T' = n T /\ max_m T' = max_m T) /\
    (max_m T <= m T -> n T' = 2 * n T /\ max_m T' = 5 * n T') /\
    (In key (map fst (concat bs)) -> ahtable_size T' = ahtable_size T) /\
    (In key (map fst (concat bs)) -> m T < max_m T -> T' = T).
Proof.
  intros W Hk Hn Hm.
  destruct (get_wf hash junk T bs key W Hk Hn Hm)
    as (T' & bs' & p & r1 & v & r2 & Hget & W' & _ & Hnth & Hread & Hcase
        & Hgrow & _).
  exists T', p. split; [ exact Hget | ].
  split; [ | split; [ | split ] ]; cycle 3.
  { intros Hin Hlt.
    destruct (get_key_slot_wf hash junk T bs key W Hk Hm)
      as (T1 & bs1 & q1 & v1 & q2 & Hslot & _ & _ & _ & _ & _ & _ & _ & Hc).
    unfold ahtable_get in Hget.
    rewrite get_key_no_expand in Hget.
    - rewrite Hslot in Hget. inversion Hget; subst T'.
      destruct Hc as [(_ & HT & _) | (Hout & _)];
        [ exact HT | contradiction ].
    - cbn [andb]. apply Z.leb_gt. exact Hlt.
    - pose proof (wf_pos _ _ _ W). lia. }
  - intros Hlt. destruct Hgrow as [(H1 & H2 & _) | (_ & _ & H3)];
      [ auto | lia ].
  - intros Hge. destruct Hgrow as [(_ & _ & H3) | (H1 & H2 & _)];
      [ lia | auto ].
  - intros Hin.
    destruct Hcase as [(_ & Hsz & _) | (Hout & _)];
      [ exact Hsz | contradiction ].
Qed.

Lemma kvs_distinct (k : nat) : (k <= 100)%nat -> NoDup (map fst (kvs k)).
Proof.
  intros Hk. unfold kvs. rewrite map_map. cbn [fst].
  assert (H : NoDup (map keyk (seq 0 100))).
  { apply distinct_NoDup. vm_compute. reflexivity. }
  replace 100%nat with (k + (100 - k))%nat in H by lia.
  rewrite seq_app, map_app in H.
  apply NoDup_app_remove_r in H. exact H.
Qed.

Lemma get_expands_at_capacity_witness :
  exists T0 T' p,
    put_all hash0 junk0 ahtable_create (kvs 40) = Ok T0 /\
    n T0 = 8 /\ m T0 = 40 /\ max_m T0 = 40 /\
    ahtable_get hash0 junk0 T0 (keyk 0) = Ok (T', Some p) /\
    n T' = 16 /\ max_m T' = 80 /\ ahtable_size T' = 40.
Proof.
  destruct (put_all_fill hash0 junk0 (kvs 40) ahtable_create
              (repeat [] (Z.to_nat 8)))
    as (T0 & bs0 & Hput & W0 & Hn & Hmax & Hm & Hkeys).
  - apply (create_n_ok hash0 8). lia.
  - vm_compute. reflexivity.
  - vm_compute. reflexivity.
  - vm_compute. discriminate.
  - apply kvs_good_keys.
  - apply kvs_good_values. vm_compute. reflexivity.
  - apply kvs_distinct. lia.
  - intros k _ H. simpl in H. exact H.
  - change (n ahtable_create) with 8 in Hn.
    change (max_m ahtable_create) with 40 in Hmax.
    change (m ahtable_create + Z.of_nat (length (kvs 40))) with 40 in Hm.
    destruct (get_expands_at_capacity hash0 junk0 T0 bs0 (keyk 0) W0)
      as (T' & p & Hget & _ & Hfull & Hsize & _).
    + left. simpl. lia.
    + lia.
    + lia.
    + exists T0, T', p.
      destruct Hfull as [Hn' Hmax']; [ lia | ].
      repeat (split; [ first [ assumption | lia ] | ]).
      unfold ahtable_size in *. rewrite Hsize; [ exact Hm | ].
      apply Hkeys. left. vm_compute. auto.
Defined.

(** ** Writing a value *)

(** X7.  A value written through the handle that [ahtable_tryget] returns
    for a stored key replaces the value of that key and of no other: every
    other pair of the table is kept, and so are the number of slots, the
    size and [max_m]. *)
Theorem write_through_handle (hash : list byte -> Z) (junk : nat -> byte)
  (T : ahtable_t) (bs : list (list (list byte * Z))) (key : list byte)
  (v0 v : Z) :
  wf_table hash T bs -> In (key, v0) (concat bs) -> good_value v ->
  exists p T' bs',
    ahtable_tryget hash junk T key = Ok (T, Some p) /\
    write_value T p v = Ok T' /\
    wf_table hash T' bs' /\
    (forall k' v', In (k', v') (concat bs')
                   <-> (k' = key /\ v' = v) \/
                       (k' <> key /\ In (k', v') (concat bs))) /\
    n T' = n T /\ ahtable_size T' = ahtable_size T /\ max_m T' = max_m T /\
    exists p', ahtable_tryget hash junk T' key = Ok (T', Some p') /\
               read_value T' p' = Ok v.
Proof.
  intros W Hin Hv.
  destruct (wf_in_home hash T bs key v0 W Hin) as (rs & Hrs & Hin').
  apply in_split in Hin'. destruct Hin' as (r1 & r2 & ->).
  pose proof (slot_index_bound hash (n T) key (wf_pos _ _ _ W)) as Hi.
  destruct (write_value_at hash T bs _ r1 r2 key v0 v W Hi Hrs Hv)
    as (T' & Hw & W' & Hn' & Hm' & Hl').
  exists (mkptr (Z.to_nat (slot_index hash (n T) key)) (value_off r1 key)),
    T', (upd bs (Z.to_nat (slot_index hash (n T) key)) (r1 ++ (key, v) :: r2)).
  split.
  { unfold ahtable_tryget.
    rewrite get_key_no_expand
      by (simpl; auto; pose proof (wf_pos _ _ _ W); lia).
    eapply get_key_slot_hit; eauto. }
  split; [ exact Hw | ]. split; [ exact W' | ].
  assert (Hc := content_write hash T bs r1 r2 key v0 v W Hrs).
  split; [ exact Hc | ].
  split; [ exact Hn' | ]. split; [ exact Hm' | ]. split; [ exact Hl' | ].
  apply (tryget_present hash junk T' _ key v W').
  apply Hc. left. auto.
Qed.

Lemma write_through_handle_witness :
  wf_table hash0 sample_table sample_content /\
  In (keyk 10, 10) (concat sample_content) /\
  exists p T' bs',
    ahtable_tryget hash0 junk0 sample_table (keyk 10)
    = Ok (sample_table, Some p) /\
    write_value sample_table p 77 = Ok T' /\
    wf_table hash0 T' bs' /\
    (forall k' v', In (k', v') (concat bs')
                   <-> (k' = keyk 10 /\ v' = 77) \/
                       (k' <> keyk 10 /\ In (k', v') (concat sample_content))) /\
    n T' = n sample_table /\ ahtable_size T' = ahtable_size sample_table /\
    max_m T' = max_m sample_table /\
    exists p', ahtable_tryget hash0 junk0 T' (keyk 10) = Ok (T', Some p') /\
               read_value T' p' = Ok 77.
Proof.
  split; [ exact sample_wf | ].
  split; [ vm_compute; tauto | ].
  apply (write_through_handle hash0 junk0 sample_table sample_content
           (keyk 10) 10 77).
  - exact sample_wf.
  - vm_compute. tauto.
  - unfold good_value. lia.
Defined.

(** ** Any sequence of insertions *)

Lemma last_put_in (kvs : list (list byte * Z)) (k : list byte) :
  In k (map fst kvs) <-> exists v, last_put kvs k = Some v.
Proof.
  induction kvs as [ | [k0 v0] kvs IH]; cbn [last_put map fst snd In].
  - split; [ contradiction | intros [v H]; discriminate H ].
  - split.
    + intros [-> | H].
      * destruct (last_put kvs k) as [v' | ]; [ eauto | ].
        exists v0.
        destruct (memcmp_eq k k) eqn:E; [ reflexivity | ].
        assert (memcmp_eq k k = true) by (apply memcmp_eq_true; reflexivity).
        congruence.
      * apply IH in H. destruct H as [v H]. rewrite H. eauto.
    + intros [v H]. destruct (last_put kvs k) as [v' | ] eqn:E.
      * right. apply IH. eauto.
      * destruct (memcmp_eq k0 k) eqn:E'; [ | discriminate H ].
        left. apply memcmp_eq_true. exact E'.
Qed.

Section Fill.

Variable hash : list byte -> Z.
Variable junk : nat -> byte.
Variable n0 : Z.
Hypothesis n0_range : 1 <= n0 < 2 ^ 61.

Lemma steady_create : steady hash n0 (ahtable_create_n n0) (repeat [] (Z.to_nat n0)).
Proof.
  split; [ apply create_n_ok; lia | ].
  cbn [ahtable_create_n m max_m n]. unfold max_load, ahtable_max_load_factor.
  split; [ lia | ]. split; [ exists 0%nat; simpl; lia | ]. left. reflexivity.
Qed.

Lemma steady_put (T : ahtable_t) (bs : list (list (list byte * Z)))
  (key : list byte) (v : Z) :
  steady hash n0 T bs -> good_key key -> good_value v -> m T + 1 < 2 ^ 62 ->
  exists T' bs',
    put hash junk T (key, v) = Ok T' /\
    steady hash n0 T' bs' /\
    (forall k' v', In (k', v') (concat bs')
                   <-> (k' = key /\ v' = v) \/
                       (k' <> key /\ In (k', v') (concat bs))) /\
    m T <= m T' <= m T + 1.
Proof.
  intros ([W Hmax] & Hload & [j Hj] & Hgrown) Hk Hv Hm.
  pose proof (wf_pos _ _ _ W) as Hpos.
  destruct (put_wf hash junk T bs key v W Hk Hv) as
    (T' & bs' & Hput & W' & Hc & Hsize & Hgrow); [ lia | lia | ].
  exists T', bs'. split; [ exact Hput | ].
  split; [ | split; [ exact Hc | lia ] ].
  destruct Hgrow as [(Hn' & Hmax' & Hlt) | (Hn' & Hmax' & Hge)].
  - split; [ split; [ exact W' | lia ] | ].
    split; [ lia | ]. split; [ exists j; lia | lia ].
  - split; [ split; [ exact W' | lia ] | ].
    split; [ lia | ]. split.
    + exists (S j). rewrite Hn', Hj, Nat2Z.inj_succ, Z.pow_succ_r by lia. lia.
    + right. lia.
Qed.

Lemma steady_put_all (kvs : list (list byte * Z)) :
  forall (T : ahtable_t) (bs : list (list (list byte * Z))),
    steady hash n0 T bs ->
    Forall good_key (map fst kvs) -> Forall good_value (map snd kvs) ->
    m T + Z.of_nat (length kvs) < 2 ^ 62 ->
    exists T' bs',
      put_all hash junk T kvs = Ok T' /\
      steady hash n0 T' bs' /\
      (forall k v, In (k, v) (concat bs')
                   <-> match last_put kvs k with
                       | Some v' => v = v'
                       | None => In (k, v) (concat bs)
                       end) /\
      m T' <= m T + Z.of_nat (length kvs).
Proof.
  induction kvs as [ | [key v0] kvs IH]; intros T bs St Hk Hv Hm.
  - exists T, bs. split; [ reflexivity | ]. split; [ exact St | ].
    split; [ | cbn [length]; lia ].
    intros k v. reflexivity.
  - cbn [map fst snd length] in Hk, Hv, Hm.
    inversion Hk as [ | ? ? Hk1 Hk2 ]; subst.
    inversion Hv as [ | ? ? Hv1 Hv2 ]; subst.
    destruct (steady_put T bs key v0 St Hk1 Hv1) as
      (T1 & bs1 & Hput & St1 & Hc1 & Hm1); [ lia | ].
    destruct (IH T1 bs1 St1 Hk2 Hv2) as (T' & bs' & Hall & St' & Hc' & Hm');
      [ lia | ].
    exists T', bs'. split.
    { cbn [put_all]. rewrite Hput. exact Hall. }
    split; [ exact St' | ].
    split; [ | cbn [length]; lia ].
    intros k v. rewrite Hc'. cbn [last_put fst snd].
    destruct (last_put kvs k) as [v' | ]; [ reflexivity | ].
    rewrite Hc1.
    destruct (memcmp_eq key k) eqn:E.
    + apply memcmp_eq_true in E. subst k. split.
      * intros [[_ H] | [H _]]; [ exact H | congruence ].
      * intros ->. left. auto.
    + assert (Hne : k <> key).
      { intros ->.
        assert (memcmp_eq key key = true) by (apply memcmp_eq_true; reflexivity).
        congruence. }
      split.
      * intros [[H _] | [_ H]]; [ congruence | exact H ].
      * intros H. right. auto.
Qed.

Lemma steady_fill (kvs : list (list byte * Z)) :
  Forall good_key (map fst kvs) -> Forall good_value (map snd kvs) ->
  Z.of_nat (length kvs) < 2 ^ 62 ->
  exists T bs,
    put_all hash junk (ahtable_create_n n0) kvs = Ok T /\
    steady hash n0 T bs /\
    (forall k v, In (k, v) (concat bs) <-> last_put kvs k = Some v) /\
    m T <= Z.of_nat (length kvs).
Proof.
  intros Hk Hv Hlen.
  destruct (steady_put_all kvs _ _ steady_create Hk Hv) as
    (T & bs & Hall & St & Hc & Hm).
  { cbn [ahtable_create_n m]. lia. }
  cbn [ahtable_create_n m] in Hm.
  exists T, bs. split; [ exact Hall | ]. split; [ exact St | ].
  split; [ | lia ].
  intros k v. rewrite Hc. rewrite concat_repeat_nil.
  destruct (last_put kvs k) as [v' | ].
  - split; [ intros ->; reflexivity | intros H; inversion H; reflexivity ].
  - split; [ contradiction | discriminate ].
Qed.

Lemma lookup_content (T : ahtable_t) (bs : list (list (list byte * Z)))
  (kvs : list (list byte * Z)) (k : list byte) :
  wf_table hash T bs ->
  (forall k v, In (k, v) (concat bs) <-> last_put kvs k = Some v) ->
  lookup hash junk T k = Ok (last_put kvs k).
Proof.
  intros W Hc. unfold lookup.
  destruct (last_put kvs k) as [v | ] eqn:E.
  - apply Hc in E.
    destruct (tryget_present hash junk T bs k v W E) as (p & Hget & Hread).
    rewrite Hget. cbn [bind]. rewrite Hread. reflexivity.
  - rewrite (tryget_absent hash junk T bs k W); [ reflexivity | ].
    intros Hin. apply in_map_iff in Hin. destruct Hin as ([k' v] & Hk' & Hin).
    cbn [fst] in Hk'. subst k'. apply Hc in Hin. congruence.
Qed.

Lemma size_content (T : ahtable_t) (bs : list (list (list byte * Z)))
  (kvs : list (list byte * Z)) :
  wf_table hash T bs ->
  (forall k v, In (k, v) (concat bs) <-> last_put kvs k = Some v) ->
  ahtable_size T = Z.of_nat (length (keys_of kvs)).
Proof.
  intros W Hc. unfold ahtable_size. rewrite (wf_m _ _ _ W).
  f_equal. rewrite <- (length_map fst (concat bs)).
  apply Permutation_length. apply NoDup_Permutation.
  - apply (wf_nodup_all hash T bs W).
  - apply NoDup_nodup.
  - intros k. unfold keys_of. rewrite nodup_In, (last_put_in kvs k). split.
    + intros Hin. apply in_map_iff in Hin.
      destruct Hin as ([k' v] & Hk' & Hin). cbn [fst] in Hk'. subst k'.
      exists v. apply Hc. exact Hin.
    + intros [v Hv]. apply in_map_iff. exists (k, v).
      split; [ reflexivity | apply Hc; exact Hv ].
Qed.

End Fill.

(** X8.  The table is a finite map.  After any sequence of fewer than
    [2 ^ 50] insertions into a new table of [n0] slots, [1 <= n0 < 2 ^ 50]
    (each an [ahtable_get] followed by a write through the handle; keys may
    repeat, and every key has a length whose prefix reads back), a lookup
    of any key returns the value written last for it, or nothing when the
    key was never inserted, and the size is the number of different
    keys. *)
Theorem put_all_last_wins (hash : list byte -> Z) (junk : nat -> byte)
  (n0 : Z) (kvs : list (list byte * Z)) :
  1 <= n0 < 2 ^ 50 -> Z.of_nat (length kvs) < 2 ^ 50 ->
  Forall good_key (map fst kvs) -> Forall good_value (map snd kvs) ->
  exists T,
    put_all hash junk (ahtable_create_n n0) kvs = Ok T /\
    (forall k, lookup hash junk T k = Ok (last_put kvs k)) /\
    ahtable_size T = Z.of_nat (length (keys_of kvs)).
Proof.
  intros Hn Hlen Hk Hv.
  assert (Hn61 : 1 <= n0 < 2 ^ 61) by lia.
  destruct (steady_fill hash junk n0 Hn61 kvs Hk Hv) as
    (T & bs & Hall & ([W _] & _) & Hc & _); [ lia | ].
  exists T. split; [ exact Hall | ]. split.
  - intros k. apply (lookup_content hash junk T bs kvs k W Hc).
  - apply (size_content hash T bs kvs W Hc).
Qed.

Lemma put_all_last_wins_witness :
  exists T,
    put_all hash0 junk0 (ahtable_create_n 8)
      ((keyk 1, 5) :: (keyk 2, 6) :: (keyk 1, 7) :: kvs 1) = Ok T /\
    (forall k, lookup hash0 junk0 T k
               = Ok (last_put ((keyk 1, 5) :: (keyk 2, 6) :: (keyk 1, 7)
                               :: kvs 1) k)) /\
    ahtable_size T = 3.
Proof.
  apply (put_all_last_wins hash0 junk0 8
           ((keyk 1, 5) :: (keyk 2, 6) :: (keyk 1, 7) :: kvs 1)).
  - lia.
  - vm_compute. reflexivity.
  - repeat constructor; simpl; lia.
  - repeat constructor; unfold good_value; simpl; lia.
Defined.

(** X9.  The load of a table that insertions alone have built.  After
    any sequence of fewer than [2 ^ 50] insertions of keys whose length
    prefixes read back, into a table created with [n0] slots,
    [1 <= n0 < 2 ^ 50], [max_m] is five times the number of slots, the
    size is at most [max_m], the number of slots is [n0] doubled some
    number of times, and, unless it is still [n0], the table holds at
    least two and a half pairs per slot.  The number of slots stays in the
    range in which the product with the load factor is exact. *)
Theorem load_window (hash : list byte -> Z) (junk : nat -> byte)
  (n0 : Z) (kvs : list (list byte * Z)) :
  1 <= n0 < 2 ^ 50 -> Z.of_nat (length kvs) < 2 ^ 50 ->
  Forall good_key (map fst kvs) -> Forall good_value (map snd kvs) ->
  exists T,
    put_all hash junk (ahtable_create_n n0) kvs = Ok T /\
    max_m T = 5 * n T /\
    ahtable_size T <= max_m T /\
    (exists j, n T = n0 * 2 ^ Z.of_nat j) /\
    (n T = n0 \/ 5 * n T <= 2 * ahtable_size T) /\
    5 * n T < 2 ^ 53.
Proof.
  intros Hn Hlen Hk Hv.
  assert (Hn61 : 1 <= n0 < 2 ^ 61) by lia.
  destruct (steady_fill hash junk n0 Hn61 kvs Hk Hv) as
    (T & bs & Hall & ([_ Hmax] & Hload & Hpow & Hgrown) & _ & Hm); [ lia | ].
  exists T. unfold ahtable_size.
  do 5 (split; [ assumption | ]). lia.
Qed.

Lemma load_window_witness :
  exists T,
    put_all hash0 junk0 (ahtable_create_n 8) (kvs 41) = Ok T /\
    max_m T = 5 * n T /\
    ahtable_size T <= max_m T /\
    (exists j, n T = 8 * 2 ^ Z.of_nat j) /\
    (n T = 8 \/ 5 * n T <= 2 * ahtable_size T) /\
    5 * n T < 2 ^ 53.
Proof.
  apply (load_window hash0 junk0 8 (kvs 41)).
  - lia.
  - vm_compute. reflexivity.
  - apply kvs_good_keys.
  - apply kvs_good_values. vm_compute. reflexivity.
Defined.

(** ** Expansion *)

Lemma lookup_wf (hash : list byte -> Z) (junk : nat -> byte)
  (T : ahtable_t) (bs : list (list (list byte * Z))) (key : list byte) :
  wf_table hash T bs ->
  (forall v, In (key, v) (concat bs) -> lookup hash junk T key = Ok (Some v)) /\
  (~ In key (map fst (concat bs)) -> lookup hash junk T key = Ok None).
Proof.
  intros W. unfold lookup. split.
  - intros v Hin.
    destruct (tryget_present hash junk T bs key v W Hin) as (p & Hget & Hread).
    rewrite Hget. cbn [bind]. rewrite Hread. reflexivity.
  - intros Hout. rewrite (tryget_absent hash junk T bs key W Hout).
    reflexivity.
Qed.

(** X10.  [ahtable_expand] on a well-formed table: the assertion holds and
    the table comes back with twice the slots, [max_m] five times their
    number, the same size and metadata bytes, and the same pairs, each in
    the slot its hash selects among the new slots and in the order of the
    traversal of the old table.  Every lookup gives what it gave before. *)
Theorem expand_keeps_pairs (hash : list byte -> Z) (junk : nat -> byte)
  (T : ahtable_t) (bs : list (list (list byte * Z))) :
  wf_table hash T bs -> 2 * n T < 2 ^ 64 -> m T < 2 ^ 64 ->
  exists T',
    ahtable_expand hash junk T = Ok T' /\
    wf_table hash T' (rehash hash (2 * n T) (concat bs)) /\
    n T' = 2 * n T /\ max_m T' = 5 * n T' /\
    ahtable_size T' = ahtable_size T /\
    flag T' = flag T /\ c0 T' = c0 T /\ c1 T' = c1 T /\
    Permutation (concat bs) (concat (rehash hash (2 * n T) (concat bs))) /\
    forall key, lookup hash junk T' key = lookup hash junk T key.
Proof.
  intros W Hn Hm.
  destruct (expand_wf hash junk T bs W Hn Hm) as
    (T' & Hex & W' & Hn' & Hmax' & Hm' & Hf & Hc0 & Hc1 & Hperm).
  exists T'. do 8 (split; [ assumption | ]).
  split; [ exact Hperm | ].
  intros key.
  destruct (lookup_wf hash junk T bs key W) as [Hin Hout].
  destruct (lookup_wf hash junk T' _ key W') as [Hin' Hout'].
  destruct (in_dec (list_eq_dec Byte.byte_eq_dec) key (map fst (concat bs)))
    as [H | H].
  - apply in_map_iff in H. destruct H as ([k v] & Hk & H).
    cbn [fst] in Hk. subst k.
    rewrite (Hin v H). apply Hin'.
    apply (Permutation_in _ Hperm). exact H.
  - rewrite (Hout H). apply Hout'.
    intros H'. apply H.
    apply (Permutation_in _ (Permutation_sym (Permutation_map fst Hperm))).
    exact H'.
Qed.

Lemma expand_keeps_pairs_witness :
  wf_table hash0 sample_table sample_content /\
  exists T',
    ahtable_expand hash0 junk0 sample_table = Ok T' /\
    wf_table hash0 T' (rehash hash0 (2 * n sample_table)
                         (concat sample_content)) /\
    n T' = 2 * n sample_table /\ max_m T' = 5 * n T' /\
    ahtable_size T' = ahtable_size sample_table /\
    flag T' = flag sample_table /\ c0 T' = c0 sample_table /\
    c1 T' = c1 sample_table /\
    Permutation (concat sample_content)
      (concat (rehash hash0 (2 * n sample_table) (concat sample_content))) /\
    forall key, lookup hash0 junk0 T' key = lookup hash0 junk0 sample_table key.
Proof.
  split; [ exact sample_wf | ].
  apply (expand_keeps_pairs hash0 junk0 sample_table sample_content).
  - exact sample_wf.
  - vm_compute. reflexivity.
  - vm_compute. reflexivity.
Defined.

(** ** Traversal *)

(** X11.  A traversal of a well-formed table with the iterator, from
    [ahtable_iter_begin] until [ahtable_iter_finished], reading key and
    value at every position, yields every stored pair once: the slots in
    ascending order, and the pairs of one slot in the order of their
    records in the buffer.  The number of pairs visited is
    [ahtable_size]. *)
Theorem traverse_in_slot_order (hash : list byte -> Z) (T : ahtable_t)
  (bs : list (list (list byte * Z))) :
  wf_table hash T bs ->
  traverse T = Ok (concat bs) /\
  Z.of_nat (length (concat bs)) = ahtable_size T.
Proof. intros W. apply (traverse_wf hash T bs W). Qed.

Lemma traverse_in_slot_order_witness :
  wf_table hash0 sample_table sample_content /\
  traverse sample_table = Ok (concat sample_content) /\
  Z.of_nat (length (concat sample_content)) = ahtable_size sample_table.
Proof.
  split; [ exact sample_wf | ].
  apply (traverse_in_slot_order hash0 sample_table sample_content).
  exact sample_wf.
Defined.

(** X12.  Round trip for different keys.  After the pairs of a list of
    fewer than [2 ^ 50] pairs with pairwise different keys (each of a length
    whose prefix reads back) were inserted into a new table of [n0] slots,
    [1 <= n0 < 2 ^ 50], the size is the length of the list, every
    key is found with its value by [ahtable_tryget] and by [ahtable_get],
    a traversal yields the pairs of the list in some order, and the size
    does not exceed [max_m]. *)
Theorem insert_lookup_roundtrip (hash : list byte -> Z) (junk : nat -> byte)
  (n0 : Z) (kvs : list (list byte * Z)) :
  1 <= n0 < 2 ^ 50 -> Z.of_nat (length kvs) < 2 ^ 50 ->
  Forall good_key (map fst kvs) -> Forall good_value (map snd kvs) ->
  NoDup (map fst kvs) ->
  exists T,
    put_all hash junk (ahtable_create_n n0) kvs = Ok T /\
    ahtable_size T = Z.of_nat (length kvs) /\
    (forall k v, In (k, v) kvs ->
       lookup hash junk T k = Ok (Some v) /\
       exists T' p, ahtable_get hash junk T k = Ok (T', Some p) /\
                    read_value T' p = Ok v) /\
    (exists l, traverse T = Ok l /\ Permutation kvs l) /\
    ahtable_size T <= max_m T.
Proof.
  intros Hn Hlen Hk Hv Hd.
  apply (roundtrip_decodable hash junk n0 kvs); try assumption; lia.
Qed.

Lemma insert_lookup_roundtrip_witness :
  exists T,
    put_all hash0 junk0 (ahtable_create_n 4) (kvs 50) = Ok T /\
    ahtable_size T = Z.of_nat (length (kvs 50)) /\
    (forall k v, In (k, v) (kvs 50) ->
       lookup hash0 junk0 T k = Ok (Some v) /\
       exists T' p, ahtable_get hash0 junk0 T k = Ok (T', Some p) /\
                    read_value T' p = Ok v) /\
    (exists l, traverse T = Ok l /\ Permutation (kvs 50) l) /\
    ahtable_size T <= max_m T.
Proof.
  apply (insert_lookup_roundtrip hash0 junk0 4 (kvs 50)).
  - lia.
  - vm_compute. reflexivity.
  - apply kvs_good_keys.
  - apply kvs_good_values. vm_compute. reflexivity.
  - apply kvs_distinct. lia.
Defined.

(** ** Edge cases *)

(** X13.  A table created with no slot cannot be used: [ahtable_tryget]
    and [ahtable_get] both divide by zero when they reduce the hash
    modulo the number of slots ([ahtable_get] after an expansion from zero
    to zero slots). *)
Theorem create_n_zero_faults (hash : list byte -> Z) (junk : nat -> byte)
  (key : list byte) :
  ahtable_tryget hash junk (ahtable_create_n 0) key = Err DivisionByZero /\
  ahtable_get hash junk (ahtable_create_n 0) key = Err DivisionByZero.
Proof. split; reflexivity. Qed.


(** X15.  A new key is stored behind the pairs of its slot.  When
    [ahtable_get] inserts a key whose length prefix reads back into a
    well-formed table that is below [max_m], the new pair, with the value
    zero, becomes the last pair of the slot that the hash selects; every
    other pair keeps its slot and its place, so a traversal visits the
    pairs of a slot in the order of their insertion. *)
Theorem get_appends_last (hash : list byte -> Z) (junk : nat -> byte)
  (T : ahtable_t) (bs : list (list (list byte * Z))) (key : list byte) :
  wf_table hash T bs -> good_key key ->
  ~ In key (map fst (concat bs)) ->
  m T < max_m T -> m T + 1 < 2 ^ 64 ->
  exists T' p rs,
    ahtable_get hash junk T key = Ok (T', Some p) /\
    nth_error bs (Z.to_nat (slot_index hash (n T) key)) = Some rs /\
    wf_table hash T'
      (upd bs (Z.to_nat (slot_index hash (n T) key)) (rs ++ [(key, 0)])) /\
    traverse T'
    = Ok (concat (upd bs (Z.to_nat (slot_index hash (n T) key))
                    (rs ++ [(key, 0)]))) /\
    read_value T' p = Ok 0.
Proof.
  intros W Hk Hout Hlt Hm.
  pose proof (slot_index_bound hash (n T) key (wf_pos _ _ _ W)) as Hi.
  destruct (wf_slot hash T bs _ W Hi) as (sl & rs & Hsl & Hrs & _ & _ & _).
  assert (Hnot : ~ In key (map fst rs)).
  { rewrite (key_in_bucket hash T bs rs key W Hrs). exact Hout. }
  pose proof (wf_insert hash T bs rs key W Hrs Hnot Hk Hm) as W'.
  eexists _, _, rs. split.
  { unfold ahtable_get. rewrite get_key_no_expand.
    - apply (get_key_slot_insert hash junk T bs _ rs key W Hi Hrs Hnot).
    - cbn [andb]. apply Z.leb_gt. exact Hlt.
    - pose proof (wf_pos _ _ _ W). lia. }
  split; [ exact Hrs | ]. split; [ exact W' | ].
  split; [ apply (traverse_wf hash _ _ W') | ].
  apply (read_value_at hash _ _ (slot_index hash (n T) key) rs [] key 0 W').
  - cbn [set_slot n]. exact Hi.
  - apply nth_error_upd_eq. apply nth_error_Some. rewrite Hrs. discriminate.
Qed.

Lemma get_appends_last_witness :
  wf_table hash0 sample_table sample_content /\
  ~ In (keyk 20) (map fst (concat sample_content)) /\
  exists T' p rs,
    ahtable_get hash0 junk0 sample_table (keyk 20) = Ok (T', Some p) /\
    nth_error sample_content
      (Z.to_nat (slot_index hash0 (n sample_table) (keyk 20))) = Some rs /\
    wf_table hash0 T'
      (upd sample_content
         (Z.to_nat (slot_index hash0 (n sample_table) (keyk 20)))
         (rs ++ [(keyk 20, 0)])) /\
    traverse T'
    = Ok (concat (upd sample_content
                    (Z.to_nat (slot_index hash0 (n sample_table) (keyk 20)))
                    (rs ++ [(keyk 20, 0)]))) /\
    read_value T' p = Ok 0.
Proof.
  assert (Hout : ~ In (keyk 20) (map fst (concat sample_content))).
  { vm_compute. intros H.
    repeat (destruct H as [H | H]; [ discriminate H | ]). exact H. }
  split; [ exact sample_wf | ]. split; [ exact Hout | ].
  apply (get_appends_last hash0 junk0 sample_table sample_content (keyk 20)).
  - exact sample_wf.
  - left. simpl. lia.
  - exact Hout.
  - vm_compute. reflexivity.
  - vm_compute. reflexivity.
Defined.

(** X16.  The first position of the iterator.  On a well-formed table
    [ahtable_iter_begin] returns a finished iterator exactly when the
    table holds no pair.  At a finished iterator [ahtable_iter_key] and
    [ahtable_iter_val] return NULL and [ahtable_iter_next] does nothing;
    otherwise the iterator stands at the first pair of the traversal, and
    key and value are read through the pointers it returns. *)
Theorem iter_begin_first (hash : list byte -> Z) (T : ahtable_t)
  (bs : list (list (list byte * Z))) :
  wf_table hash T bs ->
  exists i,
    ahtable_iter_begin T = Ok i /\
    (ahtable_iter_finished T i = true <-> ahtable_size T = 0) /\
    (ahtable_iter_finished T i = true ->
       ahtable_iter_key T i = Ok None /\
       ahtable_iter_val T i = Ok None /\
       ahtable_iter_next T i = Ok i) /\
    (ahtable_iter_finished T i = false ->
       exists kp vp k v rest,
         concat bs = (k, v) :: rest /\
         ahtable_iter_key T i = Ok (Some (kp, length k)) /\
         load_key T kp (length k) = Ok k /\
         ahtable_iter_val T i = Ok (Some vp) /\
         read_value T vp = Ok v).
Proof.
  intros W.
  destruct (iter_begin_spec hash T bs W) as (i & Hbegin & Hpos).
  exists i. split; [ exact Hbegin | ].
  split; [ | split ].
  - unfold ahtable_size. rewrite (wf_m _ _ _ W).
    remember (concat bs) as rem eqn:Hrem.
    destruct Hpos as [i Hend | j r1 r2 r Hj].
    + unfold ahtable_iter_finished. split; [ reflexivity | ].
      intros _. apply Z.leb_le. exact Hend.
    + unfold ahtable_iter_finished. cbn [it_i length].
      assert (Hlt : Z.of_nat j < n T).
      { rewrite (wf_n _ _ _ W).
        assert (j < length bs)%nat
          by (apply nth_error_Some; rewrite Hj; discriminate).
        lia. }
      split; [ intros E; apply Z.leb_le in E; lia | intros E; lia ].
  - intros Hfin. unfold ahtable_iter_key, ahtable_iter_val, ahtable_iter_next.
    rewrite Hfin. auto.
  - intros Hfin.
    remember (concat bs) as rem eqn:Hrem.
    destruct Hpos as [i Hend | j r1 r2 [k v] Hj].
    + unfold ahtable_iter_finished in Hfin. apply Z.leb_gt in Hfin. lia.
    + destruct (iter_at_rec hash T bs W j r1 r2 k v Hj)
        as (_ & Hkey & Hload & Hval & _ & Hread).
      eexists _, _, k, v, _.
      split; [ reflexivity | ].
      split; [ exact Hkey | ]. split; [ exact Hload | ].
      split; [ exact Hval | exact Hread ].
Qed.

Lemma iter_begin_first_witness :
  wf_table hash0 sample_table sample_content /\
  exists i,
    ahtable_iter_begin sample_table = Ok i /\
    (ahtable_iter_finished sample_table i = true
     <-> ahtable_size sample_table = 0) /\
    (ahtable_iter_finished sample_table i = true ->
       ahtable_iter_key sample_table i = Ok None /\
       ahtable_iter_val sample_table i = Ok None /\
       ahtable_iter_next sample_table i = Ok i) /\
    (ahtable_iter_finished sample_table i = false ->
       exists kp vp k v rest,
         concat sample_content = (k, v) :: rest /\
         ahtable_iter_key sample_table i = Ok (Some (kp, length k)) /\
         load_key sample_table kp (length k) = Ok k /\
         ahtable_iter_val sample_table i = Ok (Some vp) /\
         read_value sample_table vp = Ok v).
Proof.
  split; [ exact sample_wf | ].
  apply (iter_begin_first hash0 sample_table sample_content).
  exact sample_wf.
Defined.

(** ** The heap *)

Lemma load_table_nth (H : heap) (t : nat) (hd : table_rec) :
  load_table H t = HOk hd <-> nth_error H t = Some (TableRec hd).
Proof.
  unfold load_table, hload.
  destruct (nth_error H t) as [[ | | | ] | ]; cbn [hbind]; split; intros E;
    try discriminate E; inversion E; reflexivity.
Qed.

Lemma load_slots_nth (H : heap) (a : nat) (ps : list (option nat)) :
  load_slots H a = HOk ps <-> nth_error H a = Some (SlotArray ps).
Proof.
  unfold load_slots, hload.
  destruct (nth_error H a) as [[ | | | ] | ]; cbn [hbind]; split; intros E;
    try discriminate E; inversion E; reflexivity.
Qed.

Lemma load_bucket_nth (H : heap) (a : nat) (buf : list byte) :
  load_bucket H a = HOk buf <-> nth_error H a = Some (Bucket buf).
Proof.
  unfold load_bucket, hload.
  destruct (nth_error H a) as [[ | | | ] | ]; cbn [hbind]; split; intros E;
    try discriminate E; inversion E; reflexivity.
Qed.

Lemma hbind_ok {A B : Type} (r : hres A) (k : A -> hres B) (b : B) :
  hbind r k = HOk b -> exists a, r = HOk a /\ k a = HOk b.
Proof. destruct r; cbn [hbind]; intros E; [ eauto | discriminate E ]. Qed.

Lemma table_at_inv (H : heap) (t : nat) (T : ahtable_t) :
  table_at H t = HOk T ->
  exists hd ps,
    nth_error H t = Some (TableRec hd) /\
    nth_error H (r_slots hd) = Some (SlotArray ps) /\
    load_buckets H ps = HOk (slots T) /\
    T = {| flag := r_flag hd; c0 := r_c0 hd; c1 := r_c1 hd;
           n := r_n hd; m := r_m hd; max_m := r_max_m hd;
           slots := slots T |}.
Proof.
  unfold table_at. intros E.
  apply hbind_ok in E. destruct E as (hd & Ehd & E).
  apply hbind_ok in E. destruct E as (ps & Eps & E).
  apply hbind_ok in E. destruct E as (ss & Ess & E).
  inversion E; subst T; clear E. cbn [slots].
  exists hd, ps. split; [ apply load_table_nth; exact Ehd | ].
  split; [ apply load_slots_nth; exact Eps | ].
  split; [ exact Ess | reflexivity ].
Qed.

Lemma table_at_intro (H : heap) (t : nat) (hd : table_rec)
  (ps : list (option nat)) (ss : list slot_t) :
  nth_error H t = Some (TableRec hd) ->
  nth_error H (r_slots hd) = Some (SlotArray ps) ->
  load_buckets H ps = HOk ss ->
  table_at H t
  = HOk {| flag := r_flag hd; c0 := r_c0 hd; c1 := r_c1 hd;
           n := r_n hd; m := r_m hd; max_m := r_max_m hd; slots := ss |}.
Proof.
  intros Ht Hs Hb. unfold table_at.
  apply load_table_nth in Ht. rewrite Ht. cbn [hbind].
  apply load_slots_nth in Hs. rewrite Hs. cbn [hbind].
  rewrite Hb. reflexivity.
Qed.

Lemma load_buckets_inv (H : heap) (ps : list (option nat)) :
  forall ss, load_buckets H ps = HOk ss ->
    Forall2 (fun p sl =>
               match p with
               | None => sl = None
               | Some a => exists buf, sl = Some buf /\
                                       nth_error H a = Some (Bucket buf)
               end) ps ss.
Proof.
  induction ps as [ | p ps IH]; cbn [load_buckets]; intros ss E.
  - inversion E. constructor.
  - apply hbind_ok in E. destruct E as (sl & Esl & E).
    apply hbind_ok in E. destruct E as (ss' & Ess & E).
    inversion E; subst ss; clear E.
    constructor; [ | apply IH; exact Ess ].
    destruct p as [a | ]; cbn [load_slot] in Esl.
    + apply hbind_ok in Esl. destruct Esl as (buf & Ebuf & E).
      inversion E; subst sl. exists buf.
      split; [ reflexivity | apply load_bucket_nth; exact Ebuf ].
    + inversion Esl. reflexivity.
Qed.

Lemma load_buckets_intro (H : heap) (ps : list (option nat))
  (ss : list slot_t) :
  Forall2 (fun p sl =>
             match p with
             | None => sl = None
             | Some a => exists buf, sl = Some buf /\
                                     nth_error H a = Some (Bucket buf)
             end) ps ss ->
  load_buckets H ps = HOk ss.
Proof.
  induction 1 as [ | p sl ps ss Hp _ IH]; cbn [load_buckets];
    [ reflexivity | ].
  destruct p as [a | ]; cbn [load_slot].
  - destruct Hp as (buf & -> & Ha).
    apply load_bucket_nth in Ha. rewrite Ha. cbn [hbind].
    rewrite IH. reflexivity.
  - subst sl. cbn [hbind]. rewrite IH. reflexivity.
Qed.

Lemma in_bucket_addrs (ps : list (option nat)) (a : nat) :
  In a (bucket_addrs ps) <-> In (Some a) ps.
Proof.
  unfold bucket_addrs. rewrite in_flat_map. split.
  - intros ([b | ] & Hin & Ha); simpl in Ha; [ | contradiction ].
    destruct Ha as [-> | []]. exact Hin.
  - intros Hin. exists (Some a). split; [ exact Hin | left; reflexivity ].
Qed.

Lemma bucket_is_block (H : heap) (ps : list (option nat))
  (ss : list slot_t) (a : nat) :
  load_buckets H ps = HOk ss -> In a (bucket_addrs ps) ->
  exists buf, nth_error H a = Some (Bucket buf).
Proof.
  intros E Hin. apply load_buckets_inv in E. apply in_bucket_addrs in Hin.
  induction E as [ | p sl ps ss Hp _ IH]; [ contradiction | ].
  destruct Hin as [-> | Hin]; [ | apply IH; exact Hin ].
  destruct Hp as (buf & _ & Ha). eauto.
Qed.

(** Blocks that a heap keeps when it changes elsewhere. *)
Lemma load_buckets_same (H H' : heap) (ps : list (option nat))
  (ss : list slot_t) :
  load_buckets H ps = HOk ss ->
  (forall a, In a (bucket_addrs ps) -> nth_error H' a = nth_error H a) ->
  load_buckets H' ps = HOk ss.
Proof.
  intros E Hsame. apply load_buckets_intro. apply load_buckets_inv in E.
  induction E as [ | p sl ps ss Hp _ IH]; constructor.
  - destruct p as [a | ]; [ | exact Hp ].
    destruct Hp as (buf & -> & Ha). exists buf. split; [ reflexivity | ].
    rewrite Hsame; [ exact Ha | ]. simpl. left. reflexivity.
  - apply IH. intros a Ha. apply Hsame.
    unfold bucket_addrs. cbn [flat_map]. apply in_or_app. right. exact Ha.
Qed.

Lemma upd_app_l {A : Type} (l1 l2 : list A) (i : nat) (x : A) :
  (i < length l1)%nat -> upd (l1 ++ l2) i x = upd l1 i x ++ l2.
Proof.
  revert i. induction l1 as [ | a l1 IH]; intros i Hi; simpl in Hi; [ lia | ].
  destruct i as [ | i]; simpl; [ reflexivity | ].
  rewrite IH by lia. reflexivity.
Qed.

Lemma upd_app_r {A : Type} (l1 l2 : list A) (j : nat) (x : A) :
  upd (l1 ++ l2) (length l1 + j) x = l1 ++ upd l2 j x.
Proof.
  induction l1 as [ | a l1 IH]; simpl; [ reflexivity | ].
  rewrite IH. reflexivity.
Qed.

Lemma upd_app_0 {A : Type} (l1 l2 : list A) (x : A) :
  upd (l1 ++ l2) (length l1) x = l1 ++ upd l2 0 x.
Proof.
  rewrite <- (upd_app_r l1 l2 0 x). rewrite Nat.add_0_r. reflexivity.
Qed.

Lemma upd_app_1 {A : Type} (l1 l2 : list A) (x : A) :
  upd (l1 ++ l2) (S (length l1)) x = l1 ++ upd l2 1 x.
Proof.
  rewrite <- (upd_app_r l1 l2 1 x). rewrite Nat.add_1_r. reflexivity.
Qed.

Lemma nth_error_upd {A : Type} (l : list A) (i j : nat) (x : A) :
  nth_error (upd l i x) j
  = if (j =? i)%nat
    then (if (i <? length l)%nat then Some x else None)
    else nth_error l j.
Proof.
  destruct (Nat.eqb_spec j i) as [-> | Hne].
  - destruct (Nat.ltb_spec i (length l)) as [Hlt | Hge].
    + apply nth_error_upd_eq. exact Hlt.
    + apply nth_error_None. rewrite length_upd. exact Hge.
  - apply nth_error_upd_ne. auto.
Qed.

(** *** [ahtable_dup] *)

Lemma length_load_buckets (H : heap) (ps : list (option nat))
  (ss : list slot_t) :
  load_buckets H ps = HOk ss -> length ps = length ss.
Proof.
  intros E. apply load_buckets_inv in E.
  apply (Forall2_length E).
Qed.

Lemma dup_result (H : heap) (t : nat) (hd : table_rec)
  (ps : list (option nat)) :
  nth_error H t = Some (TableRec hd) ->
  nth_error H (r_slots hd) = Some (SlotArray ps) ->
  Z.of_nat (length ps) = r_n hd -> r_n hd < 2 ^ 61 ->
  ahtable_dup H t
  = HOk (H ++ [TableRec {| r_flag := r_flag hd; r_c0 := r_c0 hd;
                           r_c1 := r_c1 hd;
                           r_n := r_n hd; r_m := r_m hd;
                           r_max_m := max_load (r_n hd);
                           r_slots := S (length H) |};
               SlotArray ps],
         length H).
Proof.
  intros Ht Hs Hlen Hn.
  assert (Htl : (t < length H)%nat)
    by (apply nth_error_Some; rewrite Ht; discriminate).
  assert (Hsl : (r_slots hd < length H)%nat)
    by (apply nth_error_Some; rewrite Hs; discriminate).
  assert (Hk : Z.to_nat (wrap_size (r_n hd * 8) / 8) = length ps).
  { rewrite wrap_entries by lia. lia. }
  unfold ahtable_dup.
  rewrite (proj2 (load_table_nth H t hd) Ht). cbn [hbind].
  unfold heap_create_n.
  cbn [ahtable_create_n flag c0 c1 n m max_m slots].
  set (A := TableRec _). set (B := SlotArray _).
  assert (EA : nth_error (H ++ [A; B]) (length H) = Some A).
  { rewrite nth_error_app2 by lia. rewrite Nat.sub_diag. reflexivity. }
  assert (EB : nth_error (H ++ [A; B]) (S (length H)) = Some B).
  { rewrite nth_error_app2 by lia.
    replace (S (length H) - length H)%nat with 1%nat by lia. reflexivity. }
  assert (Et : nth_error (H ++ [A; B]) t = Some (TableRec hd)).
  { rewrite nth_error_app1 by lia. exact Ht. }
  assert (Es : nth_error (H ++ [A; B]) (r_slots hd) = Some (SlotArray ps)).
  { rewrite nth_error_app1 by lia. exact Hs. }
  subst A. rewrite (proj2 (load_table_nth _ _ _) EA). cbn [hbind].
  rewrite (proj2 (load_table_nth _ _ _) Et). cbn [hbind r_slots].
  subst B. rewrite (proj2 (load_slots_nth _ _ _) EB). cbn [hbind].
  rewrite (proj2 (load_slots_nth _ _ _) Es). cbn [hbind].
  rewrite Hk. rewrite length_map, repeat_length.
  replace (Z.to_nat (r_n hd)) with (length ps) by lia.
  rewrite Nat.leb_refl. cbn [andb].
  rewrite firstn_all.
  rewrite skipn_all2 by (rewrite length_map, repeat_length; lia).
  rewrite app_nil_r.
  rewrite upd_app_1. cbn [upd].
  set (H2 := H ++ _).
  assert (EA2 : nth_error H2 (length H) = Some (TableRec
            {| r_flag := x00; r_c0 := x00; r_c1 := x00;
               r_n := r_n hd; r_m := 0; r_max_m := max_load (r_n hd);
               r_slots := S (length H) |})).
  { subst H2. rewrite nth_error_app2 by lia. rewrite Nat.sub_diag.
    reflexivity. }
  assert (Et2 : nth_error H2 t = Some (TableRec hd)).
  { subst H2. rewrite nth_error_app1 by lia. exact Ht. }
  rewrite (proj2 (load_table_nth _ _ _) EA2). cbn [hbind].
  rewrite (proj2 (load_table_nth _ _ _) Et2). cbn [hbind].
  cbn [r_flag r_c0 r_c1 r_n r_m r_max_m r_slots].
  subst H2. rewrite upd_app_0. cbn [upd]. reflexivity.
Qed.

Lemma wf_dup_of (hash : list byte -> Z) (T : ahtable_t)
  (bs : list (list (list byte * Z))) :
  wf_table hash T bs -> table_ok hash (dup_of T) bs.
Proof.
  intros W. split.
  - destruct W. constructor; assumption.
  - reflexivity.
Qed.

(** The heap after [ahtable_dup], and the two tables in it. *)
Lemma dup_spec (H : heap) (t : nat) (T : ahtable_t) :
  table_at H t = HOk T ->
  Z.of_nat (length (slots T)) = n T -> n T < 2 ^ 61 ->
  exists H' s ps,
    ahtable_dup H t = HOk (H', s) /\
    s = length H /\
    firstn (length H) H' = H /\ length H' = (length H + 2)%nat /\
    slot_ptrs H' s = HOk ps /\ slot_ptrs H' t = HOk ps /\
    owned H' s = HOk (s :: S s :: bucket_addrs ps) /\
    table_at H' t = HOk T /\
    table_at H' s = HOk (dup_of T).
Proof.
  intros Hat Hlen Hn.
  destruct (table_at_inv H t T Hat) as (hd & ps & Ht & Hs & Hb & HT).
  assert (Hn' : n T = r_n hd) by (rewrite HT; reflexivity).
  pose proof (length_load_buckets H ps _ Hb) as Hlps.
  assert (Htl : (t < length H)%nat)
    by (apply nth_error_Some; rewrite Ht; discriminate).
  assert (Hsl : (r_slots hd < length H)%nat)
    by (apply nth_error_Some; rewrite Hs; discriminate).
  eexists _, _, ps. split.
  { apply (dup_result H t hd ps Ht Hs); lia. }
  set (A := TableRec _). set (H' := H ++ [A; SlotArray ps]).
  assert (EA : nth_error H' (length H) = Some A).
  { subst H'. rewrite nth_error_app2 by lia. rewrite Nat.sub_diag.
    reflexivity. }
  assert (EB : nth_error H' (S (length H)) = Some (SlotArray ps)).
  { subst H'. rewrite nth_error_app2 by lia.
    replace (S (length H) - length H)%nat with 1%nat by lia. reflexivity. }
  assert (Eold : forall a, (a < length H)%nat -> nth_error H' a = nth_error H a).
  { intros a Ha. subst H'. apply nth_error_app1. exact Ha. }
  assert (Hb' : load_buckets H' ps = HOk (slots T)).
  { apply (load_buckets_same H H' ps _ Hb). intros a Ha.
    apply Eold. destruct (bucket_is_block H ps _ a Hb Ha) as (buf & Hbuf).
    apply nth_error_Some. rewrite Hbuf. discriminate. }
  split; [ reflexivity | ].
  split; [ subst H'; rewrite firstn_app, Nat.sub_diag, firstn_all;
           cbn [firstn]; apply app_nil_r | ].
  split; [ subst H'; rewrite length_app; reflexivity | ].
  assert (Es : slot_ptrs H' (length H) = HOk ps).
  { unfold slot_ptrs. subst A.
    rewrite (proj2 (load_table_nth _ _ _) EA). cbn [hbind r_slots].
    apply load_slots_nth. exact EB. }
  split; [ exact Es | ].
  split.
  { unfold slot_ptrs.
    rewrite (proj2 (load_table_nth H' t hd)) by (rewrite Eold; assumption).
    cbn [hbind]. apply load_slots_nth. rewrite Eold; assumption. }
  split.
  { unfold owned. subst A.
    rewrite (proj2 (load_table_nth _ _ _) EA). cbn [hbind r_slots].
    rewrite (proj2 (load_slots_nth _ _ _) EB). reflexivity. }
  split.
  { rewrite HT. apply (table_at_intro H' t hd ps (slots T)).
    - rewrite Eold; assumption.
    - rewrite Eold; assumption.
    - exact Hb'. }
  subst A.
  rewrite (table_at_intro H' (length H) _ ps (slots T) EA EB Hb').
  rewrite HT. reflexivity.
Qed.

(** X17.  [ahtable_dup] makes a table that shares the buffers of the
    original.  It allocates two blocks, the record of the copy and its slot
    array, and no buffer; the slot array of the copy holds the addresses
    that the slot array of the original holds.  Read as a table, the copy
    has the fields and the slot contents of the original, with [max_m]
    computed anew as five times the number of slots; the original is
    unchanged. *)
Theorem dup_shares_buffers (H : heap) (t : nat) (T : ahtable_t) :
  table_at H t = HOk T ->
  Z.of_nat (length (slots T)) = n T -> n T < 2 ^ 61 ->
  exists H' s ps,
    ahtable_dup H t = HOk (H', s) /\
    s = length H /\
    firstn (length H) H' = H /\ length H' = (length H + 2)%nat /\
    slot_ptrs H' s = HOk ps /\ slot_ptrs H' t = HOk ps /\
    owned H' s = HOk (s :: S s :: bucket_addrs ps) /\
    table_at H' t = HOk T /\
    table_at H' s = HOk (dup_of T).
Proof. apply dup_spec. Qed.

Lemma sample_at : table_at sample_heap sample_addr = HOk sample_table.
Proof. vm_compute. reflexivity. Qed.

Lemma dup_shares_buffers_witness :
  table_at sample_heap sample_addr = HOk sample_table /\
  exists H' s ps,
    ahtable_dup sample_heap sample_addr = HOk (H', s) /\
    s = length sample_heap /\
    firstn (length sample_heap) H' = sample_heap /\
    length H' = (length sample_heap + 2)%nat /\
    slot_ptrs H' s = HOk ps /\ slot_ptrs H' sample_addr = HOk ps /\
    owned H' s = HOk (s :: S s :: bucket_addrs ps) /\
    table_at H' sample_addr = HOk sample_table /\
    table_at H' s = HOk (dup_of sample_table).
Proof.
  split; [ exact sample_at | ].
  apply (dup_shares_buffers sample_heap sample_addr sample_table).
  - exact sample_at.
  - reflexivity.
  - reflexivity.
Defined.

(** *** [ahtable_free] *)

Lemma length_free_list (l : list nat) :
  forall H : heap, length (free_list H l) = length H.
Proof.
  unfold free_list. induction l as [ | x l IH]; intros H; cbn [fold_left];
    [ reflexivity | ].
  rewrite IH. apply length_upd.
Qed.

Lemma free_list_other (l : list nat) :
  forall (H : heap) (a : nat),
    ~ In a l -> nth_error (free_list H l) a = nth_error H a.
Proof.
  unfold free_list. induction l as [ | x l IH]; intros H a Hout;
    cbn [fold_left]; [ reflexivity | ].
  rewrite IH by (intros Hin; apply Hout; right; exact Hin).
  apply nth_error_upd_ne. intros ->. apply Hout. left. reflexivity.
Qed.

Lemma free_list_in (l : list nat) :
  forall (H : heap) (a : nat),
    In a l -> (a < length H)%nat ->
    nth_error (free_list H l) a = Some Freed.
Proof.
  induction l as [ | x l IH]; intros H a Hin Ha; [ contradiction | ].
  change (free_list H (x :: l)) with (free_list (upd H x Freed) l).
  destruct (in_dec Nat.eq_dec a l) as [Hl | Hl].
  - apply IH; [ exact Hl | rewrite length_upd; exact Ha ].
  - destruct Hin as [-> | Hin]; [ | contradiction ].
    rewrite free_list_other by exact Hl.
    apply nth_error_upd_eq. exact Ha.
Qed.

Lemma free_list_app (H : heap) (l1 l2 : list nat) :
  free_list H (l1 ++ l2) = free_list (free_list H l1) l2.
Proof. unfold free_list. apply fold_left_app. Qed.

Lemma free_block (H : heap) (a : nat) (b : block) :
  nth_error H a = Some b -> b <> Freed ->
  free H (Some a) = HOk (upd H a Freed).
Proof.
  intros Ha Hb. unfold free. rewrite Ha.
  destruct b; [ reflexivity | reflexivity | reflexivity | congruence ].
Qed.

Lemma free_loop_spec (t : nat) (hd : table_rec) (ps : list (option nat))
  (rest : list (option nat)) :
  forall (done : list (option nat)) (H : heap),
    ps = done ++ rest ->
    Z.of_nat (length ps) = r_n hd -> r_n hd < 2 ^ 64 ->
    nth_error H t = Some (TableRec hd) ->
    nth_error H (r_slots hd) = Some (SlotArray ps) ->
    (forall a, In a (bucket_addrs rest) ->
               exists buf, nth_error H a = Some (Bucket buf)) ->
    NoDup (bucket_addrs rest) ->
    free_loop (length rest) H t (Z.of_nat (length done))
    = HOk (free_list H (bucket_addrs rest)).
Proof.
  induction rest as [ | p rest IH]; intros done H Hps Hlen Hn Ht Hs Hbk Hnd.
  - cbn [length free_loop].
    rewrite (proj2 (load_table_nth _ _ _) Ht). cbn [hbind].
    rewrite app_nil_r in Hps. subst done.
    rewrite Hlen, Z.ltb_irrefl. reflexivity.
  - cbn [length free_loop].
    rewrite (proj2 (load_table_nth _ _ _) Ht). cbn [hbind].
    assert (Hlt : Z.of_nat (length done) < r_n hd).
    { rewrite <- Hlen, Hps, length_app. cbn [length]. lia. }
    rewrite (proj2 (Z.ltb_lt _ _) Hlt).
    rewrite (proj2 (load_slots_nth _ _ _) Hs). cbn [hbind].
    rewrite Nat2Z.id.
    assert (Hp : nth_error ps (length done) = Some p).
    { rewrite Hps, nth_error_app2 by lia. rewrite Nat.sub_diag. reflexivity. }
    rewrite Hp. cbn [of_option lift hbind].
    assert (Hnext : wrap_size (Z.of_nat (length done) + 1)
                    = Z.of_nat (length (done ++ [p]))).
    { rewrite wrap_size_small by lia. rewrite length_app. cbn [length]. lia. }
    assert (Hps' : ps = (done ++ [p]) ++ rest).
    { rewrite <- app_assoc. exact Hps. }
    destruct p as [a | ].
    + destruct (Hbk a) as (buf & Hbuf).
      { unfold bucket_addrs. cbn [flat_map]. left. reflexivity. }
      rewrite (free_block H a _ Hbuf) by discriminate. cbn [hbind].
      rewrite Hnext.
      unfold bucket_addrs in Hnd |- *. cbn [flat_map app] in Hnd |- *.
      inversion Hnd as [ | ? ? Hout Hnd']; subst.
      change (free_list H (a :: flat_map
                (fun p => match p with Some a => [a] | None => [] end) rest))
        with (free_list (upd H a Freed) (bucket_addrs rest)).
      apply IH; try assumption.
      * rewrite nth_error_upd_ne; [ exact Ht | ]. intros ->. congruence.
      * rewrite nth_error_upd_ne; [ exact Hs | ]. intros ->. congruence.
      * intros a' Ha'. destruct (Hbk a') as (buf' & Hbuf').
        { unfold bucket_addrs. cbn [flat_map]. right. exact Ha'. }
        exists buf'. rewrite nth_error_upd_ne; [ exact Hbuf' | ].
        intros ->. contradiction.
    + cbn [free hbind]. rewrite Hnext.
      apply IH; try assumption.
Qed.

Lemma free_result (H : heap) (t : nat) (hd : table_rec)
  (ps : list (option nat)) (ss : list slot_t) :
  nth_error H t = Some (TableRec hd) ->
  nth_error H (r_slots hd) = Some (SlotArray ps) ->
  load_buckets H ps = HOk ss ->
  Z.of_nat (length ps) = r_n hd -> r_n hd < 2 ^ 64 ->
  NoDup (bucket_addrs ps) ->
  ahtable_free H t
  = HOk (free_list H (bucket_addrs ps ++ [r_slots hd; t])).
Proof.
  intros Ht Hs Hb Hlen Hn Hnd.
  assert (Hbk : forall a, In a (bucket_addrs ps) ->
                          exists buf, nth_error H a = Some (Bucket buf)).
  { intros a Ha. apply (bucket_is_block H ps ss a Hb Ha). }
  assert (Htb : ~ In t (bucket_addrs ps)).
  { intros Hin. destruct (Hbk t Hin) as (buf & Hbuf). congruence. }
  assert (Hsb : ~ In (r_slots hd) (bucket_addrs ps)).
  { intros Hin. destruct (Hbk _ Hin) as (buf & Hbuf). congruence. }
  unfold ahtable_free.
  rewrite (proj2 (load_table_nth _ _ _) Ht). cbn [hbind].
  replace (Z.to_nat (r_n hd)) with (length ps) by lia.
  pose proof (free_loop_spec t hd ps ps [] H eq_refl Hlen Hn Ht Hs Hbk Hnd)
    as Hloop.
  cbn [length Z.of_nat] in Hloop. rewrite Hloop. cbn [hbind].
  set (H1 := free_list H (bucket_addrs ps)).
  assert (Ht1 : nth_error H1 t = Some (TableRec hd)).
  { subst H1. rewrite free_list_other; assumption. }
  assert (Hs1 : nth_error H1 (r_slots hd) = Some (SlotArray ps)).
  { subst H1. rewrite free_list_other; assumption. }
  rewrite (proj2 (load_table_nth _ _ _) Ht1). cbn [hbind].
  rewrite (free_block H1 _ _ Hs1) by discriminate. cbn [hbind].
  rewrite (free_block _ t (TableRec hd)); [ | | discriminate ].
  - rewrite free_list_app. reflexivity.
  - rewrite nth_error_upd_ne; [ exact Ht1 | ]. intros E.
    rewrite E in Hs. congruence.
Qed.

Lemma owned_inv (H : heap) (t : nat) (l : list nat) (hd : table_rec)
  (ps : list (option nat)) :
  nth_error H t = Some (TableRec hd) ->
  nth_error H (r_slots hd) = Some (SlotArray ps) ->
  owned H t = HOk l -> l = t :: r_slots hd :: bucket_addrs ps.
Proof.
  intros Ht Hs. unfold owned.
  rewrite (proj2 (load_table_nth _ _ _) Ht). cbn [hbind].
  rewrite (proj2 (load_slots_nth _ _ _) Hs). cbn [hbind].
  intros E. inversion E. reflexivity.
Qed.

Lemma freed_table (H : heap) (t : nat) :
  nth_error H t = Some Freed ->
  table_at H t = HErr UseAfterFree /\ ahtable_free H t = HErr UseAfterFree.
Proof.
  intros Ht. unfold table_at, ahtable_free, load_table, hload.
  rewrite Ht. split; reflexivity.
Qed.

(** X18.  [ahtable_free] releases the blocks of a table, each once: the
    buffers of its slots, its slot array and its record, when these are
    pairwise different blocks.  No other block of the heap is touched.
    Afterwards the address of the table is dangling: reading the table or
    freeing it again is a use after free. *)
Theorem free_releases_table (H : heap) (t : nat) (T : ahtable_t)
  (l : list nat) :
  table_at H t = HOk T ->
  Z.of_nat (length (slots T)) = n T -> n T < 2 ^ 64 ->
  owned H t = HOk l -> NoDup l ->
  exists H',
    ahtable_free H t = HOk H' /\
    length H' = length H /\
    (forall a, In a l -> nth_error H' a = Some Freed) /\
    (forall a, ~ In a l -> nth_error H' a = nth_error H a) /\
    table_at H' t = HErr UseAfterFree /\
    ahtable_free H' t = HErr UseAfterFree.
Proof.
  intros Hat Hlen Hn Hown Hnd.
  destruct (table_at_inv H t T Hat) as (hd & ps & Ht & Hs & Hb & HT).
  assert (Hn' : n T = r_n hd) by (rewrite HT; reflexivity).
  pose proof (length_load_buckets H ps _ Hb) as Hlps.
  pose proof (owned_inv H t l hd ps Ht Hs Hown) as Hl. subst l.
  assert (Hndb : NoDup (bucket_addrs ps)).
  { inversion Hnd as [ | ? ? _ Hnd']; subst.
    inversion Hnd' as [ | ? ? _ Hnd'']; subst. exact Hnd''. }
  exists (free_list H (bucket_addrs ps ++ [r_slots hd; t])).
  split; [ apply (free_result H t hd ps _ Ht Hs Hb); [ lia | lia | exact Hndb ] | ].
  split; [ apply length_free_list | ].
  assert (Hin : forall a, In a (t :: r_slots hd :: bucket_addrs ps)
                          -> nth_error (free_list H (bucket_addrs ps
                                                       ++ [r_slots hd; t])) a
                             = Some Freed).
  { intros a Ha. apply free_list_in.
    - apply in_or_app. simpl in Ha |- *. tauto.
    - destruct Ha as [<- | [<- | Ha]].
      + apply nth_error_Some. rewrite Ht. discriminate.
      + apply nth_error_Some. rewrite Hs. discriminate.
      + destruct (bucket_is_block H ps _ a Hb Ha) as (buf & Hbuf).
        apply nth_error_Some. rewrite Hbuf. discriminate. }
  split; [ exact Hin | ].
  split.
  { intros a Ha. apply free_list_other. intros Hin'. apply Ha.
    apply in_app_or in Hin'. simpl in Hin' |- *. tauto. }
  apply freed_table. apply Hin. left. reflexivity.
Qed.

Lemma free_releases_table_witness :
  table_at sample_heap sample_addr = HOk sample_table /\
  owned sample_heap sample_addr = HOk [9; 8; 0; 1; 2; 3; 4; 5; 6; 7]%nat /\
  exists H',
    ahtable_free sample_heap sample_addr = HOk H' /\
    length H' = length sample_heap /\
    (forall a, In a [9; 8; 0; 1; 2; 3; 4; 5; 6; 7]%nat
               -> nth_error H' a = Some Freed) /\
    (forall a, ~ In a [9; 8; 0; 1; 2; 3; 4; 5; 6; 7]%nat
               -> nth_error H' a = nth_error sample_heap a) /\
    table_at H' sample_addr = HErr UseAfterFree /\
    ahtable_free H' sample_addr = HErr UseAfterFree.
Proof.
  split; [ exact sample_at | ].
  split; [ vm_compute; reflexivity | ].
  apply (free_releases_table sample_heap sample_addr sample_table).
  - exact sample_at.
  - reflexivity.
  - reflexivity.
  - vm_compute. reflexivity.
  - repeat constructor; simpl; lia.
Defined.

(** *** A table and its copy *)

Lemma first_bucket (ps : list (option nat)) :
  (exists a, In (Some a) ps) ->
  exists nones a rest,
    ps = nones ++ Some a :: rest /\ Forall (eq None) nones.
Proof.
  induction ps as [ | p ps IH]; intros (a & Ha); [ contradiction | ].
  destruct p as [b | ].
  - exists [], b, ps. split; [ reflexivity | constructor ].
  - destruct Ha as [Ha | Ha]; [ discriminate Ha | ].
    destruct (IH (ex_intro _ a Ha)) as (nones & a' & rest & -> & Hn).
    exists (None :: nones), a', rest.
    split; [ reflexivity | constructor; [ reflexivity | exact Hn ] ].
Qed.

Lemma free_loop_freed (t : nat) (hd : table_rec) (ps : list (option nat))
  (nones : list (option nat)) :
  forall (done : list (option nat)) (a : nat) (rest : list (option nat))
         (H : heap) (fuel : nat),
    ps = done ++ nones ++ Some a :: rest -> Forall (eq None) nones ->
    Z.of_nat (length ps) = r_n hd -> r_n hd < 2 ^ 64 ->
    nth_error H t = Some (TableRec hd) ->
    nth_error H (r_slots hd) = Some (SlotArray ps) ->
    nth_error H a = Some Freed -> (length nones < fuel)%nat ->
    free_loop fuel H t (Z.of_nat (length done)) = HErr DoubleFree.
Proof.
  induction nones as [ | p nones IH];
    intros done a rest H fuel Hps Hnone Hlen Hn Ht Hs Ha Hfuel;
    (destruct fuel as [ | fuel]; [ simpl in Hfuel; lia | ]);
    cbn [free_loop];
    rewrite (proj2 (load_table_nth _ _ _) Ht); cbn [hbind];
    (assert (Hlt : Z.of_nat (length done) < r_n hd)
      by (rewrite <- Hlen, Hps, !length_app; cbn [length]; lia));
    rewrite (proj2 (Z.ltb_lt _ _) Hlt);
    rewrite (proj2 (load_slots_nth _ _ _) Hs); cbn [hbind];
    rewrite Nat2Z.id.
  - assert (Hp : nth_error ps (length done) = Some (Some a)).
    { rewrite Hps, nth_error_app2 by lia. rewrite Nat.sub_diag. reflexivity. }
    rewrite Hp. cbn [of_option lift hbind free]. rewrite Ha. reflexivity.
  - inversion Hnone as [ | ? ? Hp0 Hnone']; subst p.
    assert (Hp : nth_error ps (length done) = Some None).
    { rewrite Hps, nth_error_app2 by lia. rewrite Nat.sub_diag. reflexivity. }
    rewrite Hp. cbn [of_option lift hbind free].
    assert (Hnext : wrap_size (Z.of_nat (length done) + 1)
                    = Z.of_nat (length (done ++ [None]))).
    { rewrite wrap_size_small by lia. rewrite length_app. cbn [length]. lia. }
    rewrite Hnext.
    apply (IH (done ++ [None]) a rest H fuel); try assumption.
    + rewrite <- app_assoc. exact Hps.
    + simpl in Hfuel. lia.
Qed.

Lemma load_buckets_freed (H : heap) (nones : list (option nat)) (a : nat)
  (rest : list (option nat)) :
  Forall (eq None) nones -> nth_error H a = Some Freed ->
  load_buckets H (nones ++ Some a :: rest) = HErr UseAfterFree.
Proof.
  intros Hnone Ha. induction Hnone as [ | p nones Hp _ IH].
  - cbn [app load_buckets load_slot]. unfold load_bucket, hload.
    rewrite Ha. reflexivity.
  - subst p. cbn [app load_buckets load_slot hbind]. rewrite IH. reflexivity.
Qed.

(** A table whose buffers were released through another table. *)
Lemma free_shared (H : heap) (t : nat) (hd : table_rec)
  (ps : list (option nat)) :
  nth_error H t = Some (TableRec hd) ->
  nth_error H (r_slots hd) = Some (SlotArray ps) ->
  Z.of_nat (length ps) = r_n hd -> r_n hd < 2 ^ 64 ->
  (exists a, In (Some a) ps) ->
  (forall a, In (Some a) ps -> nth_error H a = Some Freed) ->
  table_at H t = HErr UseAfterFree /\ ahtable_free H t = HErr DoubleFree.
Proof.
  intros Ht Hs Hlen Hn Hex Hfreed.
  destruct (first_bucket ps Hex) as (nones & a & rest & Hps & Hnone).
  assert (Ha : nth_error H a = Some Freed).
  { apply Hfreed. rewrite Hps. apply in_or_app. right. left. reflexivity. }
  split.
  - unfold table_at.
    rewrite (proj2 (load_table_nth _ _ _) Ht). cbn [hbind].
    rewrite (proj2 (load_slots_nth _ _ _) Hs). cbn [hbind].
    rewrite Hps, (load_buckets_freed H nones a rest Hnone Ha). reflexivity.
  - unfold ahtable_free.
    rewrite (proj2 (load_table_nth _ _ _) Ht). cbn [hbind].
    assert (Hloop : free_loop (Z.to_nat (r_n hd)) H t 0 = HErr DoubleFree).
    { apply (free_loop_freed t hd ps nones [] a rest H (Z.to_nat (r_n hd)));
        try assumption.
      rewrite <- Hlen, Nat2Z.id, Hps, length_app. cbn [length]. lia. }
    rewrite Hloop. reflexivity.
Qed.

Lemma slot_has_address (H : heap) (ps : list (option nat))
  (ss : list slot_t) (i : nat) (buf : list byte) :
  load_buckets H ps = HOk ss -> nth_error ss i = Some (Some buf) ->
  exists a, nth_error ps i = Some (Some a) /\
            nth_error H a = Some (Bucket buf).
Proof.
  intros E Hi. pose proof (length_load_buckets H ps ss E) as Hlen.
  apply load_buckets_inv in E.
  destruct (nth_error ps i) as [p | ] eqn:Hp.
  - pose proof (Forall2_nth _ ps ss i p (Some buf) E Hp Hi) as HR.
    destruct p as [a | ]; [ | discriminate HR ].
    destruct HR as (buf' & Heq & Ha). inversion Heq; subst buf'.
    exists a. split; [ reflexivity | exact Ha ].
  - apply nth_error_None in Hp.
    assert (i < length ss)%nat by (apply nth_error_Some; congruence).
    lia.
Qed.

(** X19.  Freeing a table and its copy releases the shared buffers twice.
    When a table with at least one allocated slot was duplicated, then,
    after [ahtable_free] of either of the two, the slots of the other
    point to released memory, and [ahtable_free] of the other is a double
    free. *)
Theorem dup_then_free_both (H : heap) (t : nat) (T : ahtable_t)
  (l : list nat) (buf : list byte) :
  table_at H t = HOk T ->
  Z.of_nat (length (slots T)) = n T -> n T < 2 ^ 61 ->
  owned H t = HOk l -> NoDup l ->
  In (Some buf) (slots T) ->
  exists H1 s,
    ahtable_dup H t = HOk (H1, s) /\
    (exists H2, ahtable_free H1 t = HOk H2 /\
                table_at H2 s = HErr UseAfterFree /\
                ahtable_free H2 s = HErr DoubleFree) /\
    (exists H2, ahtable_free H1 s = HOk H2 /\
                table_at H2 t = HErr UseAfterFree /\
                ahtable_free H2 t = HErr DoubleFree).
Proof.
  intros Hat Hlen Hn Hown Hnd Hbuf.
  destruct (table_at_inv H t T Hat) as (hd & ps & Ht & Hs & Hb & HT).
  assert (Hn' : n T = r_n hd) by (rewrite HT; reflexivity).
  pose proof (length_load_buckets H ps _ Hb) as Hlps.
  pose proof (owned_inv H t l hd ps Ht Hs Hown) as Hl. subst l.
  assert (Htl : (t < length H)%nat)
    by (apply nth_error_Some; rewrite Ht; discriminate).
  assert (Hsl : (r_slots hd < length H)%nat)
    by (apply nth_error_Some; rewrite Hs; discriminate).
  assert (Hbl : forall a, In a (bucket_addrs ps) -> (a < length H)%nat).
  { intros a Ha. destruct (bucket_is_block H ps _ a Hb Ha) as (b & Hbk).
    apply nth_error_Some. rewrite Hbk. discriminate. }
  assert (Hndb : NoDup (bucket_addrs ps)).
  { inversion Hnd as [ | ? ? _ Hnd']; subst.
    inversion Hnd' as [ | ? ? _ Hnd'']; subst. exact Hnd''. }
  assert (Htb : ~ In t (bucket_addrs ps)).
  { inversion Hnd as [ | ? ? Hout _]; subst. intros Hin. apply Hout.
    right. exact Hin. }
  assert (Hsb : ~ In (r_slots hd) (bucket_addrs ps)).
  { inversion Hnd as [ | ? ? _ Hnd']; subst.
    inversion Hnd' as [ | ? ? Hout _]; subst. exact Hout. }
  assert (Hex : exists a, In (Some a) ps).
  { apply In_nth_error in Hbuf. destruct Hbuf as (i & Hi).
    destruct (slot_has_address H ps _ i buf Hb Hi) as (a & Ha & _).
    exists a. apply (nth_error_In _ _ Ha). }
  eexists _, _. split.
  { apply (dup_result H t hd ps Ht Hs); lia. }
  match goal with |- context [TableRec ?r] => set (recS := r) end.
  set (H1 := H ++ [TableRec recS; SlotArray ps]).
  assert (EA : nth_error H1 (length H) = Some (TableRec recS)).
  { subst H1. rewrite nth_error_app2 by lia. rewrite Nat.sub_diag.
    reflexivity. }
  assert (EB : nth_error H1 (S (length H)) = Some (SlotArray ps)).
  { subst H1. rewrite nth_error_app2 by lia.
    replace (S (length H) - length H)%nat with 1%nat by lia. reflexivity. }
  assert (Eold : forall a, (a < length H)%nat -> nth_error H1 a = nth_error H a).
  { intros a Ha. subst H1. apply nth_error_app1. exact Ha. }
  assert (Hb1 : load_buckets H1 ps = HOk (slots T)).
  { apply (load_buckets_same H H1 ps _ Hb). intros a Ha.
    apply Eold. apply Hbl. exact Ha. }
  assert (Ht1 : nth_error H1 t = Some (TableRec hd))
    by (rewrite Eold; assumption).
  assert (Hs1 : nth_error H1 (r_slots hd) = Some (SlotArray ps))
    by (rewrite Eold; assumption).
  assert (Hl1 : length H1 = (length H + 2)%nat)
    by (subst H1; rewrite length_app; reflexivity).
  split.
  - eexists. split.
    { apply (free_result H1 t hd ps _ Ht1 Hs1 Hb1); [ lia | lia | exact Hndb ]. }
    apply (free_shared _ (length H) recS ps).
    + rewrite free_list_other; [ exact EA | ].
      intros Hin. apply in_app_or in Hin. simpl in Hin.
      destruct Hin as [Hin | [Hin | [Hin | []]]];
        [ apply Hbl in Hin | | ]; lia.
    + subst recS. cbn [r_slots]. rewrite free_list_other; [ exact EB | ].
      intros Hin. apply in_app_or in Hin. simpl in Hin.
      destruct Hin as [Hin | [Hin | [Hin | []]]];
        [ apply Hbl in Hin | | ]; lia.
    + subst recS. cbn [r_n]. lia.
    + subst recS. cbn [r_n]. lia.
    + exact Hex.
    + intros a Ha. apply in_bucket_addrs in Ha. apply free_list_in.
      * apply in_or_app. left. exact Ha.
      * rewrite Hl1. apply Hbl in Ha. lia.
  - eexists. split.
    { apply (free_result H1 (length H) recS ps _ EA EB Hb1);
        subst recS; cbn [r_n]; [ lia | lia | exact Hndb ]. }
    subst recS. cbn [r_slots].
    apply (free_shared _ t hd ps).
    + rewrite free_list_other; [ exact Ht1 | ].
      intros Hin. apply in_app_or in Hin. simpl in Hin.
      destruct Hin as [Hin | [Hin | [Hin | []]]];
        [ contradiction | lia | lia ].
    + rewrite free_list_other; [ exact Hs1 | ].
      intros Hin. apply in_app_or in Hin. simpl in Hin.
      destruct Hin as [Hin | [Hin | [Hin | []]]];
        [ contradiction | lia | lia ].
    + lia.
    + lia.
    + exact Hex.
    + intros a Ha. apply in_bucket_addrs in Ha. apply free_list_in.
      * apply in_or_app. left. exact Ha.
      * rewrite Hl1. apply Hbl in Ha. lia.
Qed.

Lemma dup_then_free_both_witness :
  table_at sample_heap sample_addr = HOk sample_table /\
  exists H1 s,
    ahtable_dup sample_heap sample_addr = HOk (H1, s) /\
    (exists H2, ahtable_free H1 sample_addr = HOk H2 /\
                table_at H2 s = HErr UseAfterFree /\
                ahtable_free H2 s = HErr DoubleFree) /\
    (exists H2, ahtable_free H1 s = HOk H2 /\
                table_at H2 sample_addr = HErr UseAfterFree /\
                ahtable_free H2 sample_addr = HErr DoubleFree).
Proof.
  split; [ exact sample_at | ].
  apply (dup_then_free_both sample_heap sample_addr sample_table
           [9; 8; 0; 1; 2; 3; 4; 5; 6; 7]%nat
           (enc_recs [(keyk 4, 4)] ++ [x00])).
  - exact sample_at.
  - reflexivity.
  - reflexivity.
  - vm_compute. reflexivity.
  - repeat constructor; simpl; lia.
  - left. reflexivity.
Defined.

(** *** Handles of a table and of its copy *)

Lemma tryget_same_slots (hash : list byte -> Z) (junk : nat -> byte)
  (S0 T : ahtable_t) (key : list byte) :
  n S0 = n T -> slots S0 = slots T ->
  ahtable_tryget hash junk S0 key
  = (r <- ahtable_tryget hash junk T key ;; Ok (S0, snd r)).
Proof.
  intros Hn Hs. unfold ahtable_tryget, get_key. cbn [andb bind].
  rewrite Hn. destruct (hash_mod hash key (n T)) as [i | f]; cbn [bind];
    [ | reflexivity ].
  unfold get_key_slot. rewrite Hs.
  destruct (slot_at (slots T) (wrap_u32 i)) as [[buf | ] | f]; cbn [bind];
    try reflexivity.
  destruct (scan (S (length buf)) buf 0 key) as [[val | s] | f];
    cbn [bind]; reflexivity.
Qed.

Lemma tryget_at (hash : list byte -> Z) (junk : nat -> byte)
  (T : ahtable_t) (bs : list (list (list byte * Z)))
  (r1 r2 : list (list byte * Z)) (key : list byte) (v : Z) :
  wf_table hash T bs ->
  nth_error bs (Z.to_nat (slot_index hash (n T) key))
  = Some (r1 ++ (key, v) :: r2) ->
  ahtable_tryget hash junk T key
  = Ok (T, Some (mkptr (Z.to_nat (slot_index hash (n T) key))
                   (value_off r1 key))).
Proof.
  intros W Hrs.
  pose proof (slot_index_bound hash (n T) key (wf_pos _ _ _ W)) as Hi.
  unfold ahtable_tryget.
  rewrite get_key_no_expand
    by (simpl; auto; pose proof (wf_pos _ _ _ W); lia).
  eapply get_key_slot_hit; eauto.
Qed.

Lemma load_slot_same (H H' : heap) (p : option nat) :
  (forall a, p = Some a -> nth_error H' a = nth_error H a) ->
  load_slot H' p = load_slot H p.
Proof.
  intros Hsame. destruct p as [a | ]; cbn [load_slot]; [ | reflexivity ].
  unfold load_bucket, hload. rewrite (Hsame a eq_refl). reflexivity.
Qed.

Lemma load_buckets_upd (H : heap) (a : nat) (buf' : list byte)
  (ps : list (option nat)) :
  forall (ss : list slot_t) (i : nat),
    NoDup (bucket_addrs ps) ->
    nth_error ps i = Some (Some a) ->
    load_buckets H ps = HOk ss ->
    load_buckets (upd H a (Bucket buf')) ps = HOk (upd ss i (Some buf')).
Proof.
  induction ps as [ | p ps IH]; intros ss i Hnd Hi E.
  - destruct i; discriminate Hi.
  - cbn [load_buckets] in E |- *.
    apply hbind_ok in E. destruct E as (sl & Esl & E).
    apply hbind_ok in E. destruct E as (ss' & Ess & E).
    inversion E; subst ss; clear E.
    destruct i as [ | i]; cbn [nth_error] in Hi.
    + inversion Hi; subst p. cbn [load_slot] in Esl |- *.
      apply hbind_ok in Esl. destruct Esl as (buf & Ebuf & _).
      apply load_bucket_nth in Ebuf.
      assert (Ha : (a < length H)%nat)
        by (apply nth_error_Some; rewrite Ebuf; discriminate).
      rewrite (proj2 (load_bucket_nth _ _ _) (nth_error_upd_eq H a _ Ha)).
      cbn [hbind].
      unfold bucket_addrs in Hnd. cbn [flat_map app] in Hnd.
      inversion Hnd as [ | ? ? Hout _]; subst.
      rewrite (load_buckets_same H _ ps ss' Ess).
      * reflexivity.
      * intros a' Ha'. apply nth_error_upd_ne. intros ->. contradiction.
    + assert (Hin : In a (bucket_addrs ps)).
      { apply in_bucket_addrs. apply (nth_error_In _ _ Hi). }
      rewrite (load_slot_same H).
      * rewrite Esl. cbn [hbind].
        rewrite (IH ss' i); [ reflexivity | | exact Hi | exact Ess ].
        unfold bucket_addrs in Hnd |- *. cbn [flat_map] in Hnd.
        apply NoDup_app_remove_l in Hnd. exact Hnd.
      * intros a' ->. apply nth_error_upd_ne. intros ->.
        unfold bucket_addrs in Hnd. cbn [flat_map app] in Hnd.
        inversion Hnd as [ | ? ? Hout _]; subst. contradiction.
Qed.

Lemma lift_bind {A B : Type} (r : res A) (k : A -> res B) :
  lift (bind r k) = hbind (lift r) (fun a => lift (k a)).
Proof. destruct r; reflexivity. Qed.

Lemma heap_tryget_at (hash : list byte -> Z) (junk : nat -> byte)
  (H : heap) (t : nat) (T : ahtable_t) (ps : list (option nat))
  (key : list byte) (i o a : nat) :
  table_at H t = HOk T -> slot_ptrs H t = HOk ps ->
  ahtable_tryget hash junk T key = Ok (T, Some (mkptr i o)) ->
  nth_error ps i = Some (Some a) ->
  heap_tryget hash junk H t key = HOk (Some (a, o)).
Proof.
  intros Hat Hps Hget Ha. unfold heap_tryget.
  rewrite Hat. cbn [hbind]. rewrite Hget. cbn [lift hbind snd].
  rewrite Hps. cbn [hbind blk off]. rewrite Ha. reflexivity.
Qed.

(** X20.  A table and its copy hand out the same handles.  After
    [ahtable_dup], a lookup of a stored key through the copy returns the
    pointer that a lookup through the original returns, so a value written
    through it is the value that both tables hold afterwards. *)
Theorem dup_write_is_shared (hash : list byte -> Z) (junk : nat -> byte)
  (H : heap) (t : nat) (T : ahtable_t) (bs : list (list (list byte * Z)))
  (l : list nat) (key : list byte) (v0 v : Z) :
  table_at H t = HOk T -> wf_table hash T bs -> n T < 2 ^ 61 ->
  owned H t = HOk l -> NoDup l ->
  In (key, v0) (concat bs) -> good_value v ->
  exists H1 s p H2,
    ahtable_dup H t = HOk (H1, s) /\
    heap_tryget hash junk H1 t key = HOk (Some p) /\
    heap_tryget hash junk H1 s key = HOk (Some p) /\
    heap_read_value H1 p = HOk v0 /\
    heap_write_value H1 p v = HOk H2 /\
    heap_tryget hash junk H2 t key = HOk (Some p) /\
    heap_tryget hash junk H2 s key = HOk (Some p) /\
    heap_read_value H2 p = HOk v.
Proof.
  intros Hat W Hn Hown Hnd Hin Hv.
  assert (Hlen : Z.of_nat (length (slots T)) = n T).
  { rewrite (wf_n _ _ _ W). f_equal. apply (Forall2_length (wf_slots _ _ _ W)). }
  destruct (dup_spec H t T Hat Hlen Hn) as
    (H1 & s & ps & Hdup & Hs & Hfirst & Hl1 & Hps_s & Hps_t & _ & Hat1 & Hat1s).
  (* the record of the key in the table *)
  destruct (wf_in_home hash T bs key v0 W Hin) as (rs & Hrs & Hin').
  apply in_split in Hin'. destruct Hin' as (r1 & r2 & ->).
  set (i := Z.to_nat (slot_index hash (n T) key)) in *.
  pose proof (slot_index_bound hash (n T) key (wf_pos _ _ _ W)) as Hi.
  pose proof (tryget_at hash junk T bs r1 r2 key v0 W Hrs) as Hget.
  fold i in Hget.
  pose proof (wf_bucket_some hash T bs W i (key, v0) r1 r2 Hrs) as Hbuf.
  set (buf := enc_recs (r1 ++ (key, v0) :: r2) ++ [x00]) in *.
  pose proof (read_value_at hash T bs _ r1 r2 key v0 W Hi Hrs) as Hread.
  fold i in Hread.
  destruct (write_value_at hash T bs _ r1 r2 key v0 v W Hi Hrs Hv)
    as (T2 & Hw & W2 & Hn2 & Hm2 & Hl2).
  fold i in Hw, W2.
  (* the same, in the heap *)
  destruct (table_at_inv H1 t T Hat1) as (hd & ps' & Ht1 & Hs1 & Hb1 & HT).
  assert (ps' = ps).
  { unfold slot_ptrs in Hps_t.
    rewrite (proj2 (load_table_nth _ _ _) Ht1) in Hps_t. cbn [hbind] in Hps_t.
    rewrite (proj2 (load_slots_nth _ _ _) Hs1) in Hps_t.
    inversion Hps_t. reflexivity. }
  subst ps'.
  destruct (table_at_inv H1 s _ Hat1s) as (hdS & ps' & Ht1s & Hs1s & Hb1s & HS).
  assert (ps' = ps).
  { unfold slot_ptrs in Hps_s.
    rewrite (proj2 (load_table_nth _ _ _) Ht1s) in Hps_s. cbn [hbind] in Hps_s.
    rewrite (proj2 (load_slots_nth _ _ _) Hs1s) in Hps_s.
    inversion Hps_s. reflexivity. }
  subst ps'. cbn [dup_of slots] in Hb1s.
  destruct (slot_has_address H1 ps _ i buf Hb1 Hbuf) as (a & Hpa & Ha).
  assert (Hndb : NoDup (bucket_addrs ps)).
  { destruct (table_at_inv H t T Hat) as (hd0 & ps0 & Ht0 & Hs0 & Hb0 & _).
    pose proof (owned_inv H t l hd0 ps0 Ht0 Hs0 Hown) as Hl. subst l.
    assert (ps0 = ps).
    { assert (E : nth_error H1 (r_slots hd0) = Some (SlotArray ps0)).
      { rewrite <- Hfirst in Hs0.
        rewrite nth_error_firstn in Hs0.
        destruct (r_slots hd0 <? length H)%nat; [ exact Hs0 | discriminate ]. }
      assert (E' : nth_error H1 t = Some (TableRec hd0)).
      { rewrite <- Hfirst in Ht0.
        rewrite nth_error_firstn in Ht0.
        destruct (t <? length H)%nat; [ exact Ht0 | discriminate ]. }
      rewrite Ht1 in E'. inversion E'; subst hd0.
      rewrite Hs1 in E. inversion E. reflexivity. }
    subst ps0.
    inversion Hnd as [ | ? ? _ Hnd']; subst.
    inversion Hnd' as [ | ? ? _ Hnd'']; subst. exact Hnd''. }
  (* the write *)
  unfold write_value in Hw. unfold deref in Hw. cbn [blk off] in Hw.
  rewrite Hbuf in Hw. cbn [of_option bind] in Hw.
  destruct (store_bytes buf (value_off r1 key) (le_split sizeof_value v))
    as [buf' | f] eqn:Estore; cbn [bind] in Hw; [ | discriminate Hw ].
  inversion Hw as [HT2]; clear Hw.
  set (H2 := upd H1 a (Bucket buf')).
  assert (Hb2 : load_buckets H2 ps = HOk (upd (slots T) i (Some buf'))).
  { apply load_buckets_upd; assumption. }
  assert (Ht2 : nth_error H2 t = Some (TableRec hd)).
  { subst H2. rewrite nth_error_upd_ne; [ exact Ht1 | ].
    intros ->. congruence. }
  assert (Hs2 : nth_error H2 (r_slots hd) = Some (SlotArray ps)).
  { subst H2. rewrite nth_error_upd_ne; [ exact Hs1 | ].
    intros E. rewrite E in Ha. congruence. }
  assert (Ht2s : nth_error H2 s = Some (TableRec hdS)).
  { subst H2. rewrite nth_error_upd_ne; [ exact Ht1s | ].
    intros E. rewrite E in Ha. congruence. }
  assert (Hs2s : nth_error H2 (r_slots hdS) = Some (SlotArray ps)).
  { subst H2. rewrite nth_error_upd_ne; [ exact Hs1s | ].
    intros E. rewrite E in Ha. congruence. }
  assert (Hat2 : table_at H2 t = HOk T2).
  { rewrite (table_at_intro H2 t hd ps _ Ht2 Hs2 Hb2).
    rewrite <- HT2. rewrite HT. reflexivity. }
  assert (Hat2s : table_at H2 s = HOk (dup_of T2)).
  { rewrite (table_at_intro H2 s hdS ps _ Ht2s Hs2s Hb2).
    rewrite <- HT2. unfold dup_of in HS |- *. cbn [flag c0 c1 n m max_m slots].
    inversion HS. reflexivity. }
  assert (Hps2 : slot_ptrs H2 t = HOk ps).
  { unfold slot_ptrs. rewrite (proj2 (load_table_nth _ _ _) Ht2).
    cbn [hbind]. apply load_slots_nth. exact Hs2. }
  assert (Hps2s : slot_ptrs H2 s = HOk ps).
  { unfold slot_ptrs. rewrite (proj2 (load_table_nth _ _ _) Ht2s).
    cbn [hbind]. apply load_slots_nth. exact Hs2s. }
  assert (Hrs2 : nth_error (upd bs i (r1 ++ (key, v) :: r2)) i
                 = Some (r1 ++ (key, v) :: r2)).
  { apply nth_error_upd_eq. apply nth_error_Some. rewrite Hrs. discriminate. }
  assert (Hi2 : Z.to_nat (slot_index hash (n T2) key) = i).
  { rewrite Hn2. reflexivity. }
  pose proof (tryget_at hash junk T2 _ r1 r2 key v W2) as Hget2.
  rewrite Hi2 in Hget2. specialize (Hget2 Hrs2).
  pose proof (read_value_at hash T2 _ (slot_index hash (n T) key) r1 r2 key v
                W2) as Hread2.
  fold i in Hread2. rewrite Hn2 in Hread2. specialize (Hread2 Hi Hrs2).
  assert (Hgets : forall T0, ahtable_tryget hash junk T0 key
                             = Ok (T0, Some (mkptr i (value_off r1 key))) ->
                  ahtable_tryget hash junk (dup_of T0) key
                  = Ok (dup_of T0, Some (mkptr i (value_off r1 key)))).
  { intros T0 E.
    rewrite (tryget_same_slots hash junk (dup_of T0) T0 key eq_refl eq_refl).
    rewrite E. reflexivity. }
  exists H1, s, (a, value_off r1 key), H2.
  split; [ exact Hdup | ].
  split; [ apply (heap_tryget_at hash junk H1 t T ps key i _ a Hat1 Hps_t Hget Hpa) | ].
  split; [ apply (heap_tryget_at hash junk H1 s _ ps key i _ a Hat1s Hps_s
                    (Hgets T Hget) Hpa) | ].
  split.
  { unfold heap_read_value. cbn [fst snd].
    rewrite (proj2 (load_bucket_nth _ _ _) Ha). cbn [hbind].
    unfold read_value, deref in Hread. cbn [blk off] in Hread.
    rewrite Hbuf in Hread. cbn [of_option bind] in Hread.
    destruct (load_bytes buf (value_off r1 key) sizeof_value) as [w | f];
      cbn [bind] in Hread; [ | discriminate Hread ].
    inversion Hread. reflexivity. }
  split.
  { unfold heap_write_value. cbn [fst snd].
    rewrite (proj2 (load_bucket_nth _ _ _) Ha). cbn [hbind].
    rewrite Estore. reflexivity. }
  split; [ apply (heap_tryget_at hash junk H2 t T2 ps key i _ a Hat2 Hps2 Hget2 Hpa) | ].
  split; [ apply (heap_tryget_at hash junk H2 s _ ps key i _ a Hat2s Hps2s
                    (Hgets T2 Hget2) Hpa) | ].
  unfold heap_read_value. cbn [fst snd].
  assert (Ha2 : nth_error H2 a = Some (Bucket buf')).
  { subst H2. apply nth_error_upd_eq. apply nth_error_Some. rewrite Ha.
    discriminate. }
  rewrite (proj2 (load_bucket_nth _ _ _) Ha2). cbn [hbind].
  unfold read_value, deref in Hread2. cbn [blk off] in Hread2.
  rewrite <- HT2 in Hread2. cbn [slots] in Hread2.
  rewrite nth_error_upd_eq in Hread2
    by (apply nth_error_Some; rewrite Hbuf; discriminate).
  cbn [of_option bind] in Hread2.
  destruct (load_bytes buf' (value_off r1 key) sizeof_value) as [w | f];
    cbn [bind] in Hread2; [ | discriminate Hread2 ].
  inversion Hread2. reflexivity.
Qed.

Lemma dup_write_is_shared_witness :
  table_at sample_heap sample_addr = HOk sample_table /\
  wf_table hash0 sample_table sample_content /\
  exists H1 s p H2,
    ahtable_dup sample_heap sample_addr = HOk (H1, s) /\
    heap_tryget hash0 junk0 H1 sample_addr (keyk 10) = HOk (Some p) /\
    heap_tryget hash0 junk0 H1 s (keyk 10) = HOk (Some p) /\
    heap_read_value H1 p = HOk 10 /\
    heap_write_value H1 p 77 = HOk H2 /\
    heap_tryget hash0 junk0 H2 sample_addr (keyk 10) = HOk (Some p) /\
    heap_tryget hash0 junk0 H2 s (keyk 10) = HOk (Some p) /\
    heap_read_value H2 p = HOk 77.
Proof.
  split; [ exact sample_at | ].
  split; [ exact sample_wf | ].
  apply (dup_write_is_shared hash0 junk0 sample_heap sample_addr sample_table
           sample_content [9; 8; 0; 1; 2; 3; 4; 5; 6; 7]%nat (keyk 10) 10 77).
  - exact sample_at.
  - exact sample_wf.
  - reflexivity.
  - vm_compute. reflexivity.
  - repeat constructor; simpl; lia.
  - vm_compute. tauto.
  - unfold good_value. lia.
Defined.

(** ** Key lengths that do not read back *)

Lemma scan_miss_tail (rs : list (list byte * Z)) (pre : list byte)
  (key : list byte) (fuel : nat) (b0 : byte) (tail : list byte) :
  Forall good_rec rs -> ~ In key (map fst rs) -> (length rs < fuel)%nat ->
  byte.unsigned b0 = 0 ->
  scan fuel (pre ++ enc_recs rs ++ b0 :: tail) (length pre) key
  = Ok (Miss (length pre + length (enc_recs rs))).
Proof.
  intros Hg Hin Hf Hb0. revert pre fuel Hg Hin Hf.
  induction rs as [ | r rs IH]; intros pre fuel Hg Hin Hf.
  - destruct fuel as [ | fuel]; [ simpl in Hf; lia | ].
    simpl enc_recs. simpl app. cbn [scan].
    rewrite load_at by reflexivity. cbn [bind]. rewrite Hb0.
    simpl. rewrite Nat.add_0_r. reflexivity.
  - destruct fuel as [ | fuel]; [ simpl in Hf; lia | ].
    inversion Hg as [ | ? ? [Hd _] Hg']; subst.
    simpl enc_recs. rewrite <- app_assoc.
    rewrite scan_step by exact Hd.
    destruct (memcmp_eq (fst r) key) eqn:Hc.
    { apply memcmp_eq_true in Hc. exfalso. apply Hin. left. exact Hc. }
    rewrite app_assoc. rewrite <- (length_app pre).
    rewrite IH; auto.
    + rewrite !length_app. f_equal. f_equal. lia.
    + intros H. apply Hin. right. exact H.
    + simpl in Hf. lia.
Qed.

Lemma scan_hit_tail (r1 : list (list byte * Z)) (v : Z) (pre : list byte)
  (key : list byte) (fuel : nat) (tail : list byte) :
  Forall good_rec (r1 ++ [(key, v)]) -> ~ In key (map fst r1) ->
  (length r1 < fuel)%nat ->
  scan fuel (pre ++ enc_recs (r1 ++ [(key, v)]) ++ tail) (length pre) key
  = Ok (Hit (length pre + length (enc_recs r1)
             + prefix_size (length key) + length key)).
Proof.
  revert pre fuel. induction r1 as [ | r r1 IH]; intros pre fuel Hg Hin Hf.
  - destruct fuel as [ | fuel]; [ simpl in Hf; lia | ].
    inversion Hg as [ | ? ? [Hd _] Hg']; subst.
    simpl app. simpl enc_recs. rewrite <- app_assoc.
    rewrite scan_step by exact Hd. cbn [fst].
    destruct (memcmp_eq key key) eqn:Hc.
    + simpl. rewrite Nat.add_0_r. reflexivity.
    + assert (memcmp_eq key key = true) by (apply memcmp_eq_true; reflexivity).
      congruence.
  - destruct fuel as [ | fuel]; [ simpl in Hf; lia | ].
    simpl app in Hg. inversion Hg as [ | ? ? [Hd _] Hg']; subst.
    simpl app. simpl enc_recs. rewrite <- app_assoc.
    rewrite scan_step by exact Hd.
    destruct (memcmp_eq (fst r) key) eqn:Hc.
    { apply memcmp_eq_true in Hc. exfalso. apply Hin. left. exact Hc. }
    rewrite app_assoc. rewrite <- (length_app pre).
    rewrite IH; auto.
    + rewrite !length_app. f_equal. f_equal. lia.
    + intros H. apply Hin. right. exact H.
    + simpl in Hf. lia.
Qed.

Lemma prefix_bytes_256 (len : nat) :
  (128 <= len)%nat -> Z.of_nat len <= 32767 -> (len mod 256 = 0)%nat ->
  exists b0 h, prefix_bytes len = [b0; h] /\ byte.unsigned b0 = 0.
Proof.
  intros H Hmax Hlow. rewrite prefix_bytes_long by lia.
  eexists _, _. split; [ reflexivity | ].
  rewrite byte.unsigned_of_Z. unfold byte.wrap.
  replace (Z.of_nat len + 32768) with (Z.of_nat len + 128 * 2 ^ 8) by lia.
  rewrite Z_mod_plus_full.
  change (2 ^ 8) with (Z.of_nat 256). rewrite <- Nat2Z.inj_mod. lia.
Qed.

Section Lost.

Variable hash : list byte -> Z.
Variable junk : nat -> byte.

(** A lookup in a table that differs from [T] in other slots only. *)
Lemma get_key_slot_same (T T' : ahtable_t) (i : Z) (key : list byte) :
  nth_error (slots T') (Z.to_nat i) = nth_error (slots T) (Z.to_nat i) ->
  get_key_slot junk T' i key false
  = (r <- get_key_slot junk T i key false ;; Ok (T', snd r)).
Proof.
  intros Hs. unfold get_key_slot, slot_at. rewrite Hs.
  destruct (nth_error (slots T) (Z.to_nat i)) as [[buf | ] | ];
    cbn [of_option bind]; try reflexivity.
  destruct (scan (S (length buf)) buf 0 key) as [[val | s] | f];
    cbn [bind]; reflexivity.
Qed.

Lemma read_value_same (T T' : ahtable_t) (p : ptr) :
  nth_error (slots T') (blk p) = nth_error (slots T) (blk p) ->
  read_value T' p = read_value T p.
Proof. intros Hs. unfold read_value, deref. rewrite Hs. reflexivity. Qed.

Lemma lost_key_absent (T : ahtable_t) (bs : list (list (list byte * Z)))
  (key : list byte) :
  wf_table hash T bs -> (length key mod 256 = 0)%nat ->
  ~ In key (map fst (concat bs)).
Proof.
  intros W Hlen Hin. apply (good_in_table hash T bs key W) in Hin.
  destruct Hin as [H | H]; [ | lia ].
  rewrite Nat.mod_small in Hlen by lia. lia.
Qed.

Lemma lost_key_table (T : ahtable_t) (bs : list (list (list byte * Z)))
  (rs : list (list byte * Z)) (key : list byte) :
  wf_table hash T bs ->
  (128 <= length key)%nat -> Z.of_nat (length key) <= 32767 ->
  (length key mod 256 = 0)%nat ->
  m T < max_m T -> m T + 1 < 2 ^ 64 ->
  nth_error bs (Z.to_nat (slot_index hash (n T) key)) = Some rs ->
  let i := slot_index hash (n T) key in
  let T' := set_slot T i (enc_recs (rs ++ [(key, 0)]) ++ [x00])
              (wrap_size (m T + 1)) in
  ahtable_get hash junk T key
  = Ok (T', Some (mkptr (Z.to_nat i) (value_off rs key))) /\
  read_value T' (mkptr (Z.to_nat i) (value_off rs key)) = Ok 0 /\
  ahtable_tryget hash junk T' key = Ok (T', None) /\
  (forall k v, In (k, v) (concat bs) -> lookup hash junk T' k = Ok (Some v)).
Proof.
  intros W Hlo Hhi Hmod Hlt Hm Hrs i T'.
  pose proof (wf_pos _ _ _ W) as Hpos.
  pose proof (slot_index_bound hash (n T) key Hpos) as Hi. fold i in Hi, Hrs.
  pose proof (lost_key_absent T bs key W Hmod) as Hout.
  assert (Hnot : ~ In key (map fst rs)).
  { rewrite (key_in_bucket hash T bs rs key W Hrs). exact Hout. }
  destruct (wf_slot hash T bs i W Hi) as (sl & rs' & Hsl & Hrs' & Hrepr & Hg & Hnd).
  rewrite Hrs in Hrs'. inversion Hrs'; subst rs'. clear Hrs'.
  assert (Hil : (Z.to_nat i < length (slots T))%nat)
    by (apply nth_error_Some; rewrite Hsl; discriminate).
  assert (Hbuf : nth_error (slots T') (Z.to_nat i)
                 = Some (Some (enc_recs (rs ++ [(key, 0)]) ++ [x00]))).
  { subst T'. cbn [set_slot slots]. apply nth_error_upd_eq. exact Hil. }
  assert (Hother : forall j, j <> Z.to_nat i ->
                     nth_error (slots T') j = nth_error (slots T) j).
  { intros j Hj. subst T'. cbn [set_slot slots].
    apply nth_error_upd_ne. auto. }
  destruct (prefix_bytes_256 (length key) Hlo Hhi Hmod) as (b0 & h & Hpre & Hb0).
  split.
  { unfold ahtable_get. rewrite get_key_no_expand.
    - apply (get_key_slot_insert hash junk T bs i rs key W Hi Hrs Hnot).
    - cbn [andb]. apply Z.leb_gt. exact Hlt.
    - lia. }
  split.
  { unfold read_value, deref. cbn [blk off]. rewrite Hbuf.
    cbn [of_option bind].
    rewrite (enc_recs_value rs [] key 0).
    rewrite load_bytes_at
      by (rewrite ?length_value_prefix, ?length_le_split; reflexivity).
    cbn [bind]. rewrite le_combine_value by lia. reflexivity. }
  split.
  { unfold ahtable_tryget.
    rewrite get_key_no_expand by (subst T'; cbn [set_slot n]; auto; lia).
    change (n T') with (n T). fold i.
    unfold get_key_slot, slot_at. rewrite Hbuf. cbn [of_option bind].
    set (buf := enc_recs (rs ++ [(key, 0)]) ++ [x00]).
    assert (Ebuf : buf = enc_recs rs
                         ++ b0 :: h :: key ++ le_split sizeof_value 0 ++ [x00]).
    { subst buf. rewrite length_enc_recs_app.
      cbn [enc_recs flat_map]. rewrite app_nil_r.
      unfold enc_rec. cbn [fst snd]. rewrite Hpre.
      rewrite <- !app_assoc. reflexivity. }
    assert (Hfuel : (length rs < S (length buf))%nat).
    { rewrite Ebuf, length_app. pose proof (length_enc_recs_ge rs). lia. }
    pose proof (scan_miss_tail rs [] key (S (length buf)) b0
                  (h :: key ++ le_split sizeof_value 0 ++ [x00])
                  Hg Hnot Hfuel Hb0) as Hscan.
    cbn [app length] in Hscan. rewrite <- Ebuf in Hscan.
    rewrite Hscan. reflexivity. }
  intros k v Hin.
  destruct (wf_in_home hash T bs k v W Hin) as (rk & Hrk & Hink).
  pose proof (slot_index_bound hash (n T) k Hpos) as Hik.
  unfold lookup, ahtable_tryget.
  rewrite get_key_no_expand by (subst T'; cbn [set_slot n]; auto; lia).
  change (n T') with (n T).
  destruct (Nat.eq_dec (Z.to_nat (slot_index hash (n T) k)) (Z.to_nat i))
    as [Heq | Hne].
  - (* the slot of the lost key *)
    assert (Hki : slot_index hash (n T) k = i) by lia.
    rewrite Hki in *. rewrite Hrs in Hrk. inversion Hrk; subst rk. clear Hrk.
    apply in_split in Hink. destruct Hink as (r1 & r2 & Hsplit).
    assert (Hg1 : Forall good_rec (r1 ++ [(k, v)])).
    { rewrite Hsplit in Hg. apply Forall_app in Hg. destruct Hg as [Hg1 Hg2].
      apply Forall_app. split; [ exact Hg1 | ].
      inversion Hg2; subst. constructor; [ assumption | constructor ]. }
    assert (Hv : 0 <= v < 2 ^ 64).
    { apply Forall_app in Hg1. destruct Hg1 as [_ Hk].
      inversion Hk as [ | ? ? [_ Hv] _]; subst. exact Hv. }
    assert (Hk1 : ~ In k (map fst r1)).
    { rewrite Hsplit in Hnd. apply (nodup_before r1 r2 k v Hnd). }
    assert (Hlay : enc_recs (rs ++ [(key, 0)]) ++ [x00]
                   = enc_recs (r1 ++ [(k, v)])
                     ++ (enc_recs (r2 ++ [(key, 0)]) ++ [x00])).
    { rewrite Hsplit. rewrite !length_enc_recs_app.
      cbn [enc_recs flat_map]. rewrite !app_nil_r.
      rewrite <- !app_assoc. reflexivity. }
    unfold get_key_slot, slot_at. rewrite Hbuf. cbn [of_option bind].
    set (buf := enc_recs (rs ++ [(key, 0)]) ++ [x00]) in *.
    assert (Hfuel : (length r1 < S (length buf))%nat).
    { rewrite Hlay, !length_app. pose proof (length_enc_recs_ge r1).
      rewrite length_enc_recs_app, length_app. lia. }
    pose proof (scan_hit_tail r1 v [] k (S (length buf))
                  (enc_recs (r2 ++ [(key, 0)]) ++ [x00]) Hg1 Hk1 Hfuel)
      as Hscan.
    cbn [app length] in Hscan. rewrite <- Hlay in Hscan.
    rewrite Hscan. cbn [bind]. unfold read_value, deref. cbn [blk off].
    rewrite Hbuf. cbn [of_option bind].
    assert (Hval : buf = (enc_recs r1 ++ prefix_bytes (length k) ++ k)
                         ++ le_split sizeof_value v
                         ++ (enc_recs (r2 ++ [(key, 0)]) ++ [x00])).
    { rewrite Hlay. rewrite length_enc_recs_app.
      cbn [enc_recs flat_map]. rewrite app_nil_r.
      unfold enc_rec. cbn [fst snd]. rewrite <- !app_assoc. reflexivity. }
    rewrite Hval. rewrite load_bytes_at.
    + cbn [bind]. rewrite le_combine_value by exact Hv. reflexivity.
    + rewrite length_value_prefix. unfold value_off. lia.
    + rewrite length_le_split. reflexivity.
  - (* another slot *)
    rewrite (get_key_slot_same T T') by (apply Hother; exact Hne).
    apply in_split in Hink. destruct Hink as (r1 & r2 & ->).
    rewrite (get_key_slot_hit hash junk T bs _ r1 r2 k v false W Hik Hrk).
    cbn [bind snd].
    rewrite (read_value_same T T') by (cbn [blk]; apply Hother; exact Hne).
    rewrite (read_value_at hash T bs _ r1 r2 k v W Hik Hrk). reflexivity.
Qed.

End Lost.

(** X21.  A key whose length is a multiple of 256 (256, 512, ..., 32512)
    is lost.  [ahtable_get] stores it in a well-formed table that is below
    [max_m], returns a handle to a zero value and counts it in the size,
    but the first byte of its length prefix is zero, which the search takes
    for the end of the slot: [ahtable_tryget] does not find the key
    afterwards.  The pairs that the table held are still found with their
    values. *)
Theorem key_of_length_256_is_lost (hash : list byte -> Z)
  (junk : nat -> byte) (T : ahtable_t) (bs : list (list (list byte * Z)))
  (key : list byte) :
  wf_table hash T bs ->
  (128 <= length key)%nat -> Z.of_nat (length key) <= 32767 ->
  (length key mod 256 = 0)%nat ->
  m T < max_m T -> m T + 1 < 2 ^ 64 ->
  exists T' p,
    ahtable_get hash junk T key = Ok (T', Some p) /\
    read_value T' p = Ok 0 /\
    ahtable_size T' = ahtable_size T + 1 /\
    ahtable_tryget hash junk T' key = Ok (T', None) /\
    (forall k v, In (k, v) (concat bs) ->
                 lookup hash junk T' k = Ok (Some v)).
Proof.
  intros W Hlo Hhi Hmod Hlt Hm.
  pose proof (slot_index_bound hash (n T) key (wf_pos _ _ _ W)) as Hi.
  destruct (wf_slot hash T bs _ W Hi) as (sl & rs & _ & Hrs & _).
  destruct (lost_key_table hash junk T bs rs key W Hlo Hhi Hmod Hlt Hm Hrs)
    as (Hget & Hread & Htry & Hall).
  eexists _, _. split; [ exact Hget | ]. split; [ exact Hread | ].
  split; [ | split; [ exact Htry | exact Hall ] ].
  unfold ahtable_size. cbn [set_slot m].
  pose proof (wf_m_nonneg hash T bs W). apply wrap_size_small. lia.
Qed.

Lemma key_of_length_256_is_lost_witness :
  wf_table hash0 sample_table sample_content /\
  exists T' p,
    ahtable_get hash0 junk0 sample_table key256 = Ok (T', Some p) /\
    read_value T' p = Ok 0 /\
    ahtable_size T' = ahtable_size sample_table + 1 /\
    ahtable_tryget hash0 junk0 T' key256 = Ok (T', None) /\
    (forall k v, In (k, v) (concat sample_content) ->
                 lookup hash0 junk0 T' k = Ok (Some v)).
Proof.
  split; [ exact sample_wf | ].
  apply (key_of_length_256_is_lost hash0 junk0 sample_table sample_content
           key256).
  - exact sample_wf.
  - unfold key256. rewrite repeat_length. lia.
  - unfold key256. rewrite repeat_length. lia.
  - reflexivity.
  - reflexivity.
  - reflexivity.
Defined.

Lemma scan_S (fuel : nat) (buf : list byte) (s : nat) (key : list byte) :
  scan (S fuel) buf s key
  = (b <- load buf s ;;
     if byte.unsigned b =? 0 then Ok (Miss s) else
     r <- read_keylen buf s ;;
     if negb (fst r =? length key)%nat
     then scan fuel buf (snd r + (fst r + sizeof_value))%nat key
     else
       cand <- load_bytes buf (snd r) (length key) ;;
       if memcmp_eq cand key
       then Ok (Hit (snd r + length key)%nat)
       else scan fuel buf (snd r + (fst r + sizeof_value))%nat key).
Proof.
  cbn [scan]. destruct (load buf s) as [b | f]; cbn [bind]; [ | reflexivity ].
  destruct (byte.unsigned b =? 0); [ reflexivity | ].
  destruct (read_keylen buf s) as [[k s'] | f]; reflexivity.
Qed.

Lemma low_byte_length (len : nat) :
  (128 <= len)%nat -> (1 <= len mod 256 < 128)%nat -> (257 <= len)%nat.
Proof.
  intros H Hlow.
  destruct (Nat.lt_ge_cases len 256) as [Hlt | Hge].
  - rewrite Nat.mod_small in Hlow by exact Hlt. lia.
  - destruct (Nat.eq_dec len 256) as [-> | Hne]; [ | lia ].
    simpl in Hlow. lia.
Qed.

(** The search of a slot that holds one key of [len] bytes [0xff], when
    the low byte of [len] is between 1 and 127: the low byte is taken for
    the length, the cursor lands among the bytes of the key, reads the
    length 32767 there, and leaves the buffer. *)
Lemma scan_leaves_buffer (len : nat) :
  (128 <= len)%nat -> Z.of_nat len <= 32767 -> (1 <= len mod 256 < 128)%nat ->
  let key := repeat xff len in
  let buf := enc_rec (key, 0) ++ [x00] in
  scan (S (length buf)) buf 0 key = Err OutOfBounds.
Proof.
  intros Hlo Hhi Hlow key buf.
  pose proof (low_byte_length len Hlo Hlow) as H257.
  set (lo := (len mod 256)%nat) in *.
  assert (Hkey : length key = len) by apply repeat_length.
  assert (Hbuf : buf = prefix_bytes len ++ key ++ le_split sizeof_value 0
                       ++ [x00]).
  { subst buf. unfold enc_rec. cbn [fst snd]. rewrite Hkey.
    rewrite <- !app_assoc. reflexivity. }
  assert (Hlen : length buf = (len + 11)%nat).
  { rewrite Hbuf, !length_app, length_prefix_bytes, length_le_split, Hkey.
    unfold prefix_size. destruct (Nat.ltb_spec len 128); [ lia | ].
    unfold sizeof_value. cbn [length]. lia. }
  assert (Hpre : exists b h, prefix_bytes len = [b; h] /\
                             byte.unsigned b = Z.of_nat lo).
  { rewrite (prefix_bytes_long len Hlo Hhi). eexists _, _.
    split; [ reflexivity | ].
    rewrite byte.unsigned_of_Z. unfold byte.wrap.
    replace (Z.of_nat len + 32768) with (Z.of_nat len + 128 * 2 ^ 8) by lia.
    rewrite Z_mod_plus_full.
    change (2 ^ 8) with (Z.of_nat 256). rewrite <- Nat2Z.inj_mod.
    reflexivity. }
  destruct Hpre as (b & h & Hpre & Hb).
  (* first step: the low byte is read as a one-byte length *)
  assert (L1 : load buf 0 = Ok b).
  { rewrite Hbuf, Hpre. reflexivity. }
  assert (K1 : read_keylen buf 0 = Ok (lo, 1%nat)).
  { rewrite Hbuf.
    apply (read_keylen_prefix_low [] _ len 0 eq_refl Hlo Hhi).
    subst lo. lia. }
  (* second step: inside the key *)
  set (pre2 := [b; h] ++ repeat xff (lo + 7)).
  set (post2 := repeat xff (len - (lo + 9)) ++ le_split sizeof_value 0
                ++ [x00]).
  assert (Hsplit : buf = pre2 ++ [xff; xff] ++ post2).
  { rewrite Hbuf, Hpre. subst pre2 post2 key.
    replace len with ((lo + 7) + (2 + (len - (lo + 9))))%nat at 1 by lia.
    rewrite !repeat_app. cbn [repeat]. rewrite <- !app_assoc. reflexivity. }
  assert (Hpre2 : length pre2 = (lo + 9)%nat).
  { subst pre2. rewrite length_app, repeat_length. cbn [length]. lia. }
  assert (L2 : load buf (lo + 9) = Ok xff).
  { rewrite Hsplit. cbn [app]. apply load_at. symmetry. exact Hpre2. }
  assert (K2 : read_keylen buf (lo + 9)
               = Ok (Z.to_nat 32767, (lo + 9 + 2)%nat)).
  { unfold read_keylen. rewrite L2. cbn [bind].
    change (negb (Z.land 128 (byte.unsigned xff) =? 0)) with true.
    cbv iota. unfold load_u16. rewrite Hsplit.
    rewrite (load_bytes_at pre2 [xff; xff] post2)
      by (rewrite ?Hpre2; reflexivity).
    reflexivity. }
  (* third step: outside the buffer *)
  assert (L3 : load buf (lo + 9 + 2 + (Z.to_nat 32767 + sizeof_value))
               = Err OutOfBounds).
  { unfold load.
    assert (E : nth_error buf (lo + 9 + 2 + (Z.to_nat 32767 + sizeof_value))
                = None).
    { apply nth_error_None. rewrite Hlen. unfold sizeof_value. lia. }
    rewrite E. reflexivity. }
  rewrite Hlen.
  replace (S (len + 11)) with (S (S (S (len + 9)))) by lia.
  rewrite scan_S, L1. cbn [bind]. rewrite Hb.
  destruct (Z.eqb_spec (Z.of_nat lo) 0) as [E | _]; [ lia | ].
  rewrite K1. cbn [bind fst snd]. rewrite Hkey.
  destruct (Nat.eqb_spec lo len) as [E | _]; [ lia | ]. cbn [negb].
  replace (1 + (lo + sizeof_value))%nat with (lo + 9)%nat
    by (unfold sizeof_value; lia).
  rewrite scan_S, L2. cbn [bind].
  change (byte.unsigned xff =? 0) with false. cbv iota.
  rewrite K2. cbn [bind fst snd]. rewrite Hkey.
  destruct (Nat.eqb_spec (Z.to_nat 32767) len) as [E | _].
  { exfalso. subst lo. rewrite <- E in Hlow.
    change (Z.to_nat 32767 mod 256)%nat with 255%nat in Hlow. lia. }
  cbn [negb].
  rewrite scan_S, L3. reflexivity.
Qed.

(** X22.  A lookup can read beyond the buffer of a slot.  Take a key of
    [len] bytes [0xff], where [len] needs the two-byte prefix and its low
    byte is between 1 and 127 (257, 258, ...).  After [ahtable_get] has
    stored the key in an empty slot, [ahtable_tryget] of the same key reads
    the low byte as a one-byte length, continues among the bytes of the
    key, and then reads at an offset behind the end of the buffer. *)
Theorem tryget_reads_beyond_buffer (hash : list byte -> Z)
  (junk : nat -> byte) (T : ahtable_t) (len : nat) :
  (128 <= len)%nat -> Z.of_nat len <= 32767 -> (1 <= len mod 256 < 128)%nat ->
  0 < n T -> m T < max_m T ->
  nth_error (slots T) (Z.to_nat (slot_index hash (n T) (repeat xff len)))
  = Some None ->
  exists T' p,
    ahtable_get hash junk T (repeat xff len) = Ok (T', Some p) /\
    ahtable_tryget hash junk T' (repeat xff len) = Err OutOfBounds.
Proof.
  intros Hlo Hhi Hlow Hn Hlt Hsl.
  set (key := repeat xff len) in *.
  set (i := slot_index hash (n T) key) in *.
  eexists _, _. split.
  { unfold ahtable_get. rewrite get_key_no_expand.
    - fold i. apply (get_key_slot_new junk T i key Hsl).
    - cbn [andb]. apply Z.leb_gt. exact Hlt.
    - lia. }
  unfold ahtable_tryget.
  rewrite get_key_no_expand by (cbn [set_slot n]; auto; lia).
  cbn [set_slot n]. fold i.
  unfold get_key_slot, slot_at. cbn [set_slot slots].
  rewrite nth_error_upd_eq
    by (apply nth_error_Some; rewrite Hsl; discriminate).
  cbn [of_option bind].
  pose proof (scan_leaves_buffer len Hlo Hhi Hlow) as Hscan.
  cbv zeta in Hscan. fold key in Hscan. rewrite Hscan. reflexivity.
Qed.

Lemma tryget_reads_beyond_buffer_witness :
  exists T' p,
    ahtable_get hash0 junk0 ahtable_create (repeat xff 257)
    = Ok (T', Some p) /\
    ahtable_tryget hash0 junk0 T' (repeat xff 257) = Err OutOfBounds.
Proof.
  apply (tryget_reads_beyond_buffer hash0 junk0 ahtable_create 257).
  - lia.
  - lia.
  - simpl. lia.
  - reflexivity.
  - reflexivity.
  - vm_compute. reflexivity.
Defined.
